(** * McpSessionManager: session identity, per-session connection state
      machine, idle sweep and bulk shutdown.

    Shallow embedding of the two versions of [McpSessionManager] found in the
    repository:
    - [src/nodes/McpClient/McpSessionManager.ts] (the version without a
      timestamp and without liveness probe), referred to as [V1];
    - [src/unnamed/part_000] (the version with a [timestamp] property and with
      [validateConnection]), referred to as [V2].
    Where the two files agree, line numbers are those of [part_000].

    How the program is modelled:
    - strings are sequences of UTF-16 code units; a number is an integer
      that a double holds exactly ([Date.now()] readings, 32-bit hashes and
      integer timestamps), [NaN], an infinity, or any other double, which is
      given by what [toString] prints for it; an object is the sequence of
      its properties;
    - the [McpSessionManager] objects live in a heap and are named by
      references, the static [instances] map holds references; the clock,
      the pending timeouts and the promises of [doConnect] are part of the
      world, and every call of a collaborator ([new Client], [connect],
      [listTools], [close]) and of the console is recorded in a trace;
    - the collaborators' answers are given by an environment;
    - in [Manager] and [Registry] a call of an [async] method runs to its end
      before the next call starts, and the clock stands still during a call;
      [Async] cuts [connect], [doConnect] and [cleanup] at their [await]s and
      lets calls overlap. *)

From Stdlib Require Import ZArith List Bool Lia String Ascii.
Import ListNotations.
Local Open Scope Z_scope.

(* ================================================================== *)
(** ** JavaScript values used by the session manager                   *)
(* ================================================================== *)

Module JS.

(** A JavaScript string is a sequence of UTF-16 code units;
    [s.charCodeAt(i)] is the [i]-th element. *)
Definition jsstring := list Z.

(** Source literals are ASCII. *)
Definition lit (s : string) : jsstring :=
  map (fun a => Z.of_N (N_of_ascii a)) (list_ascii_of_string s).

(** [ToInt32]: wrap an integer into the signed 32-bit range. *)
Definition to_int32 (z : Z) : Z := (z + 2 ^ 31) mod 2 ^ 32 - 2 ^ 31.

(** [a << b] on numbers. *)
Definition js_shl (a b : Z) : Z :=
  to_int32 (Z.shiftl (to_int32 a) (Z.land b 31)).

(** [a & b] on numbers. *)
Definition js_and (a b : Z) : Z :=
  to_int32 (Z.land (to_int32 a) (to_int32 b)).

(** *** [Number.prototype.toString(radix)] on integers *)

Definition digit_char (d : Z) : Z :=
  if d <? 10 then 48 + d else 87 + d.

Definition digit_val (c : Z) : Z :=
  if c <? 58 then c - 48 else c - 87.

(** Digits of a non-negative integer, least significant first. *)
Fixpoint digits_le (fuel : nat) (radix n : Z) : list Z :=
  match fuel with
  | O => []
  | S f =>
      (n mod radix) ::
      (if n / radix =? 0 then [] else digits_le f radix (n / radix))
  end.

Definition value_le (radix : Z) (ds : list Z) : Z :=
  fold_right (fun d a => d + radix * a) 0 ds.

Definition nat_digits (radix n : Z) : jsstring :=
  map digit_char (rev (digits_le (S (Z.to_nat (Z.log2 n))) radix n)).

(** A [number] is a double.  [Int n] is the integer [n], for the integers
    that a double holds exactly and prints digit by digit: the safe
    integers, which include every reading of [Date.now()] (a time value is
    an integer of magnitude at most 8.64e15) and every 32-bit hash; [-0]
    behaves like [Int 0] in this program.  Every other finite double (a
    fraction, or a number from 2^53 on, such as [0.5] or [1e21]) is
    [Other print], where [print radix] is what [toString(radix)] returns
    for it: the standard leaves the digits for a radix other than 10 to the
    implementation. *)
Inductive number :=
| Int (n : Z)
| NaN
| Infinity (negative : bool)
| Other (print : Z -> jsstring).

(** [Number.isSafeInteger(n)]. *)
Definition is_safe_integer (n : Z) : bool := Z.abs n <=? 2 ^ 53 - 1.

(** [x.toString(radix)] for a number [x].  For [Int n] these are the exact
    digits of [n], which is what is printed for a safe integer; an integer
    from 2^53 on is not printed that way ([1e21] gives [1e+21] in radix 10)
    and is an [Other], see [number_1e21] below. *)
Definition toString (radix : Z) (x : number) : jsstring :=
  match x with
  | Int n => if n <? 0 then lit "-" ++ nat_digits radix (- n) else nat_digits radix n
  | NaN => lit "NaN"
  | Infinity negative => if negative then lit "-Infinity" else lit "Infinity"
  | Other print => print radix
  end.

(** *** [JSON.stringify] *)

Definition hex4 (c : Z) : jsstring :=
  [digit_char (c / 4096 mod 16); digit_char (c / 256 mod 16);
   digit_char (c / 16 mod 16); digit_char (c mod 16)].

Definition unicode_escape (c : Z) : jsstring := lit "\u" ++ hex4 c.

Definition is_high_surrogate (c : Z) : bool := (55296 <=? c) && (c <=? 56319).
Definition is_low_surrogate (c : Z) : bool := (56320 <=? c) && (c <=? 57343).

Definition escape_unit (c : Z) : jsstring :=
  if c =? 8 then lit "\b"
  else if c =? 9 then lit "\t"
  else if c =? 10 then lit "\n"
  else if c =? 12 then lit "\f"
  else if c =? 13 then lit "\r"
  else if c =? 34 then [92; 34]
  else if c =? 92 then [92; 92]
  else if c <? 32 then unicode_escape c
  else [c].

(** The body of [QuoteJSONString]: surrogate pairs are kept, lone surrogates
    are escaped. *)
Fixpoint quote_units (s : jsstring) : jsstring :=
  match s with
  | [] => []
  | c :: rest =>
      if is_high_surrogate c then
        match rest with
        | d :: rest' =>
            if is_low_surrogate d then c :: d :: quote_units rest'
            else unicode_escape c ++ quote_units rest
        | [] => unicode_escape c
        end
      else if is_low_surrogate c then unicode_escape c ++ quote_units rest
      else escape_unit c ++ quote_units rest
  end.

Definition quote (s : jsstring) : jsstring := [34] ++ quote_units s ++ [34].

Fixpoint join (sep : jsstring) (parts : list jsstring) : jsstring :=
  match parts with
  | [] => []
  | [p] => p
  | p :: ps => p ++ sep ++ join sep ps
  end.

(** Property values occurring in a connection configuration: [string],
    [number], [string[]], [Record<string, string>] and [undefined]. *)
Inductive jsval :=
| JStr (s : jsstring)
| JNum (x : number)
| JArr (l : list jsstring)
| JRec (kv : list (jsstring * jsstring))
| JUndef.

(** An object is the sequence of its own enumerable properties in
    enumeration order, the order [JSON.stringify] visits them in. *)
Definition jsobject := list (jsstring * jsval).

Definition stringify_val (v : jsval) : option jsstring :=
  match v with
  | JStr s => Some (quote s)
  | JNum x =>
      Some match x with
           | NaN | Infinity _ => lit "null"
           | _ => toString 10 x
           end
  | JArr l => Some (lit "[" ++ join (lit ",") (map quote l) ++ lit "]")
  | JRec kv =>
      Some (lit "{" ++
            join (lit ",") (map (fun p => quote (fst p) ++ lit ":" ++ quote (snd p)) kv)
            ++ lit "}")
  | JUndef => None
  end.

Fixpoint stringify_props (o : jsobject) : list jsstring :=
  match o with
  | [] => []
  | (k, v) :: rest =>
      match stringify_val v with
      | Some s => (quote k ++ lit ":" ++ s) :: stringify_props rest
      | None => stringify_props rest
      end
  end.

Definition JSON_stringify (o : jsobject) : jsstring :=
  lit "{" ++ join (lit ",") (stringify_props o) ++ lit "}".

Definition jsstring_eqb (a b : jsstring) : bool :=
  if list_eq_dec Z.eq_dec a b then true else false.

(** [o.k]: the value of property [k], [None] when there is none. *)
Fixpoint get_prop (k : jsstring) (o : jsobject) : option jsval :=
  match o with
  | [] => None
  | (k', v) :: rest => if jsstring_eqb k k' then Some v else get_prop k rest
  end.

(** [{...o, k: v}]: an existing property keeps its position, a new one is
    added last. *)
Fixpoint set_prop (k : jsstring) (v : jsval) (o : jsobject) : jsobject :=
  match o with
  | [] => [(k, v)]
  | (k', v') :: rest =>
      if jsstring_eqb k k' then (k', v) :: rest else (k', v') :: set_prop k v rest
  end.

(** [!!v]. *)
Definition truthy (v : jsval) : bool :=
  match v with
  | JStr s => match s with [] => false | _ :: _ => true end
  | JNum (Int n) => negb (n =? 0)
  | JNum NaN => false
  | JNum (Infinity _) | JNum (Other _) => true
  | JArr _ | JRec _ => true
  | JUndef => false
  end.

(** How an expression completes: with a value, or by throwing a
    [TypeError], the only exception that computing a session id can
    raise. *)
Inductive completion (A : Type) :=
| Normal (a : A)
| TypeError.
Arguments Normal {A} a.
Arguments TypeError {A}.

(** The record has an own property [k]. *)
Definition has_own (k : jsstring) (kv : list (jsstring * jsstring)) : bool :=
  existsb (fun p => jsstring_eqb k (fst p)) kv.

(** The string a template literal inserts for [v].  A record whose own
    [toString] is a string has no callable [toString], and its [valueOf]
    returns the record: a [TypeError]. *)
Definition ToString (v : jsval) : completion jsstring :=
  match v with
  | JStr s => Normal s
  | JNum x => Normal (toString 10 x)
  | JArr l => Normal (join (lit ",") l)
  | JRec kv =>
      if has_own (lit "toString") kv then TypeError
      else Normal (lit "[object Object]")
  | JUndef => Normal (lit "undefined")
  end.

(** [v.toString(radix)]: the method of [String.prototype],
    [Number.prototype], [Array.prototype] or [Object.prototype]; only that
    of numbers looks at the radix. *)
Definition call_toString (radix : Z) (v : jsval) : completion jsstring :=
  match v with
  | JStr s => Normal s
  | JNum x => Normal (toString radix x)
  | JArr l => Normal (join (lit ",") l)
  | JRec kv =>
      if has_own (lit "toString") kv then TypeError
      else Normal (lit "[object Object]")
  | JUndef => TypeError
  end.

End JS.

(* ================================================================== *)
(** ** Session identifiers                                             *)
(* ================================================================== *)

Module SessionId.
Import JS.

(** The loop shared by both versions of [generateSessionId]:
    [hash = ((hash << 5) - hash) + char; hash = hash & hash]. *)
Definition hash_step (hash char : Z) : Z :=
  let hash := (js_shl hash 5 - hash) + char in
  js_and hash hash.

Definition hash_string (s : jsstring) : Z := fold_left hash_step s 0.

(** [connectionConfig.timestamp]: [undefined] when there is no such
    property.  The property is declared [timestamp?: number]; the code does
    not check that. *)
Definition timestamp_of (connectionConfig : jsobject) : jsval :=
  match get_prop (lit "timestamp") connectionConfig with
  | Some v => v
  | None => JUndef
  end.

(** [src/nodes/McpClient/McpSessionManager.ts], lines 47-65. *)
Module V1.

Definition generateSessionId (connectionConfig : jsobject) : jsstring :=
  let configStr := JSON_stringify connectionConfig in
  let hash := hash_string configStr in
  lit "mcp_session_" ++ toString 36 (Int (Z.abs hash)).

End V1.

(** [src/unnamed/part_000], lines 47-68 and 193-199.  [now] is the reading
    of [Date.now()]. *)
Module V2.

(** [connectionConfig.timestamp || Date.now()]. *)
Definition effective_timestamp (now : Z) (connectionConfig : jsobject) : jsval :=
  let timestamp := timestamp_of connectionConfig in
  if truthy timestamp then timestamp else JNum (Int now).

Definition generateSessionId (now : Z) (connectionConfig : jsobject)
  : completion jsstring :=
  let configStr := JSON_stringify connectionConfig in
  let timestamp := effective_timestamp now connectionConfig in
  match ToString timestamp with
  | TypeError => TypeError
  | Normal inserted =>
      let combined := configStr ++ lit "_" ++ inserted in
      let hash := hash_string combined in
      match call_toString 36 timestamp with
      | TypeError => TypeError
      | Normal suffix =>
          Normal (lit "mcp_session_" ++ toString 36 (Int (Z.abs hash))
                  ++ lit "_" ++ suffix)
      end
  end.

Definition createNewSession (now : Z) (connectionConfig : jsobject)
  : completion jsstring :=
  let newConfig := set_prop (lit "timestamp") (JNum (Int now)) connectionConfig in
  generateSessionId now newConfig.

End V2.

(** [{...connectionConfig, timestamp: x}]. *)
Definition timestamp_key : jsstring := lit "timestamp".

Definition with_timestamp (x : number) (cfg : jsobject) : jsobject :=
  set_prop timestamp_key (JNum x) cfg.

(** The properties that [JSON.stringify] does not skip. *)
Definition is_defined (kv : jsstring * jsval) : bool :=
  match snd kv with JUndef => false | _ => true end.

Definition defined_properties (cfg : jsobject) : jsobject := filter is_defined cfg.

(** The characters of a number in base 36: [0-9] and [a-z]. *)
Definition is_base36 (c : Z) : Prop := 48 <= c <= 57 \/ 97 <= c <= 122.

(** Sample configurations. *)
Definition stdio_config : jsobject :=
  [(lit "connectionType", JStr (lit "stdio"));
   (lit "command", JStr (lit "server"));
   (lit "args", JArr [lit "--flag"])].

Definition colliding_config : jsobject :=
  [(lit "connectionType", JStr (lit "aahgagbq"))].

(** The double [1e21], by what [toString] prints for it in radix 10 and,
    on V8, in radix 36. *)
Definition number_1e21 : number :=
  Other (fun radix => if radix =? 10 then lit "1e+21" else lit "5v1j4f4ds7c000").

Definition nan_colliding_config : jsobject :=
  [(lit "connectionType", JStr (lit "aabdkakr"))].

End SessionId.


(* ================================================================== *)
(** ** The session manager: objects, world and environment             *)
(* ================================================================== *)

Module Session.
Import JS.

(** Object identities. *)
Definition ref := nat.          (* a [McpSessionManager] instance *)
Definition clientId := nat.     (* a [Client] built by [new Client(...)] *)
Definition transportId := nat.  (* a [Transport] handed to [connect] *)
Definition timerId := nat.      (* a [NodeJS.Timeout] *)
Definition promiseId := nat.    (* a promise returned by [doConnect] *)

Inductive error := Error (message : jsstring).

Definition message (e : error) : jsstring := let 'Error m := e in m.

(** The two source files differ in [connect] (liveness probe or not), in
    [getClient] and in the [onerror] handler. *)
Inductive version :=
| V1   (* src/nodes/McpClient/McpSessionManager.ts *)
| V2.  (* src/unnamed/part_000 *)

(** Instance fields of [McpSessionManager]. *)
Record McpSessionManager := {
  client : option clientId;
  transport : option transportId;
  isConnected : bool;
  connectionPromise : option promiseId;
  lastUsed : Z;
  sessionId : jsstring;
  cleanupTimer : option timerId;
}.

Definition set_client (v : option clientId) (m : McpSessionManager) :=
  {| client := v; transport := transport m; isConnected := isConnected m;
     connectionPromise := connectionPromise m; lastUsed := lastUsed m;
     sessionId := sessionId m; cleanupTimer := cleanupTimer m |}.
Definition set_transport (v : option transportId) (m : McpSessionManager) :=
  {| client := client m; transport := v; isConnected := isConnected m;
     connectionPromise := connectionPromise m; lastUsed := lastUsed m;
     sessionId := sessionId m; cleanupTimer := cleanupTimer m |}.
Definition set_isConnected (v : bool) (m : McpSessionManager) :=
  {| client := client m; transport := transport m; isConnected := v;
     connectionPromise := connectionPromise m; lastUsed := lastUsed m;
     sessionId := sessionId m; cleanupTimer := cleanupTimer m |}.
Definition set_connectionPromise (v : option promiseId) (m : McpSessionManager) :=
  {| client := client m; transport := transport m; isConnected := isConnected m;
     connectionPromise := v; lastUsed := lastUsed m;
     sessionId := sessionId m; cleanupTimer := cleanupTimer m |}.
Definition set_lastUsed (v : Z) (m : McpSessionManager) :=
  {| client := client m; transport := transport m; isConnected := isConnected m;
     connectionPromise := connectionPromise m; lastUsed := v;
     sessionId := sessionId m; cleanupTimer := cleanupTimer m |}.
Definition set_cleanupTimer (v : option timerId) (m : McpSessionManager) :=
  {| client := client m; transport := transport m; isConnected := isConnected m;
     connectionPromise := connectionPromise m; lastUsed := lastUsed m;
     sessionId := sessionId m; cleanupTimer := v |}.

(** State of a promise. *)
Inductive promise_state :=
| Pending
| Fulfilled
| Rejected (e : error).

(** What the program does to its collaborators and to the console. *)
Inductive event :=
| NewClient (c : clientId)                       (* [new Client(...)] *)
| ClientConnect (c : clientId) (t : transportId) (* [client.connect(transport)] *)
| ListTools (c : clientId)                       (* [client.listTools()] *)
| TransportClose (t : transportId)               (* [transport.close()] *)
| SetTimeout (id : timerId)
| ClearTimeout (id : timerId)
| CleanupCalled (this : nat)                     (* entry of [cleanup()] *)
| InstancesDelete (sid : jsstring)               (* [instances.delete(sid)] *)
| InstancesClear                                 (* [instances.clear()] *)
| ConsoleLog (msg : jsstring)
| ConsoleError (msg : jsstring) (e : option error).

(** The heap of [McpSessionManager] objects, the static [instances] map (in
    insertion order), the clock, the pending timeouts (each one runs
    [checkAndCleanupExpiredSessions] on the object that armed it), the
    [onerror] handler installed on each transport, the promises made by
    [doConnect], and the trace of events so far (latest first). *)
Record world := {
  heap : ref -> McpSessionManager;
  nextRef : ref;
  instances : list (jsstring * ref);
  clock : Z;
  timers : list (timerId * ref);
  nextTimer : timerId;
  nextClient : clientId;
  onerror : transportId -> option ref;
  promises : promiseId -> promise_state;
  nextPromise : promiseId;
  trace : list event;
}.

Definition with_heap (v : ref -> McpSessionManager) (w : world) :=
  {| heap := v; nextRef := nextRef w; instances := instances w; clock := clock w;
     timers := timers w; nextTimer := nextTimer w; nextClient := nextClient w;
     onerror := onerror w; promises := promises w; nextPromise := nextPromise w;
     trace := trace w |}.
Definition with_nextRef (v : ref) (w : world) :=
  {| heap := heap w; nextRef := v; instances := instances w; clock := clock w;
     timers := timers w; nextTimer := nextTimer w; nextClient := nextClient w;
     onerror := onerror w; promises := promises w; nextPromise := nextPromise w;
     trace := trace w |}.
Definition with_instances (v : list (jsstring * ref)) (w : world) :=
  {| heap := heap w; nextRef := nextRef w; instances := v; clock := clock w;
     timers := timers w; nextTimer := nextTimer w; nextClient := nextClient w;
     onerror := onerror w; promises := promises w; nextPromise := nextPromise w;
     trace := trace w |}.
Definition with_clock (v : Z) (w : world) :=
  {| heap := heap w; nextRef := nextRef w; instances := instances w; clock := v;
     timers := timers w; nextTimer := nextTimer w; nextClient := nextClient w;
     onerror := onerror w; promises := promises w; nextPromise := nextPromise w;
     trace := trace w |}.
Definition with_timers (v : list (timerId * ref)) (w : world) :=
  {| heap := heap w; nextRef := nextRef w; instances := instances w; clock := clock w;
     timers := v; nextTimer := nextTimer w; nextClient := nextClient w;
     onerror := onerror w; promises := promises w; nextPromise := nextPromise w;
     trace := trace w |}.
Definition with_nextTimer (v : timerId) (w : world) :=
  {| heap := heap w; nextRef := nextRef w; instances := instances w; clock := clock w;
     timers := timers w; nextTimer := v; nextClient := nextClient w;
     onerror := onerror w; promises := promises w; nextPromise := nextPromise w;
     trace := trace w |}.
Definition with_nextClient (v : clientId) (w : world) :=
  {| heap := heap w; nextRef := nextRef w; instances := instances w; clock := clock w;
     timers := timers w; nextTimer := nextTimer w; nextClient := v;
     onerror := onerror w; promises := promises w; nextPromise := nextPromise w;
     trace := trace w |}.
Definition with_onerror (v : transportId -> option ref) (w : world) :=
  {| heap := heap w; nextRef := nextRef w; instances := instances w; clock := clock w;
     timers := timers w; nextTimer := nextTimer w; nextClient := nextClient w;
     onerror := v; promises := promises w; nextPromise := nextPromise w;
     trace := trace w |}.
Definition with_promises (v : promiseId -> promise_state) (w : world) :=
  {| heap := heap w; nextRef := nextRef w; instances := instances w; clock := clock w;
     timers := timers w; nextTimer := nextTimer w; nextClient := nextClient w;
     onerror := onerror w; promises := v; nextPromise := nextPromise w;
     trace := trace w |}.
Definition with_nextPromise (v : promiseId) (w : world) :=
  {| heap := heap w; nextRef := nextRef w; instances := instances w; clock := clock w;
     timers := timers w; nextTimer := nextTimer w; nextClient := nextClient w;
     onerror := onerror w; promises := promises w; nextPromise := v;
     trace := trace w |}.
Definition with_trace (v : list event) (w : world) :=
  {| heap := heap w; nextRef := nextRef w; instances := instances w; clock := clock w;
     timers := timers w; nextTimer := nextTimer w; nextClient := nextClient w;
     onerror := onerror w; promises := promises w; nextPromise := nextPromise w;
     trace := v |}.

(** Pointwise update of a total map on [nat]. *)
Definition upd {A : Type} (k : nat) (v : A) (f : nat -> A) : nat -> A :=
  fun k' => if Nat.eqb k' k then v else f k'.

(** [this.field = ...]. *)
Definition modify (this : ref) (f : McpSessionManager -> McpSessionManager)
    (w : world) : world :=
  with_heap (upd this (f (heap w this)) (heap w)) w.

Definition emit (e : event) (w : world) : world := with_trace (e :: trace w) w.

(** The outcomes of the collaborators' asynchronous operations
    ([None]: fulfilled, [Some e]: rejected with [e]). *)
Record environment := {
  connect_result : clientId -> transportId -> option error;
  listTools_result : clientId -> option error;
  close_result : transportId -> option error;
}.

(** How a call ends: it returns, it throws (an [async] function rejects), or
    it never settles. *)
Inductive outcome (A : Type) :=
| Returned (a : A)
| Thrown (e : error)
| Unsettled.
Arguments Returned {A} a.
Arguments Thrown {A} e.
Arguments Unsettled {A}.

End Session.

(* ================================================================== *)
(** ** The methods of [McpSessionManager]                              *)
(* ================================================================== *)

(** Each method is written as in the source; line numbers are those of
    [src/unnamed/part_000].  [McpSessionManager.ts] has the same [cleanup],
    [doConnect] (but for the [onerror] handler), timer, sweep and shutdown;
    its [connect] and [getClient] are the [V1] cases below. *)

Module Manager.
Import JS Session.

(** *** Calls that may throw *)

Definition M (A : Type) : Type := world -> outcome A * world.

Definition ret {A} (a : A) : M A := fun w => (Returned a, w).
Definition throw {A} (e : error) : M A := fun w => (Thrown e, w).

Definition bind {A B} (m : M A) (k : A -> M B) : M B :=
  fun w =>
    match m w with
    | (Returned a, w') => k a w'
    | (Thrown e, w') => (Thrown e, w')
    | (Unsettled, w') => (Unsettled, w')
    end.

(** [try { body } catch (error) { handler }]. *)
Definition try_catch {A} (body : M A) (handler : error -> M A) : M A :=
  fun w =>
    match body w with
    | (Thrown e, w') => handler e w'
    | r => r
    end.

Notation "x <- m ;; k" := (bind m (fun x => k))
  (at level 61, m at next level, right associativity).
Notation "m ;; k" := (bind m (fun _ => k))
  (at level 61, right associativity).

Definition get {A} (f : world -> A) : M A := fun w => (Returned (f w), w).
Definition act (f : world -> world) : M unit := fun w => (Returned tt, f w).

(** [await] on a collaborator's promise that settles as [r]. *)
Definition await (r : option error) : M unit :=
  match r with
  | None => ret tt
  | Some e => throw e
  end.

(** [await] on a promise of [doConnect]. *)
Definition await_promise (p : promiseId) : M unit :=
  fun w =>
    match promises w p with
    | Fulfilled => (Returned tt, w)
    | Rejected e => (Thrown e, w)
    | Pending => (Unsettled, w)
    end.

(** *** Constants *)

Definition SESSION_TIMEOUT : Z := 30 * 60 * 1000.
Definition CLEANUP_INTERVAL : Z := 5 * 60 * 1000.

(** *** The [instances] map *)

Fixpoint Map_get (k : jsstring) (m : list (jsstring * ref)) : option ref :=
  match m with
  | [] => None
  | (k', v) :: rest => if jsstring_eqb k k' then Some v else Map_get k rest
  end.

Definition Map_has (k : jsstring) (m : list (jsstring * ref)) : bool :=
  match Map_get k m with Some _ => true | None => false end.

Fixpoint Map_set (k : jsstring) (v : ref) (m : list (jsstring * ref)) :=
  match m with
  | [] => [(k, v)]
  | (k', v') :: rest =>
      if jsstring_eqb k k' then (k', v) :: rest else (k', v') :: Map_set k v rest
  end.

Definition Map_delete (k : jsstring) (m : list (jsstring * ref)) :=
  filter (fun kv => negb (jsstring_eqb k (fst kv))) m.

(** *** Timer, constructor, [getInstance] *)

Fixpoint remove_timer (id : timerId) (l : list (timerId * ref)) :=
  match l with
  | [] => []
  | (id', r) :: rest =>
      if Nat.eqb id id' then remove_timer id rest else (id', r) :: remove_timer id rest
  end.

(** [startCleanupTimer], lines 227-231. *)
Definition startCleanupTimer (this : ref) (w : world) : world :=
  let id := nextTimer w in
  let w := with_nextTimer (S id) w in
  let w := with_timers ((id, this) :: timers w) w in
  let w := emit (SetTimeout id) w in
  modify this (set_cleanupTimer (Some id)) w.

(** The field initialisers and the constructor, lines 10-26. *)
Definition new_McpSessionManager (sid : jsstring) (w : world) : ref * world :=
  let this := nextRef w in
  let w := with_nextRef (S this) w in
  let w := with_heap
             (upd this {| client := None; transport := None; isConnected := false;
                          connectionPromise := None; lastUsed := clock w;
                          sessionId := sid; cleanupTimer := None |} (heap w)) w in
  (this, startCleanupTimer this w).

(** [getInstance], lines 33-40. *)
Definition getInstance (sid : jsstring) (w : world) : ref * world :=
  let w :=
    if negb (Map_has sid (instances w)) then
      let '(r, w) := new_McpSessionManager sid w in
      with_instances (Map_set sid r (instances w)) w
    else w in
  match Map_get sid (instances w) with
  | Some instance => (instance, modify instance (set_lastUsed (clock w)) w)
  | None => (nextRef w, w)
  end.

(** *** [cleanup], lines 204-222 *)

Definition msg_close_error (sid : jsstring) : jsstring :=
  lit "Error closing transport for session " ++ sid ++ lit ":".
Arguments msg_close_error : simpl never.
Definition msg_cleaned_up (sid : jsstring) : jsstring :=
  lit "MCP session " ++ sid ++ lit " cleaned up".
Arguments msg_cleaned_up : simpl never.

(** Lines 205-208. *)
Definition clear_cleanupTimer (this : ref) (w : world) : world :=
  match cleanupTimer (heap w this) with
  | Some id =>
      let w := emit (ClearTimeout id) (with_timers (remove_timer id (timers w)) w) in
      modify this (set_cleanupTimer None) w
  | None => w
  end.

(** Lines 219-221. *)
Definition cleanup_finish (this : ref) (w : world) : world :=
  let w := modify this (set_client None) w in
  let w := modify this (set_isConnected false) w in
  emit (ConsoleLog (msg_cleaned_up (sessionId (heap w this)))) w.

Definition cleanup (env : environment) (this : ref) : M unit :=
  act (emit (CleanupCalled this)) ;;
  act (clear_cleanupTimer this) ;;
  tr <- get (fun w => transport (heap w this)) ;;
  match tr with
  | Some t =>
      try_catch
        (act (emit (TransportClose t)) ;; await (close_result env t))
        (fun error =>
           sid <- get (fun w => sessionId (heap w this)) ;;
           act (emit (ConsoleError (msg_close_error sid) (Some error)))) ;;
      act (modify this (set_transport None))
  | None => ret tt
  end ;;
  act (cleanup_finish this).

(** The same method cut at its [await]: [cleanup_begin] runs up to
    [transport.close()] and yields the transport whose close is awaited, if
    any; [cleanup_resume] is the rest, run when that close has settled. *)
Definition cleanup_begin (this : ref) (w : world) : option transportId * world :=
  let w := emit (CleanupCalled this) w in
  let w := clear_cleanupTimer this w in
  match transport (heap w this) with
  | Some t => (Some t, emit (TransportClose t) w)
  | None => (None, cleanup_finish this w)
  end.

Definition cleanup_resume (this : ref) (r : option error) : M unit :=
  try_catch
    (await r)
    (fun error =>
       sid <- get (fun w => sessionId (heap w this)) ;;
       act (emit (ConsoleError (msg_close_error sid) (Some error)))) ;;
  act (modify this (set_transport None)) ;;
  act (cleanup_finish this).


(** *** [doConnect], lines 112-151 *)

Definition msg_connected (sid : jsstring) : jsstring :=
  lit "MCP session " ++ sid ++ lit " connected successfully".
Arguments msg_connected : simpl never.
Definition msg_connect_failed (sid : jsstring) (error : error) : jsstring :=
  lit "Failed to connect MCP session " ++ sid ++ lit ": " ++ message error.
Arguments msg_connect_failed : simpl never.
Definition msg_transport_error (sid : jsstring) : jsstring :=
  lit "MCP Transport error for session " ++ sid ++ lit ":".
Arguments msg_transport_error : simpl never.

(** [new Client(...)], lines 118-130. *)
Definition new_Client : M clientId :=
  fun w =>
    let c := nextClient w in
    (Returned c, emit (NewClient c) (with_nextClient (S c) w)).

(** [transport.onerror = (error) => {...}], lines 132-137. *)
Definition install_onerror (this : ref) (t : transportId) (w : world) : world :=
  with_onerror (upd t (Some this) (onerror w)) w.

(** Lines 118-140 up to the [await]: yields the client whose
    [connect(transport)] is awaited. *)
Definition doConnect_handshake (this : ref) (t : transportId) : M clientId :=
  c <- new_Client ;;
  act (modify this (set_client (Some c))) ;;
  act (install_onerror this t) ;;
  act (emit (ClientConnect c t)) ;;
  ret c.

(** Lines 141-144. *)
Definition doConnect_connected (this : ref) (t : transportId) : M unit :=
  act (modify this (set_transport (Some t))) ;;
  act (modify this (set_isConnected true)) ;;
  sid <- get (fun w => sessionId (heap w this)) ;;
  act (emit (ConsoleLog (msg_connected sid))).

(** The [catch] clause, lines 145-150. *)
Definition doConnect_catch (this : ref) (error : error) : M unit :=
  act (modify this (set_isConnected false)) ;;
  act (modify this (set_client None)) ;;
  act (modify this (set_transport None)) ;;
  sid <- get (fun w => sessionId (heap w this)) ;;
  throw (Error (msg_connect_failed sid error)).

Definition doConnect (env : environment) (this : ref) (t : transportId) : M unit :=
  try_catch
    (cleanup env this ;;
     c <- doConnect_handshake this t ;;
     await (connect_result env c t) ;;
     doConnect_connected this t)
    (doConnect_catch this).

(** The body of the [onerror] handler: lines 132-137 of [part_000], lines
    126-130 of [McpSessionManager.ts]. *)
Definition transport_onerror (ver : version) (t : transportId) (error : error)
    (w : world) : world :=
  match onerror w t with
  | Some this =>
      let w := emit (ConsoleError (msg_transport_error (sessionId (heap w this)))
                       (Some error)) w in
      let w := modify this (set_isConnected false) w in
      match ver with
      | V1 => w
      | V2 => modify this (set_transport None) (modify this (set_client None) w)
      end
  | None => w
  end.

(** *** [validateConnection], lines 181-191 of [part_000] *)

Definition msg_validation_failed (error : error) : jsstring :=
  lit "Connection validation failed: " ++ message error.
Arguments msg_validation_failed : simpl never.

Definition validateConnection (env : environment) (this : ref) : M unit :=
  c <- get (fun w => client (heap w this)) ;;
  tr <- get (fun w => transport (heap w this)) ;;
  match c, tr with
  | Some c, Some _ =>
      try_catch
        (act (emit (ListTools c)) ;; await (listTools_result env c))
        (fun error => throw (Error (msg_validation_failed error)))
  | _, _ => throw (Error (lit "No client or transport available"))
  end.

(** *** [connect] *)

(** [this.isConnected && this.client]; also [isSessionConnected()]. *)
Definition isSessionConnected (this : ref) (w : world) : bool :=
  isConnected (heap w this) &&
  match client (heap w this) with Some _ => true | None => false end.

(** [this.lastUsed = Date.now()]. *)
Definition touch (this : ref) : M unit :=
  act (fun w => modify this (set_lastUsed (clock w)) w).

Definition msg_reconnecting (sid : jsstring) : jsstring :=
  lit "Session " ++ sid ++ lit " connection validation failed, reconnecting...".
Arguments msg_reconnecting : simpl never.

(** The first [if] of [connect]: lines 76-86 of [part_000], lines 74-77 of
    [McpSessionManager.ts].  [Some v] stands for [return v], [None] for
    falling through to the next statement. *)
Definition connect_cached (ver : version) (env : environment) (this : ref)
  : M (option (option clientId)) :=
  b <- get (isSessionConnected this) ;;
  if b then
    match ver with
    | V1 =>
        touch this ;;
        c <- get (fun w => client (heap w this)) ;;
        ret (Some c)
    | V2 =>
        try_catch
          (validateConnection env this ;;
           touch this ;;
           c <- get (fun w => client (heap w this)) ;;
           ret (Some c))
          (fun error =>
             sid <- get (fun w => sessionId (heap w this)) ;;
             act (emit (ConsoleLog (msg_reconnecting sid))) ;;
             act (modify this (set_isConnected false)) ;;
             act (modify this (set_client None)) ;;
             ret None)
    end
  else ret None.

(** What follows [await this.connectionPromise], lines 90-93. *)
Definition connect_recheck (this : ref) : M (option (option clientId)) :=
  b <- get (isSessionConnected this) ;;
  if b then
    touch this ;;
    c <- get (fun w => client (heap w this)) ;;
    ret (Some c)
  else ret None.

(** The second [if], lines 88-94. *)
Definition connect_shared (this : ref) : M (option (option clientId)) :=
  p <- get (fun w => connectionPromise (heap w this)) ;;
  match p with
  | Some p => await_promise p ;; connect_recheck this
  | None => ret None
  end.

(** Calling the [async] method [doConnect] yields its promise. *)
Definition new_promise (st : promise_state) : M promiseId :=
  fun w =>
    let p := nextPromise w in
    (Returned p, with_promises (upd p st (promises w)) (with_nextPromise (S p) w)).

Definition call_doConnect (env : environment) (this : ref) (t : transportId)
  : M promiseId :=
  fun w =>
    let '(r, w) := doConnect env this t w in
    new_promise
      match r with
      | Returned _ => Fulfilled
      | Thrown e => Rejected e
      | Unsettled => Pending
      end w.

(** What follows [await this.connectionPromise], lines 98-105. *)
Definition connect_finish (this : ref) : M (option clientId) :=
  act (modify this (set_connectionPromise None)) ;;
  c <- get (fun w => client (heap w this)) ;;
  match c with
  | None => throw (Error (lit "Failed to establish MCP connection"))
  | Some _ =>
      touch this ;;
      get (fun w => client (heap w this))
  end.

(** Lines 96-105. *)
Definition connect_fresh (env : environment) (this : ref) (t : transportId)
  : M (option clientId) :=
  p <- call_doConnect env this t ;;
  act (modify this (set_connectionPromise (Some p))) ;;
  await_promise p ;;
  connect_finish this.

Definition connect (ver : version) (env : environment) (this : ref)
    (t : transportId) : M (option clientId) :=
  r <- connect_cached ver env this ;;
  match r with
  | Some v => ret v
  | None =>
      r <- connect_shared this ;;
      match r with
      | Some v => ret v
      | None => connect_fresh env this t
      end
  end.

(** *** [getClient], [getClientSync] *)

Definition msg_getClient_failed (sid : jsstring) : jsstring :=
  lit "Session " ++ sid ++ lit " validation failed during getClient".
Arguments msg_getClient_failed : simpl never.

(** [getClientSync] of [part_000], lines 169-175; it is [getClient] of
    [McpSessionManager.ts], lines 150-156. *)
Definition getClientSync (this : ref) : M (option clientId) :=
  b <- get (isSessionConnected this) ;;
  if b then
    touch this ;;
    get (fun w => client (heap w this))
  else ret None.

(** [getClient] of [part_000], lines 153-167. *)
Definition getClient (env : environment) (this : ref) : M (option clientId) :=
  b <- get (isSessionConnected this) ;;
  if b then
    try_catch
      (validateConnection env this ;;
       touch this ;;
       get (fun w => client (heap w this)))
      (fun error =>
         sid <- get (fun w => sessionId (heap w this)) ;;
         act (emit (ConsoleLog (msg_getClient_failed sid))) ;;
         act (modify this (set_isConnected false)) ;;
         act (modify this (set_client None)) ;;
         ret None)
  else ret None.

End Manager.

(* ================================================================== *)
(** ** Idle sweep and bulk shutdown                                    *)
(* ================================================================== *)

Module Registry.
Import JS Session Manager.

Definition msg_expired_removed (sid : jsstring) : jsstring :=
  lit "Expired MCP session " ++ sid ++ lit " removed".
Arguments msg_expired_removed : simpl never.
Definition msg_expired_cleanup_error (sid : jsstring) : jsstring :=
  lit "Error cleaning up expired session " ++ sid ++ lit ":".
Arguments msg_expired_cleanup_error : simpl never.

(** [now - instance.lastUsed > SESSION_TIMEOUT]. *)
Definition is_expired (now : Z) (w : world) (kv : jsstring * ref) : bool :=
  now - lastUsed (heap w (snd kv)) >? SESSION_TIMEOUT.

(** A [cleanup()] that has been called and whose [transport.close()] has not
    settled yet. *)
Record pending_cleanup := {
  pc_sessionId : jsstring;
  pc_instance : ref;
  pc_transport : transportId;
}.

(** The body of the second loop of [checkAndCleanupExpiredSessions] for one
    id, lines 248-255.  [instance.cleanup()] runs up to its [await]; the
    sweep does not wait for it. *)
Definition sweep_one (acc : list pending_cleanup * world) (sid : jsstring)
  : list pending_cleanup * world :=
  let '(pending, w) := acc in
  match Map_get sid (instances w) with
  | Some instance =>
      let '(tr, w) := cleanup_begin instance w in
      let pending :=
        match tr with
        | Some t => pending ++ [{| pc_sessionId := sid; pc_instance := instance;
                                   pc_transport := t |}]
        | None => pending
        end in
      let w := with_instances (Map_delete sid (instances w)) w in
      let w := emit (InstancesDelete sid) w in
      let w := emit (ConsoleLog (msg_expired_removed sid)) w in
      (pending, w)
  | None => acc
  end.

(** [checkAndCleanupExpiredSessions], lines 236-262, a synchronous method:
    it returns with the cleanups of the removed sessions still pending. *)
Definition checkAndCleanupExpiredSessions (this : ref) (w : world)
  : list pending_cleanup * world :=
  let now := clock w in
  let expiredSessions := map fst (filter (is_expired now w) (instances w)) in
  let '(pending, w) := fold_left sweep_one expiredSessions ([], w) in
  let w :=
    if (0 <? Z.of_nat (List.length (instances w))) then startCleanupTimer this w
    else w in
  (pending, w).

(** The rest of a pending [instance.cleanup().catch(...)], run when the
    close has settled. *)
Definition settle_cleanup (env : environment) (p : pending_cleanup) : M unit :=
  try_catch
    (cleanup_resume (pc_instance p) (close_result env (pc_transport p)))
    (fun error =>
       act (emit (ConsoleError (msg_expired_cleanup_error (pc_sessionId p))
                    (Some error)))).

(** Runs the calls of a list one after the other, whatever their outcomes,
    and collects the outcomes. *)
Fixpoint run_each (ks : list (M unit)) (w : world) : list (outcome unit) * world :=
  match ks with
  | [] => ([], w)
  | k :: ks =>
      let '(r, w) := k w in
      let '(rs, w) := run_each ks w in
      (r :: rs, w)
  end.

(** The callback of the timeout armed by [startCleanupTimer]. *)
Definition fire_timer (id : timerId) (w : world) : list pending_cleanup * world :=
  match find (fun tr => Nat.eqb (fst tr) id) (timers w) with
  | Some (_, this) =>
      checkAndCleanupExpiredSessions this (with_timers (remove_timer id (timers w)) w)
  | None => ([], w)
  end.

(** A sweep followed by the settling of the cleanups it started. *)
Definition sweep (env : environment) (this : ref) (w : world)
  : list (outcome unit) * world :=
  let '(pending, w) := checkAndCleanupExpiredSessions this w in
  run_each (map (settle_cleanup env) pending) w.

(** [await Promise.all(promises)]: throws the first rejection. *)
Fixpoint Promise_all (rs : list (outcome unit)) : M unit :=
  match rs with
  | [] => ret tt
  | Returned _ :: rs => Promise_all rs
  | Thrown e :: _ => throw e
  | Unsettled :: rs =>
      fun w =>
        match Promise_all rs w with
        | (Returned _, w) => (Unsettled, w)
        | r => r
        end
  end.

(** The first loop of [cleanupAllSessions], lines 270-272: every
    [instance.cleanup()] runs up to its [await]. *)
Fixpoint begin_cleanups (l : list (jsstring * ref)) (w : world)
  : list (ref * option transportId) * world :=
  match l with
  | [] => ([], w)
  | (_, instance) :: rest =>
      let '(tr, w) := cleanup_begin instance w in
      let '(ps, w) := begin_cleanups rest w in
      ((instance, tr) :: ps, w)
  end.

(** The rest of one of those calls. *)
Definition resume_cleanup (env : environment) (p : ref * option transportId)
  : M unit :=
  match snd p with
  | Some t => cleanup_resume (fst p) (close_result env t)
  | None => ret tt
  end.

(** [cleanupAllSessions], lines 267-277. *)
Definition cleanupAllSessions (env : environment) : M unit :=
  fun w =>
    let '(cleanupPromises, w) := begin_cleanups (instances w) w in
    let '(rs, w) := run_each (map (resume_cleanup env) cleanupPromises) w in
    (Promise_all rs ;;
     act (with_instances []) ;;
     act (emit InstancesClear) ;;
     act (emit (ConsoleLog (lit "All MCP sessions cleaned up")))) w.

End Registry.

(* ================================================================== *)
(** ** Initial state and sample environments                           *)
(* ================================================================== *)

Module Samples.
Import JS Session Manager Registry.

Definition blank : McpSessionManager :=
  {| client := None; transport := None; isConnected := false;
     connectionPromise := None; lastUsed := 0; sessionId := [];
     cleanupTimer := None |}.

(** The world when the module has just been loaded, at time [now]. *)
Definition initial_world (now : Z) : world :=
  {| heap := fun _ => blank; nextRef := 0%nat; instances := []; clock := now;
     timers := []; nextTimer := 0%nat; nextClient := 0%nat;
     onerror := fun _ => None; promises := fun _ => Pending;
     nextPromise := 0%nat; trace := [] |}.

(** Time passes. *)
Definition tick (d : Z) (w : world) : world := with_clock (clock w + d) w.

(** Every collaborator call succeeds. *)
Definition healthy : environment :=
  {| connect_result := fun _ _ => None;
     listTools_result := fun _ => None;
     close_result := fun _ => None |}.

(** Every collaborator call fails. *)
Definition broken : environment :=
  {| connect_result := fun _ _ => Some (Error (lit "ECONNREFUSED"));
     listTools_result := fun _ => Some (Error (lit "Not connected"));
     close_result := fun _ => Some (Error (lit "close failed")) |}.

Definition sid_a : jsstring := lit "mcp_session_a".
Definition sid_b : jsstring := lit "mcp_session_b".

(** One session, connected over transport [7] at time [1000]. *)
Definition world_connected (ver : version) : world :=
  snd (connect ver healthy 0%nat 7%nat (snd (getInstance sid_a (initial_world 1000)))).

(** Two sessions: [sid_a] last used at time [1000], [sid_b] 25 minutes
    later; the clock reads 31 minutes and 40 seconds after the first use. *)
Definition world_two_sessions : world :=
  let '(_, w) := getInstance sid_a (initial_world 1000) in
  let w := tick 1500000 w in
  let '(_, w) := getInstance sid_b w in
  tick 400000 w.

End Samples.

(* ================================================================== *)
(** ** Calls of [connect] that overlap                                 *)
(* ================================================================== *)

(** An [async] method runs until its next [await] and continues later, when
    what it awaits has settled; in between, other calls run.  The state
    below records where every call of [connect] and every run of [doConnect]
    on one session is suspended; a step runs one of them from one [await] to
    the next. *)
Module Async.
Import JS Session Manager Registry.

(** Where a call of [connect] is suspended. *)
Inductive connect_pc :=
| AwaitValidate (probe : option clientId)
    (* [await this.validateConnection()]: the [listTools()] of this client
       is pending, or [validateConnection] has thrown already *)
| AwaitShared (p : promiseId)   (* the first [await this.connectionPromise] *)
| AwaitOwn (p : promiseId)      (* the second [await this.connectionPromise] *)
| Settled (r : outcome (option clientId)).

Record connect_call := {
  cc_transport : transportId;
  cc_pc : connect_pc;
}.

(** Where a run of [doConnect] is suspended. *)
Inductive doConnect_pc :=
| AwaitCleanup (closing : option transportId)
    (* [await this.cleanup()]: the [close()] of this transport is pending,
       or [cleanup] has finished already *)
| AwaitHandshake (c : clientId) (* [await this.client.connect(transport)] *)
| Finished.

Record doConnect_run := {
  dc_transport : transportId;
  dc_pc : doConnect_pc;
}.

Record state := {
  world_of : world;
  calls : nat -> option connect_call;       (* the calls of [connect], by caller *)
  runs : promiseId -> option doConnect_run; (* the runs of [doConnect], by promise *)
  cleanups : list transportId;
    (* calls of [cleanup()] from outside, by the close they await *)
}.

Definition with_world (w : world) (s : state) : state :=
  {| world_of := w; calls := calls s; runs := runs s; cleanups := cleanups s |}.
Definition with_call (i : nat) (c : connect_call) (s : state) : state :=
  {| world_of := world_of s; calls := upd i (Some c) (calls s); runs := runs s;
     cleanups := cleanups s |}.
Definition with_run (p : promiseId) (r : doConnect_run) (s : state) : state :=
  {| world_of := world_of s; calls := calls s; runs := upd p (Some r) (runs s);
     cleanups := cleanups s |}.
Definition with_cleanups (l : list transportId) (s : state) : state :=
  {| world_of := world_of s; calls := calls s; runs := runs s; cleanups := l |}.

Inductive label :=
| Call (i : nat) (t : transportId)
    (* caller [i] calls [connect(t)] *)
| ProbeSettles (i : nat) (r : option error)
    (* the [listTools()] of call [i] settles and the call continues *)
| Resume (i : nat)
    (* call [i] continues after its [await] *)
| CloseSettles (p : promiseId) (r : option error)
    (* the [close()] awaited by the [cleanup] of run [p] settles *)
| Continue (p : promiseId)
    (* run [p] continues after [await this.cleanup()] *)
| HandshakeSettles (p : promiseId) (r : option error)
    (* the [client.connect(transport)] of run [p] settles and the run ends *)
| TransportError (t : transportId) (e : error)
    (* [transport.onerror(e)] *)
| CallCleanup
    (* [cleanup()] is called from outside, as [cleanupAllSessions] does *)
| CleanupCloseSettles (r : option error)
    (* the [close()] awaited by the oldest such call settles *)
| Tick (d : Z).

Definition settle_promise (p : promiseId) (st : promise_state) (w : world) : world :=
  with_promises (upd p st (promises w)) w.

(** [this.connectionPromise = this.doConnect(transport)] followed by
    [await this.connectionPromise], lines 96-97: [doConnect] runs up to its
    first [await]. *)
Definition connect_from_96 (this : ref) (i : nat) (t : transportId) (s : state)
  : state :=
  let '(closing, w) := cleanup_begin this (world_of s) in
  let p := nextPromise w in
  let w := with_nextPromise (S p) (settle_promise p Pending w) in
  let w := modify this (set_connectionPromise (Some p)) w in
  let s := with_world w s in
  let s := with_run p {| dc_transport := t; dc_pc := AwaitCleanup closing |} s in
  with_call i {| cc_transport := t; cc_pc := AwaitOwn p |} s.

(** Lines 88-97, up to the [await]. *)
Definition connect_from_88 (this : ref) (i : nat) (t : transportId) (s : state)
  : state :=
  match connectionPromise (heap (world_of s) this) with
  | Some p => with_call i {| cc_transport := t; cc_pc := AwaitShared p |} s
  | None => connect_from_96 this i t s
  end.

(** A call ends with the outcome of the rest of its body. *)
Definition settle_call (i : nat) (t : transportId)
    (m : M (option clientId)) (s : state) : state :=
  let '(r, w) := m (world_of s) in
  with_call i {| cc_transport := t; cc_pc := Settled r |} (with_world w s).

(** The [catch] clause of the first [if] of [connect], lines 81-85. *)
Definition validation_failed (this : ref) (w : world) : world :=
  let w := emit (ConsoleLog (msg_reconnecting (sessionId (heap w this)))) w in
  let w := modify this (set_isConnected false) w in
  modify this (set_client None) w.

(** [return this.client] after [this.lastUsed = Date.now()]. *)
Definition touch_and_return (this : ref) : M (option clientId) :=
  touch this ;; get (fun w => client (heap w this)).

Definition step (ver : version) (this : ref) (l : label) (s : state)
  : option state :=
  let w := world_of s in
  match l with
  | Call i t =>
      match calls s i with
      | Some _ => None
      | None =>
          if isSessionConnected this w then
            match ver with
            | V1 => Some (settle_call i t (touch_and_return this) s)
            | V2 =>
                match client (heap w this), transport (heap w this) with
                | Some c, Some _ =>
                    Some (with_call i {| cc_transport := t;
                                         cc_pc := AwaitValidate (Some c) |}
                            (with_world (emit (ListTools c) w) s))
                | _, _ =>
                    Some (with_call i {| cc_transport := t;
                                         cc_pc := AwaitValidate None |} s)
                end
            end
          else Some (connect_from_88 this i t s)
      end
  | ProbeSettles i r =>
      match calls s i with
      | Some {| cc_transport := t; cc_pc := AwaitValidate (Some c) |} =>
          match r with
          | None => Some (settle_call i t (touch_and_return this) s)
          | Some _ =>
              Some (connect_from_88 this i t
                      (with_world (validation_failed this w) s))
          end
      | _ => None
      end
  | Resume i =>
      match calls s i with
      | Some {| cc_transport := t; cc_pc := AwaitValidate None |} =>
          Some (connect_from_88 this i t (with_world (validation_failed this w) s))
      | Some {| cc_transport := t; cc_pc := AwaitShared p |} =>
          match promises w p with
          | Pending => None
          | Rejected e => Some (settle_call i t (throw e) s)
          | Fulfilled =>
              if isSessionConnected this w then
                Some (settle_call i t (touch_and_return this) s)
              else Some (connect_from_96 this i t s)
          end
      | Some {| cc_transport := t; cc_pc := AwaitOwn p |} =>
          match promises w p with
          | Pending => None
          | Rejected e => Some (settle_call i t (throw e) s)
          | Fulfilled => Some (settle_call i t (connect_finish this) s)
          end
      | _ => None
      end
  | CloseSettles p r =>
      match runs s p with
      | Some {| dc_transport := t; dc_pc := AwaitCleanup (Some _) |} =>
          let w := snd (cleanup_resume this r w) in
          Some (with_run p {| dc_transport := t; dc_pc := AwaitCleanup None |}
                  (with_world w s))
      | _ => None
      end
  | Continue p =>
      match runs s p with
      | Some {| dc_transport := t; dc_pc := AwaitCleanup None |} =>
          match doConnect_handshake this t w with
          | (Returned c, w) =>
              Some (with_run p {| dc_transport := t; dc_pc := AwaitHandshake c |}
                      (with_world w s))
          | _ => None
          end
      | _ => None
      end
  | HandshakeSettles p r =>
      match runs s p with
      | Some {| dc_transport := t; dc_pc := AwaitHandshake c |} =>
          let '(o, w) :=
            try_catch (await r ;; doConnect_connected this t)
                      (doConnect_catch this) w in
          let st :=
            match o with
            | Returned _ => Fulfilled
            | Thrown e => Rejected e
            | Unsettled => Pending
            end in
          Some (with_run p {| dc_transport := t; dc_pc := Finished |}
                  (with_world (settle_promise p st w) s))
      | _ => None
      end
  | TransportError t e => Some (with_world (transport_onerror ver t e w) s)
  | CallCleanup =>
      let '(closing, w) := cleanup_begin this w in
      Some (with_cleanups
              (cleanups s ++ match closing with Some t => [t] | None => [] end)
              (with_world w s))
  | CleanupCloseSettles r =>
      match cleanups s with
      | _ :: rest =>
          Some (with_cleanups rest (with_world (snd (cleanup_resume this r w)) s))
      | [] => None
      end
  | Tick d =>
      if 0 <=? d then Some (with_world (with_clock (clock w + d) w) s) else None
  end.

(** A schedule: the steps taken, in order. *)
Fixpoint run (ver : version) (this : ref) (ls : list label) (s : state)
  : option state :=
  match ls with
  | [] => Some s
  | l :: ls =>
      match step ver this l s with
      | Some s' => run ver this ls s'
      | None => None
      end
  end.

(** No call and no run yet. *)
Definition start (w : world) : state :=
  {| world_of := w; calls := fun _ => None; runs := fun _ => None;
     cleanups := [] |}.

End Async.

(* ================================================================== *)
(** ** Observations used in the statements                             *)
(* ================================================================== *)

Module Observe.
Import JS Session Manager Registry.

(** What [cleanup] leaves behind, field by field. *)
Definition cleared (m : McpSessionManager) : McpSessionManager :=
  {| client := None; transport := None; isConnected := false;
     connectionPromise := connectionPromise m; lastUsed := lastUsed m;
     sessionId := sessionId m; cleanupTimer := None |}.

Definition cleanup_events (env : environment) (this : ref) (m : McpSessionManager)
  : list event :=
  [ConsoleLog (msg_cleaned_up (sessionId m))]
  ++ match transport m with
     | Some t =>
         match close_result env t with
         | Some e => [ConsoleError (msg_close_error (sessionId m)) (Some e)]
         | None => []
         end ++ [TransportClose t]
     | None => []
     end
  ++ match cleanupTimer m with
     | Some id => [ClearTimeout id]
     | None => []
     end
  ++ [CleanupCalled this].

(** The events of a list that are calls of [transport.close()]. *)
Definition is_close (e : event) : bool :=
  match e with TransportClose _ => true | _ => false end.

(** What a successful [doConnect] leaves behind. *)
Definition connected_with (c : clientId) (t : transportId) (m : McpSessionManager)
  : McpSessionManager :=
  {| client := Some c; transport := Some t; isConnected := true;
     connectionPromise := connectionPromise m; lastUsed := lastUsed m;
     sessionId := sessionId m; cleanupTimer := None |}.

(** The parts of the world that only the registry, the clock and the
    promise store touch. *)
Definition same_registry (w w' : world) : Prop :=
  instances w' = instances w /\ clock w' = clock w /\ nextRef w' = nextRef w.

Definition same_promises (w w' : world) : Prop :=
  promises w' = promises w /\ nextPromise w' = nextPromise w.

(** The world after the [catch] clause of [getClient]. *)
Definition after_failed_probe (this : ref) (w : world) : world :=
  modify this (set_client None)
    (modify this (set_isConnected false)
       (emit (ConsoleLog (msg_getClient_failed (sessionId (heap w this)))) w)).

(** [getClient], case by case. *)
Definition getClient_cases (env : environment) (this : ref) (w : world)
  : outcome (option clientId) * world :=
  if isSessionConnected this w then
    match client (heap w this), transport (heap w this) with
    | Some c, Some _ =>
        match listTools_result env c with
        | None =>
            (Returned (Some c),
             modify this (set_lastUsed (clock w)) (emit (ListTools c) w))
        | Some e => (Returned None, after_failed_probe this (emit (ListTools c) w))
        end
    | _, _ => (Returned None, after_failed_probe this w)
    end
  else (Returned None, w).

(** The liveness probe of a connected session fails under [env]. *)
Definition probe_fails (env : environment) (this : ref) (w : world) : Prop :=
  isSessionConnected this w = true /\
  (transport (heap w this) = None \/
   exists c e, client (heap w this) = Some c /\ listTools_result env c = Some e).

(** The events of a list that build a client. *)
Definition is_NewClient (e : event) : bool :=
  match e with NewClient _ => true | _ => false end.

(** Events that neither build a client nor start a handshake. *)
Definition is_passive (e : event) : bool :=
  match e with
  | NewClient _ | ClientConnect _ _ | TransportClose _ => false
  | _ => true
  end.

(** A session that is not connected holds no client. *)
Definition holds_no_client (m : McpSessionManager) : Prop :=
  isConnected m = false -> client m = None.

(** A session that is not connected holds neither client nor transport. *)
Definition holds_no_resource (m : McpSessionManager) : Prop :=
  isConnected m = false -> client m = None /\ transport m = None.

Definition no_stale_client (w : world) : Prop :=
  forall r, holds_no_client (heap w r).

Definition no_stale_resource (w : world) : Prop :=
  forall r, holds_no_resource (heap w r).

(** A call keeps a property of the world, however it ends. *)
Definition preserves {A} (I : world -> Prop) (m : M A) : Prop :=
  forall w, I w -> I (snd (m w)).

(** In a list of events in the order they happened, [a] comes before [b]. *)
Definition happens_before (a b : event) (evs : list event) : Prop :=
  exists l1 l2 l3, evs = l1 ++ a :: l2 ++ b :: l3.

(** The events that happened between [w] and [w'], oldest first. *)
Definition events_since (w w' : world) (evs : list event) : Prop :=
  trace w' = rev evs ++ trace w.

(** The keys of a [Map] are distinct. *)
Definition distinct_keys (m : list (jsstring * ref)) : Prop :=
  NoDup (map fst m).

Definition all_returned (rs : list (outcome unit)) : Prop :=
  Forall (fun r => r = Returned tt) rs.

(** Deleting a list of keys from a [Map]. *)
Definition delete_all (ks : list jsstring) (m : list (jsstring * ref)) :=
  fold_left (fun m k => Map_delete k m) ks m.

(** A session that [cleanup] has finished with. *)
Definition is_cleared (m : McpSessionManager) : Prop :=
  client m = None /\ transport m = None /\ isConnected m = false.

(** A connected session has no attempt recorded. *)
Definition promise_idle (m : McpSessionManager) : Prop :=
  isConnected m = true -> connectionPromise m = None.

Definition connected_means_idle (w : world) : Prop :=
  forall r, promise_idle (heap w r).

(** [m'] records the attempt that [m] records, is connected only if [m]
    is, and holds the client of [m] or none. *)
Definition calmer (m m' : McpSessionManager) : Prop :=
  connectionPromise m' = connectionPromise m
  /\ (isConnected m' = true -> isConnected m = true)
  /\ (client m' = client m \/ client m' = None).

Definition calms (w w' : world) : Prop :=
  (forall r, calmer (heap w r) (heap w' r))
  /\ (nextClient w <= nextClient w')%nat.

(** Every client held by a session has been built. *)
Definition well_allocated (w : world) : Prop :=
  forall r c, client (heap w r) = Some c -> (c < nextClient w)%nat.

(** The worlds that calls which do not overlap can produce: every call
    runs to its end before the next one starts. *)
Inductive reachable (ver : version) : world -> Prop :=
| reach_initial (now : Z) :
    reachable ver (Samples.initial_world now)
| reach_tick (d : Z) (w : world) :
    reachable ver w -> reachable ver (Samples.tick d w)
| reach_getInstance (sid : jsstring) (w : world) :
    reachable ver w -> reachable ver (snd (getInstance sid w))
| reach_connect (env : environment) (this : ref) (t : transportId) (w : world) :
    reachable ver w -> reachable ver (snd (connect ver env this t w))
| reach_getClient (env : environment) (this : ref) (w : world) :
    reachable ver w -> reachable ver (snd (getClient env this w))
| reach_getClientSync (this : ref) (w : world) :
    reachable ver w -> reachable ver (snd (getClientSync this w))
| reach_cleanup (env : environment) (this : ref) (w : world) :
    reachable ver w -> reachable ver (snd (cleanup env this w))
| reach_sweep (env : environment) (this : ref) (w : world) :
    reachable ver w -> reachable ver (snd (sweep env this w))
| reach_cleanupAllSessions (env : environment) (w : world) :
    reachable ver w -> reachable ver (snd (cleanupAllSessions env w))
| reach_onerror (t : transportId) (e : error) (w : world) :
    reachable ver w -> reachable ver (transport_onerror ver t e w).

End Observe.

(* ================================================================== *)
(** ** Overlapping calls without interference                          *)
(* ================================================================== *)

Module AsyncObserve.
Import JS Session Manager Registry Observe Async.

(** A session that has never been connected, or has been cleaned up. *)
Definition unconnected (this : ref) (w : world) : Prop :=
  client (heap w this) = None /\ transport (heap w this) = None
  /\ isConnected (heap w this) = false
  /\ connectionPromise (heap w this) = None.

(** The session is not connected and the attempt to connect it, if there is
    one, has not settled. *)
Definition in_flight (this : ref) (w : world) : bool :=
  negb (isSessionConnected this w) &&
  match connectionPromise (heap w this) with
  | Some p =>
      match promises w p with
      | Pending => true
      | _ => false
      end
  | None => true
  end.

(** The steps of calls of [connect] that overlap with nothing else: no
    transport error, no [cleanup()] from outside, and every call is made
    while the session is not connected and its attempt has not settled. *)
Definition undisturbed (this : ref) (s : state) (l : label) : bool :=
  match l with
  | Call _ _ => in_flight this (world_of s)
  | Resume _ | Continue _ | HandshakeSettles _ _ | Tick _ => true
  | _ => false
  end.

Fixpoint run_undisturbed (ver : version) (this : ref) (ls : list label) (s : state)
  : option state :=
  match ls with
  | [] => Some s
  | l :: ls =>
      if undisturbed this s l then
        match step ver this l s with
        | Some s' => run_undisturbed ver this ls s'
        | None => None
        end
      else None
  end.

Definition is_ClientConnect (e : event) : bool :=
  match e with ClientConnect _ _ => true | _ => false end.

(** The number of [new Client(...)] and of [client.connect(...)] among the
    events of [w] that are not events of [w0]. *)
Definition built_since (w0 w : world) (n : nat) : Prop :=
  exists evs, trace w = evs ++ trace w0 /\
              List.length (filter is_NewClient evs) = n.

Definition handshakes_since (w0 w : world) (n : nat) : Prop :=
  exists evs, trace w = evs ++ trace w0 /\
              List.length (filter is_ClientConnect evs) = n.

Definition settled_with (s : state) (i : nat) (r : outcome (option clientId)) : Prop :=
  exists t, calls s i = Some {| cc_transport := t; cc_pc := Settled r |}.

(** How far the one attempt has come. *)
Inductive phase :=
| NoAttempt
| Cleaning
| Handshaking
| Succeeded
| Failed (e : error).

Section Invariant.
Variable this : ref.
Variable w0 : world.

Let c0 : clientId := nextClient w0.
Let p0 : promiseId := nextPromise w0.

Definition handle_ok (ph : phase) (m : McpSessionManager) : Prop :=
  match ph with
  | NoAttempt =>
      client m = None /\ transport m = None /\ isConnected m = false
      /\ connectionPromise m = None
  | Cleaning =>
      client m = None /\ transport m = None /\ isConnected m = false
      /\ connectionPromise m = Some p0
  | Handshaking =>
      client m = Some c0 /\ transport m = None /\ isConnected m = false
      /\ connectionPromise m = Some p0
  | Succeeded =>
      client m = Some c0 /\ isConnected m = true
      /\ (connectionPromise m = Some p0 \/ connectionPromise m = None)
  | Failed _ =>
      client m = None /\ isConnected m = false /\ connectionPromise m = Some p0
  end.

Definition promise_ok (ph : phase) (st : promise_state) : Prop :=
  match ph with
  | NoAttempt => True
  | Cleaning | Handshaking => st = Pending
  | Succeeded => st = Fulfilled
  | Failed e => st = Rejected e
  end.

Definition run_ok (ph : phase) (r : option doConnect_run) : Prop :=
  match ph with
  | NoAttempt => r = None
  | Cleaning => exists t, r = Some {| dc_transport := t; dc_pc := AwaitCleanup None |}
  | Handshaking =>
      exists t, r = Some {| dc_transport := t; dc_pc := AwaitHandshake c0 |}
  | Succeeded | Failed _ =>
      exists t, r = Some {| dc_transport := t; dc_pc := Finished |}
  end.

Definition call_ok (ph : phase) (c : option connect_call) : Prop :=
  match c with
  | None => True
  | Some c =>
      match cc_pc c with
      | AwaitValidate _ => False
      | AwaitShared p | AwaitOwn p => p = p0 /\ ph <> NoAttempt
      | Settled r =>
          match ph with
          | Succeeded => r = Returned (Some c0)
          | Failed e => r = Thrown e
          | _ => False
          end
      end
  end.

(** A call that awaits the attempt. *)
Definition waiting (pc : connect_pc) : Prop :=
  pc = AwaitShared p0 \/ pc = AwaitOwn p0.

(** Caller [i] has called [connect(ts i)] and awaits the attempt. *)
Definition awaits (ts : nat -> transportId) (s : state) (i : nat) : Prop :=
  exists pc, calls s i = Some {| cc_transport := ts i; cc_pc := pc |}
             /\ waiting pc.

Definition before_settling (ph : phase) : Prop :=
  ph = NoAttempt \/ ph = Cleaning \/ ph = Handshaking.

Definition settled (ph : phase) : Prop :=
  ph = Succeeded \/ exists e, ph = Failed e.

(** The outcome of the attempt, by the outcome of the handshake. *)
Definition attempt_result (s : state) (r : option error) : phase :=
  match r with
  | None => Succeeded
  | Some e =>
      Failed (Error (msg_connect_failed (sessionId (heap (world_of s) this)) e))
  end.

(** How the calls that awaited the attempt end. *)
Definition call_result (ph : phase) : outcome (option clientId) :=
  match ph with
  | Failed e => Thrown e
  | _ => Returned (Some c0)
  end.

Definition built (ph : phase) : nat :=
  match ph with
  | NoAttempt | Cleaning => 0%nat
  | _ => 1%nat
  end.

Definition promises_made (ph : phase) : nat :=
  match ph with
  | NoAttempt => 0%nat
  | _ => 1%nat
  end.

(** What holds of every state that undisturbed calls on an unconnected
    session can reach. *)
Definition inv (ph : phase) (s : state) : Prop :=
  let w := world_of s in
  handle_ok ph (heap w this)
  /\ promise_ok ph (promises w p0)
  /\ run_ok ph (runs s p0)
  /\ (forall p, p <> p0 -> runs s p = None)
  /\ (forall i, call_ok ph (calls s i))
  /\ built_since w0 w (built ph)
  /\ handshakes_since w0 w (built ph)
  /\ nextClient w = (built ph + c0)%nat
  /\ nextPromise w = (promises_made ph + p0)%nat.

End Invariant.

(** [n] callers call [connect] one after the other, the run of [doConnect]
    continues, the handshake settles as [r], and the callers continue in the
    order in which they started to wait. *)
Definition burst (p : promiseId) (n : nat) (ts : nat -> transportId)
    (r : option error) : list label :=
  map (fun i => Call i (ts i)) (seq 0 n)
  ++ [Continue p; HandshakeSettles p r]
  ++ map Resume (seq 0 n).

(** A session that has just been created, at time [1000], and the
    transports of three callers. *)
Definition fresh_session : world :=
  snd (getInstance Samples.sid_a (Samples.initial_world 1000)).

Definition three_transports (i : nat) : transportId := (7 + i)%nat.

(** Caller 0 calls [connect(7)] and its [doConnect] starts the handshake;
    caller 1 calls [connect(8)] and waits; [cleanup()] is called from
    outside; the handshake succeeds; caller 0 continues. *)
Definition interfered : list label :=
  [Call 0 7; Continue 0; Call 1 8; CallCleanup; HandshakeSettles 0 None;
   Resume 0]%nat.

Definition is_Call (l : label) : bool :=
  match l with Call _ _ => true | _ => false end.

(** [n] callers call [connect] one after the other, before anything else
    happens. *)
Definition concurrent_calls (n : nat) (ts : nat -> transportId) : list label :=
  map (fun i => Call i (ts i)) (seq 0 n).

(** After the calls of callers 0 and 1: the run of [doConnect] starts the
    handshake; the transport reports an error; the handshake succeeds;
    caller 0 continues, then caller 1, whose own attempt runs to its end. *)
Definition split_by_error : list label :=
  [Continue 0; TransportError 7 (Error (lit "EPIPE")); HandshakeSettles 0 None;
   Resume 0; Resume 1; CloseSettles 1 None; Continue 1; HandshakeSettles 1 None;
   Resume 1]%nat.

Definition state_after (ver : version) (this : ref) (ls : list label) (w : world)
  : state :=
  match run ver this ls (start w) with
  | Some s => s
  | None => start w
  end.

End AsyncObserve.

(* ================================================================== *)
(** ** Session statistics                                              *)
(* ================================================================== *)

(** [getSessionStats], lines 282-305 of [part_000] and lines 247-270 of
    [McpSessionManager.ts]. *)
Module Stats.
Import JS Session Manager.

(** The time value of [new Date(t)]; [None] is an invalid date. *)
Definition new_Date (t : Z) : option Z :=
  if Z.abs t <=? 8640000000000000 then Some t else None.

Record entry := {
  sessionId : jsstring;
  isConnected : bool;
  lastUsed : option Z;
  age : Z;
}.

Record stats := {
  totalSessions : nat;
  connectedSessions : nat;
  sessions : list entry;
}.

Definition getSessionStats (w : world) : stats :=
  let now := clock w in
  let sessions :=
    map (fun '(sessionId, instance) =>
           {| sessionId := sessionId;
              isConnected := Session.isConnected (heap w instance);
              lastUsed := new_Date (Session.lastUsed (heap w instance));
              age := now - Session.lastUsed (heap w instance) |})
        (instances w) in
  {| totalSessions := List.length (instances w);
     connectedSessions := List.length (filter isConnected sessions);
     sessions := sessions |}.

End Stats.

(* ================================================================== *)
(** ** Observations on the life of a session                           *)
(* ================================================================== *)

Module Lifecycle.
Import JS Session Manager Registry Observe.

(** What the constructor leaves behind for a session created at time
    [now] whose sweep timer is [id]. *)
Definition created (sid : jsstring) (now : Z) (id : timerId) : McpSessionManager :=
  {| client := None; transport := None; isConnected := false;
     connectionPromise := None; lastUsed := now; sessionId := sid;
     cleanupTimer := Some id |}.

(** The registry names every session once, under the id the session was
    built with, and holds only objects that have been built. *)
Definition registry_wf (w : world) : Prop :=
  distinct_keys (instances w)
  /\ NoDup (map snd (instances w))
  /\ forall sid r, In (sid, r) (instances w) ->
       (r < nextRef w)%nat /\ sessionId (heap w r) = sid.

(** A session flagged as connected holds a client and a transport. *)
Definition coherent (w : world) : Prop :=
  forall r, isConnected (heap w r) = true ->
            client (heap w r) <> None /\ transport (heap w r) <> None.

(** [m'] has the id of [m] and, if it is connected, [m] was connected with
    the same client over the same transport. *)
Definition keeps (m m' : McpSessionManager) : Prop :=
  sessionId m' = sessionId m
  /\ (isConnected m' = true ->
        isConnected m = true /\ client m' = client m
        /\ transport m' = transport m).

(** No session is created, connected or renamed between [w] and [w'];
    sessions may have left the registry. *)
Definition steady (w w' : world) : Prop :=
  (forall r, keeps (heap w r) (heap w' r))
  /\ nextRef w' = nextRef w
  /\ clock w' = clock w
  /\ exists f, instances w' = filter f (instances w).

(** Moreover no session has been marked as used. *)
Definition quiet (w w' : world) : Prop :=
  steady w w'
  /\ forall r, lastUsed (heap w' r) = lastUsed (heap w r).

(** How a part of [connect] that returns [Some v] to return [v], or [None]
    to go on, treats [lastUsed]. *)
Definition marks_on_return (this : ref) (w : world)
    (r : outcome (option (option clientId)) * world) : Prop :=
  clock (snd r) = clock w
  /\ (forall r', r' <> this -> lastUsed (heap (snd r) r') = lastUsed (heap w r'))
  /\ match fst r with
     | Returned (Some _) => lastUsed (heap (snd r) this) = clock w
     | _ => lastUsed (heap (snd r) this) = lastUsed (heap w this)
     end.

(** The session of a pending cleanup of a sweep was registered in [m]
    under an id of [sids]. *)
Definition swept_from (sids : list jsstring) (m : list (jsstring * ref))
    (p : pending_cleanup) : Prop :=
  In (pc_sessionId p) sids /\ Map_get (pc_sessionId p) m = Some (pc_instance p).

(** Three sessions: [sid_a], connected over transport [7] at time [1000]
    and not used since; [sid_b], connected over transport [8] 25 minutes
    later; [sid_c], created then and never connected, so that the timer
    its constructor armed is pending.  The clock reads 31 minutes and 40
    seconds after the first use. *)
Definition sid_c : jsstring := lit "mcp_session_c".

Definition world_three_sessions : world :=
  Samples.tick 400000
    (snd (getInstance sid_c
            (snd (connect V2 Samples.healthy 1%nat 8%nat
                    (snd (getInstance Samples.sid_b
                            (Samples.tick 1500000 (Samples.world_connected V2)))))))).

End Lifecycle.

(* ================================================================== *)
(** ** Facts about number formatting                                   *)
(* ================================================================== *)

Module JSFacts.
Import JS.

Lemma digits_le_value (radix : Z) (fuel : nat) :
  2 <= radix ->
  forall n, 0 <= n < 2 ^ Z.of_nat fuel ->
  value_le radix (digits_le fuel radix n) = n.
Proof.
  intros Hr. induction fuel as [|f IH]; intros n Hn.
  - simpl in *. lia.
  - cbn [digits_le]. destruct (n / radix =? 0) eqn:E.
    + apply Z.eqb_eq in E. cbn [value_le fold_right].
      pose proof (Z.div_mod n radix ltac:(lia)). nia.
    + apply Z.eqb_neq in E.
      change (n mod radix + radix * value_le radix (digits_le f radix (n / radix)) = n).
      rewrite IH.
      * pose proof (Z.div_mod n radix ltac:(lia)). lia.
      * rewrite Nat2Z.inj_succ, Z.pow_succ_r in Hn by lia.
        split; [apply Z.div_pos; lia|].
        apply Z.div_lt_upper_bound; [lia|].
        assert (0 < 2 ^ Z.of_nat f) by (apply Z.pow_pos_nonneg; lia). nia.
Qed.

Lemma digits_le_range (radix : Z) (fuel : nat) :
  0 < radix ->
  forall n, Forall (fun d => 0 <= d < radix) (digits_le fuel radix n).
Proof.
  intros Hr. induction fuel as [|f IH]; intros n; cbn [digits_le].
  - constructor.
  - constructor; [apply Z.mod_pos_bound; lia|].
    destruct (n / radix =? 0); [constructor | apply IH].
Qed.

Lemma log2_fuel (n : Z) : 0 <= n -> n < 2 ^ Z.of_nat (S (Z.to_nat (Z.log2 n))).
Proof.
  intros Hn. rewrite Nat2Z.inj_succ, Z2Nat.id by apply Z.log2_nonneg.
  destruct (Z.eq_dec n 0) as [->|Hz]; [reflexivity|].
  apply Z.log2_spec. lia.
Qed.

Lemma digit_val_char (d : Z) : 0 <= d < 36 -> digit_val (digit_char d) = d.
Proof.
  intros Hd. unfold digit_val, digit_char.
  destruct (d <? 10) eqn:E.
  - apply Z.ltb_lt in E. destruct (48 + d <? 58) eqn:E2; [lia|].
    apply Z.ltb_ge in E2. lia.
  - apply Z.ltb_ge in E. destruct (87 + d <? 58) eqn:E2; [|lia].
    apply Z.ltb_lt in E2. lia.
Qed.

Lemma map_digit_val_char (ds : list Z) :
  Forall (fun d => 0 <= d < 36) ds -> map digit_val (map digit_char ds) = ds.
Proof.
  induction 1 as [|d ds Hd _ IH]; cbn; [reflexivity|].
  now rewrite digit_val_char, IH.
Qed.

Lemma range_weaken (radix : Z) (ds : list Z) :
  radix <= 36 ->
  Forall (fun d => 0 <= d < radix) ds -> Forall (fun d => 0 <= d < 36) ds.
Proof. intros Hr. apply Forall_impl. intros; lia. Qed.

(** The digit string determines the number. *)
Lemma nat_digits_inj (radix n m : Z) :
  2 <= radix <= 36 -> 0 <= n -> 0 <= m ->
  nat_digits radix n = nat_digits radix m -> n = m.
Proof.
  intros Hr Hn Hm E. unfold nat_digits in E.
  apply (f_equal (map digit_val)) in E.
  rewrite !map_digit_val_char in E
    by (apply (range_weaken radix); [lia|]; apply Forall_rev, digits_le_range; lia).
  apply (f_equal (@rev Z)) in E. rewrite !rev_involutive in E.
  apply (f_equal (value_le radix)) in E.
  rewrite !digits_le_value in E
    by first [lia | split; [lia | apply log2_fuel; lia]].
  exact E.
Qed.

(** Digit characters are [0-9a-z]: neither ['-'] (45) nor ['_'] (95). *)
Lemma digit_char_plain (d : Z) :
  0 <= d < 36 -> digit_char d <> 45 /\ digit_char d <> 95.
Proof. intros Hd. unfold digit_char. destruct (Z.ltb_spec d 10); split; lia. Qed.

Lemma nat_digits_plain (radix n : Z) :
  2 <= radix <= 36 ->
  Forall (fun c => c <> 45 /\ c <> 95) (nat_digits radix n).
Proof.
  intros Hr. unfold nat_digits. apply Forall_map, Forall_rev.
  apply (Forall_impl _ (P := fun d => 0 <= d < radix));
    [|apply digits_le_range; lia].
  intros d Hd. apply digit_char_plain. lia.
Qed.

Lemma toString_inj (radix n m : Z) :
  2 <= radix <= 36 -> toString radix (Int n) = toString radix (Int m) -> n = m.
Proof.
  intros Hr. unfold toString.
  destruct (n <? 0) eqn:En; destruct (m <? 0) eqn:Em;
    [apply Z.ltb_lt in En, Em | apply Z.ltb_lt in En; apply Z.ltb_ge in Em
     | apply Z.ltb_ge in En; apply Z.ltb_lt in Em | apply Z.ltb_ge in En, Em];
    cbn [lit list_ascii_of_string map app]; intros E.
  - injection E as E. apply nat_digits_inj in E; lia.
  - pose proof (nat_digits_plain radix m Hr) as P. rewrite <- E in P.
    inversion P as [|? ? [H _] _]; subst. now contradiction H.
  - pose proof (nat_digits_plain radix n Hr) as P. rewrite E in P.
    inversion P as [|? ? [H _] _]; subst. now contradiction H.
  - now apply nat_digits_inj in E.
Qed.

Lemma toString_no_underscore (radix n : Z) :
  2 <= radix <= 36 -> Forall (fun c => c <> 95) (toString radix (Int n)).
Proof.
  intros Hr. unfold toString.
  assert (Forall (fun c => c <> 95) (nat_digits radix (Z.abs n))) as P.
  { apply (Forall_impl _ (P := fun c => c <> 45 /\ c <> 95));
      [now intros c [_ H] | apply nat_digits_plain, Hr]. }
  destruct (n <? 0) eqn:En.
  - apply Z.ltb_lt in En. rewrite Z.abs_neq in P by lia.
    apply Forall_app. split; [|exact P].
    constructor; [cbn; lia | constructor].
  - apply Z.ltb_ge in En. now rewrite Z.abs_eq in P by lia.
Qed.

(** A separator that does not occur in the left parts splits uniquely. *)
Lemma split_at_separator (sep : Z) (a a' b b' : jsstring) :
  Forall (fun c => c <> sep) a -> Forall (fun c => c <> sep) a' ->
  a ++ sep :: b = a' ++ sep :: b' -> a = a' /\ b = b'.
Proof.
  intros Ha. revert a'. induction Ha as [|x a Hx Ha IH]; intros a' Ha' E.
  - destruct Ha' as [|y a' Hy Ha']; cbn in E.
    + injection E as E. now split.
    + injection E as E1 E2. now contradiction Hy.
  - destruct Ha' as [|y a' Hy Ha']; cbn in E.
    + injection E as E1 E2. now contradiction Hx.
    + injection E as E1 E2. destruct (IH a' Ha' E2) as [-> ->]. now subst.
Qed.

Lemma jsstring_eqb_refl (s : jsstring) : jsstring_eqb s s = true.
Proof. unfold jsstring_eqb. now destruct (list_eq_dec Z.eq_dec s s). Qed.

Lemma get_set_prop (k : jsstring) (v : jsval) (o : jsobject) :
  get_prop k (set_prop k v o) = Some v.
Proof.
  induction o as [|[k' v'] o IH]; cbn.
  - now rewrite jsstring_eqb_refl.
  - destruct (jsstring_eqb k k') eqn:E; cbn; now rewrite E.
Qed.

End JSFacts.
(* ================================================================== *)
(** ** Session identifiers: determinism and freshness                  *)
(* ================================================================== *)

Module SessionIdFacts.
Import JS SessionId JSFacts.

Lemma timestamp_of_with_timestamp (x : number) (cfg : jsobject) :
  timestamp_of (with_timestamp x cfg) = JNum x.
Proof.
  unfold timestamp_of, with_timestamp, timestamp_key. now rewrite get_set_prop.
Qed.

Lemma effective_timestamp_truthy (now : Z) (cfg : jsobject) :
  truthy (timestamp_of cfg) = true ->
  V2.effective_timestamp now cfg = timestamp_of cfg.
Proof. intros H. unfold V2.effective_timestamp. now rewrite H. Qed.

Lemma effective_timestamp_falsy (now : Z) (cfg : jsobject) :
  truthy (timestamp_of cfg) = false ->
  V2.effective_timestamp now cfg = JNum (Int now).
Proof. intros H. unfold V2.effective_timestamp. now rewrite H. Qed.

Lemma effective_timestamp_salted (now t : Z) (cfg : jsobject) :
  t <> 0 -> V2.effective_timestamp now (with_timestamp (Int t) cfg) = JNum (Int t).
Proof.
  intros Ht. rewrite effective_timestamp_truthy;
    rewrite timestamp_of_with_timestamp; [reflexivity|].
  cbn. now destruct (Z.eqb_spec t 0).
Qed.

(** A number is falsy when it is [0] or [NaN]. *)
Lemma truthy_number (x : number) :
  truthy (JNum x) = false <-> x = Int 0 \/ x = NaN.
Proof.
  destruct x as [n| |b|p]; cbn.
  - destruct (Z.eqb_spec n 0) as [->|Hn]; cbn; split; auto; try discriminate.
    intros [[= E]|[=]]. contradiction.
  - split; auto.
  - split; [discriminate | intros [[=]|[=]]].
  - split; [discriminate | intros [[=]|[=]]].
Qed.

(** What ends up in an id is never [undefined]. *)
Lemma effective_timestamp_defined (now : Z) (cfg : jsobject) :
  V2.effective_timestamp now cfg <> JUndef.
Proof.
  unfold V2.effective_timestamp.
  destruct (truthy (timestamp_of cfg)) eqn:E; [|discriminate].
  intros H. rewrite H in E. discriminate E.
Qed.

(** The id [part_000] computes, by what [timestamp.toString(36)] gives. *)
Lemma generateSessionId_cases (now : Z) (cfg : jsobject) :
  match call_toString 36 (V2.effective_timestamp now cfg) with
  | Normal suffix =>
      exists inserted,
        ToString (V2.effective_timestamp now cfg) = Normal inserted
        /\ V2.generateSessionId now cfg
           = Normal (lit "mcp_session_"
                     ++ toString 36
                          (Int (Z.abs (hash_string
                                         (JSON_stringify cfg ++ lit "_" ++ inserted))))
                     ++ lit "_" ++ suffix)
  | TypeError => V2.generateSessionId now cfg = TypeError
  end.
Proof.
  pose proof (effective_timestamp_defined now cfg) as Hd.
  unfold V2.generateSessionId.
  destruct (V2.effective_timestamp now cfg) as [s|x|l|kv|];
    cbn [ToString call_toString].
  - eexists; split; reflexivity.
  - eexists; split; reflexivity.
  - eexists; split; reflexivity.
  - destruct (has_own (lit "toString") kv); [reflexivity|].
    eexists; split; reflexivity.
  - now contradiction Hd.
Qed.

Lemma Normal_inj {A} (a b : A) : Normal a = Normal b -> a = b.
Proof. now intros [=]. Qed.

(** The last component of an id of [part_000] is what
    [timestamp.toString(36)] gave. *)
Lemma generateSessionId_suffix (now1 now2 : Z) (c1 c2 : jsobject) :
  V2.generateSessionId now1 c1 = V2.generateSessionId now2 c2 ->
  call_toString 36 (V2.effective_timestamp now1 c1)
  = call_toString 36 (V2.effective_timestamp now2 c2).
Proof.
  pose proof (generateSessionId_cases now1 c1) as H1.
  pose proof (generateSessionId_cases now2 c2) as H2.
  destruct (call_toString 36 (V2.effective_timestamp now1 c1)) as [s1|];
    destruct (call_toString 36 (V2.effective_timestamp now2 c2)) as [s2|];
    try destruct H1 as (i1 & _ & H1); try destruct H2 as (i2 & _ & H2);
    rewrite H1, H2; intros E; try discriminate E; [|reflexivity].
  apply Normal_inj, app_inv_head in E.
  change (lit "_") with [95] in E. cbn [app] in E.
  apply split_at_separator in E; try (apply toString_no_underscore; lia).
  destruct E as [_ ->]. reflexivity.
Qed.

(** When both timestamps are integers, the id determines the timestamp
    that went into it. *)
Lemma generateSessionId_timestamp (now1 now2 t1 t2 : Z) (c1 c2 : jsobject) :
  V2.effective_timestamp now1 c1 = JNum (Int t1) ->
  V2.effective_timestamp now2 c2 = JNum (Int t2) ->
  V2.generateSessionId now1 c1 = V2.generateSessionId now2 c2 ->
  t1 = t2.
Proof.
  intros E1 E2 E. apply generateSessionId_suffix in E. rewrite E1, E2 in E.
  cbn [call_toString] in E. apply Normal_inj in E.
  apply toString_inj in E; [exact E | lia].
Qed.

Lemma generateSessionId_integer (now t : Z) (cfg : jsobject) :
  V2.effective_timestamp now cfg = JNum (Int t) ->
  V2.generateSessionId now cfg
  = Normal (lit "mcp_session_"
            ++ toString 36
                 (Int (Z.abs (hash_string
                                (JSON_stringify cfg ++ lit "_" ++ toString 10 (Int t)))))
            ++ lit "_" ++ toString 36 (Int t)).
Proof. intros E. unfold V2.generateSessionId. now rewrite E. Qed.

(** [JSON.stringify] skips the properties whose value is [undefined]. *)
Lemma stringify_defined_properties (cfg : jsobject) :
  JSON_stringify (defined_properties cfg) = JSON_stringify cfg.
Proof.
  assert (stringify_props (filter is_defined cfg) = stringify_props cfg) as H.
  { induction cfg as [|[k v] cfg IH]; [reflexivity|].
    destruct v; cbn [filter is_defined snd stringify_props stringify_val];
      now rewrite ?IH. }
  unfold JSON_stringify, defined_properties. now rewrite H.
Qed.

Example stringify_stdio_config :
  JSON_stringify stdio_config
  = [123; 34] ++ lit "connectionType" ++ [34; 58; 34] ++ lit "stdio" ++ [34; 44; 34]
    ++ lit "command" ++ [34; 58; 34] ++ lit "server" ++ [34; 44; 34]
    ++ lit "args" ++ [34; 58; 91; 34] ++ lit "--flag" ++ [34; 93; 125].
Proof. reflexivity. Qed.

Example generateSessionId_stdio_v1 :
  V1.generateSessionId stdio_config = lit "mcp_session_mysj1a".
Proof. reflexivity. Qed.

Example generateSessionId_stdio_v2 :
  V2.generateSessionId 1700000000000 stdio_config
  = Normal (lit "mcp_session_g424h5_loyw3v28").
Proof. reflexivity. Qed.

(** A timestamp of [1e21] is printed as [1e+21] in the hashed text and as
    [5v1j4f4ds7c000] in the id. *)
Example generateSessionId_1e21 :
  V2.generateSessionId 5
    (with_timestamp number_1e21 [(lit "connectionType", JStr (lit "stdio"))])
  = Normal (lit "mcp_session_5edgu_5v1j4f4ds7c000").
Proof. reflexivity. Qed.

(** A timestamp of [NaN] is printed as [null] by [JSON.stringify] and
    replaced by the clock reading; with the clock at another salt the two
    ids can coincide. *)
Example generateSessionId_NaN :
  V2.generateSessionId 1700000000001 (with_timestamp NaN nan_colliding_config)
  = Normal (lit "mcp_session_6c31oi_loyw3v29")
  /\ V2.generateSessionId 1700000000001
       (with_timestamp (Int 1700000000001) nan_colliding_config)
     = Normal (lit "mcp_session_6c31oi_loyw3v29").
Proof. split; reflexivity. Qed.

(** A timestamp that is not a number is used as it is when it is truthy;
    a record with an own [toString] cannot be inserted in the hashed
    text. *)
Example generateSessionId_string_salt :
  V2.generateSessionId 5 (set_prop (lit "timestamp") (JStr (lit "5")) [])
  = V2.generateSessionId 7 (set_prop (lit "timestamp") (JStr (lit "5")) [])
  /\ V2.generateSessionId 5
       (set_prop (lit "timestamp") (JRec [(lit "toString", lit "x")]) [])
     = TypeError.
Proof. split; reflexivity. Qed.

(** C2, as stated, fails on [part_000]: with the salt absent in both calls
    the id follows the clock. *)
Lemma C2_absent_salt_follows_clock :
  ~ (forall now1 now2 cfg,
        timestamp_of cfg = JUndef ->
        V2.generateSessionId now1 cfg = V2.generateSessionId now2 cfg).
Proof.
  intros H.
  specialize (H 1700000000000 1700000000001 stdio_config eq_refl).
  apply (generateSessionId_timestamp _ _ 1700000000000 1700000000001) in H;
    [discriminate H | reflexivity | reflexivity].
Qed.

(** C2 (amended): the id depends on the configuration only through the
    properties that are not [undefined], in both files.  The id of
    [part_000] is independent of the clock, hence a function of
    configuration and salt alone, exactly when the configuration carries a
    truthy [timestamp]: a number other than [0] and [NaN] (or, against the
    declared type, a non-empty string, an array or a record).  When the
    [timestamp] is absent, [undefined], [0], [NaN] or the empty string,
    the clock reading takes its place and the id changes whenever the clock
    does. *)
Theorem C2_generateSessionId_deterministic :
  (forall c1 c2,
      defined_properties c1 = defined_properties c2 ->
      V1.generateSessionId c1 = V1.generateSessionId c2)
  /\ (forall now1 now2 c1 c2,
        defined_properties c1 = defined_properties c2 ->
        timestamp_of c1 = timestamp_of c2 ->
        truthy (timestamp_of c1) = true ->
        V2.generateSessionId now1 c1 = V2.generateSessionId now2 c2)
  /\ (forall x, truthy (JNum x) = true <-> x <> Int 0 /\ x <> NaN)
  /\ (forall now1 now2 c,
        truthy (timestamp_of c) = false -> now1 <> now2 ->
        V2.generateSessionId now1 c <> V2.generateSessionId now2 c)
  /\ (forall c,
        timestamp_of c = JUndef \/ timestamp_of c = JNum (Int 0)
        \/ timestamp_of c = JNum NaN \/ timestamp_of c = JStr [] ->
        truthy (timestamp_of c) = false).
Proof.
  split; [|split; [|split; [|split]]].
  - intros c1 c2 E. unfold V1.generateSessionId.
    rewrite <- (stringify_defined_properties c1), E.
    now rewrite stringify_defined_properties.
  - intros now1 now2 c1 c2 E Ht Htr.
    assert (JSON_stringify c1 = JSON_stringify c2) as Ej.
    { rewrite <- (stringify_defined_properties c1), E.
      apply stringify_defined_properties. }
    unfold V2.generateSessionId.
    rewrite (effective_timestamp_truthy now1 c1 Htr).
    rewrite (effective_timestamp_truthy now2 c2) by (now rewrite <- Ht).
    now rewrite Ej, Ht.
  - intros x. pose proof (truthy_number x) as H.
    destruct (truthy (JNum x)); split.
    + intros _. split; intros ->; destruct H as [_ H];
        [specialize (H (or_introl eq_refl)) | specialize (H (or_intror eq_refl))];
        discriminate H.
    + reflexivity.
    + discriminate.
    + intros [H1 H2]. destruct (proj1 H eq_refl); contradiction.
  - intros now1 now2 c Hf Hne E.
    apply (generateSessionId_timestamp now1 now2 now1 now2 c c) in E;
      [contradiction | |]; now apply effective_timestamp_falsy.
  - intros c [->|[->|[->| ->]]]; reflexivity.
Qed.

Lemma C2_generateSessionId_deterministic_witness :
  V2.generateSessionId 5 (with_timestamp (Int 1700000000000) stdio_config)
  = V2.generateSessionId 7 (with_timestamp (Int 1700000000000) stdio_config).
Proof.
  apply (proj1 (proj2 C2_generateSessionId_deterministic) 5 7).
  - reflexivity.
  - reflexivity.
  - reflexivity.
Defined.

(** C9, as stated, fails: the salt [0] is replaced by the clock reading, and
    with the clock at the other salt the two ids coincide. *)
Lemma C9_zero_salt_collision :
  ~ (forall now cfg t1 t2,
        t1 <> t2 ->
        V2.generateSessionId now (with_timestamp (Int t1) cfg)
        <> V2.generateSessionId now (with_timestamp (Int t2) cfg)).
Proof.
  intros H.
  apply (H 1700000000000 colliding_config 0 1700000000000); [lia|].
  vm_compute. reflexivity.
Qed.

(** C9 (amended): two distinct timestamps that are safe integers other than
    [0] give distinct ids for the same configuration, whatever the clock
    reads; in particular [createNewSession] at two distinct non-zero clock
    readings gives distinct ids.  The timestamps [0] and [NaN] are replaced
    by the clock reading and give no such guarantee. *)
Theorem C9_distinct_nonzero_salts_distinct_ids :
  forall now1 now2 cfg t1 t2,
    is_safe_integer t1 = true -> is_safe_integer t2 = true ->
    t1 <> 0 -> t2 <> 0 -> t1 <> t2 ->
    (exists id1 id2,
        V2.generateSessionId now1 (with_timestamp (Int t1) cfg) = Normal id1
        /\ V2.generateSessionId now2 (with_timestamp (Int t2) cfg) = Normal id2
        /\ id1 <> id2)
    /\ V2.generateSessionId now1 (with_timestamp (Int t1) cfg)
       <> V2.generateSessionId now2 (with_timestamp (Int t2) cfg)
    /\ V2.createNewSession t1 cfg <> V2.createNewSession t2 cfg
    /\ V2.effective_timestamp now1 (with_timestamp (Int 0) cfg) = JNum (Int now1)
    /\ V2.effective_timestamp now1 (with_timestamp NaN cfg) = JNum (Int now1).
Proof.
  intros now1 now2 cfg t1 t2 _ _ H1 H2 Hne.
  assert (V2.generateSessionId now1 (with_timestamp (Int t1) cfg)
          <> V2.generateSessionId now2 (with_timestamp (Int t2) cfg)) as Hd.
  { intros E.
    apply (generateSessionId_timestamp now1 now2 t1 t2) in E;
      [contradiction | |]; now apply effective_timestamp_salted. }
  split; [|split; [exact Hd|split; [|split]]].
  - rewrite (generateSessionId_integer now1 t1) in *
      by now apply effective_timestamp_salted.
    rewrite (generateSessionId_integer now2 t2) in *
      by now apply effective_timestamp_salted.
    eexists. eexists. split; [reflexivity|]. split; [reflexivity|].
    intros E. apply Hd. now rewrite E.
  - unfold V2.createNewSession. intros E.
    fold timestamp_key in E. fold (with_timestamp (Int t1) cfg) in E.
    fold (with_timestamp (Int t2) cfg) in E.
    apply (generateSessionId_timestamp t1 t2 t1 t2) in E;
      [contradiction | |]; now apply effective_timestamp_salted.
  - apply effective_timestamp_falsy. now rewrite timestamp_of_with_timestamp.
  - apply effective_timestamp_falsy. now rewrite timestamp_of_with_timestamp.
Qed.

Lemma C9_distinct_nonzero_salts_distinct_ids_witness :
  V2.generateSessionId 3 (with_timestamp (Int 1700000000000) stdio_config)
  <> V2.generateSessionId 3 (with_timestamp (Int 1700000000001) stdio_config)
  /\ V2.createNewSession 1700000000000 stdio_config
     <> V2.createNewSession 1700000000001 stdio_config.
Proof.
  destruct (C9_distinct_nonzero_salts_distinct_ids 3 3 stdio_config
              1700000000000 1700000000001) as (_ & H1 & H2 & _);
    try reflexivity; try lia.
  split; assumption.
Defined.

(** C10: a [timestamp] of [0] is read exactly like an absent one, the
    clock reading takes its place, and the id then changes with the clock. *)
Theorem C10_zero_salt_is_absent_salt :
  forall now cfg,
    timestamp_of cfg = JNum (Int 0) ->
    (forall cfg', timestamp_of cfg' = JUndef ->
        V2.effective_timestamp now cfg = V2.effective_timestamp now cfg')
    /\ V2.effective_timestamp now cfg = JNum (Int now)
    /\ V2.generateSessionId now cfg
       = Normal (lit "mcp_session_"
                 ++ toString 36 (Int (Z.abs (hash_string
                      (JSON_stringify cfg ++ lit "_" ++ toString 10 (Int now)))))
                 ++ lit "_" ++ toString 36 (Int now))
    /\ (forall now', now' <> now ->
          V2.generateSessionId now' cfg <> V2.generateSessionId now cfg).
Proof.
  intros now cfg H0.
  assert (forall n, V2.effective_timestamp n cfg = JNum (Int n)) as Heff.
  { intros n. apply effective_timestamp_falsy. now rewrite H0. }
  split; [|split; [|split]].
  - intros cfg' Habs. rewrite Heff. symmetry.
    apply effective_timestamp_falsy. now rewrite Habs.
  - apply Heff.
  - now apply generateSessionId_integer.
  - intros now' Hne E.
    apply (generateSessionId_timestamp now' now now' now) in E;
      [contradiction | |]; apply Heff.
Qed.

Lemma C10_zero_salt_is_absent_salt_witness :
  V2.effective_timestamp 1700000000000 (with_timestamp (Int 0) stdio_config)
  = JNum (Int 1700000000000).
Proof.
  apply (C10_zero_salt_is_absent_salt 1700000000000
           (with_timestamp (Int 0) stdio_config)).
  reflexivity.
Defined.

End SessionIdFacts.

(* ================================================================== *)
(** ** The state machine of one session                                *)
(* ================================================================== *)

Module ManagerFacts.
Import JS Session Manager Registry Samples Observe.

Lemma upd_same {A} (k : nat) (v : A) f : upd k v f k = v.
Proof. unfold upd. now rewrite Nat.eqb_refl. Qed.

Lemma upd_other {A} (k k' : nat) (v : A) f : k' <> k -> upd k v f k' = f k'.
Proof. unfold upd. intros H. apply Nat.eqb_neq in H. now rewrite H. Qed.

Ltac unfold_M :=
  unfold bind, act, get, try_catch, await, ret, throw, touch in *.

Ltac simp_heap := repeat (cbn in *; rewrite ?upd_same in * ).

Lemma remove_timer_gone (id : timerId) (l : list (timerId * ref)) :
  ~ In id (map fst (remove_timer id l)).
Proof.
  induction l as [|[id' r] l IH]; cbn; [tauto|].
  destruct (Nat.eqb_spec id id'); cbn; [assumption|].
  intros [H|H]; [congruence | tauto].
Qed.

(** [cleanup] is [cleanup_begin] followed, when a close is awaited, by
    [cleanup_resume]. *)
Lemma cleanup_split (env : environment) (this : ref) (w : world) :
  cleanup env this w =
  match cleanup_begin this w with
  | (Some t, w1) => cleanup_resume this (close_result env t) w1
  | (None, w1) => (Returned tt, w1)
  end.
Proof.
  unfold cleanup, cleanup_begin, cleanup_resume. unfold_M. cbn.
  destruct (transport (heap (clear_cleanupTimer this (emit (CleanupCalled this) w)) this)).
  - destruct (close_result env t); reflexivity.
  - reflexivity.
Qed.

Lemma cleanup_returns (env : environment) (this : ref) (w : world) :
  fst (cleanup env this w) = Returned tt.
Proof.
  unfold cleanup. unfold_M. cbn.
  destruct (transport _); [destruct (close_result _ _)|]; reflexivity.
Qed.

Lemma cleanup_resume_returns (this : ref) (r : option error) (w : world) :
  fst (cleanup_resume this r w) = Returned tt.
Proof. unfold cleanup_resume. unfold_M. destruct r; reflexivity. Qed.

Lemma cleanup_effect (env : environment) (this : ref) (w : world) :
  let w1 := snd (cleanup env this w) in
  heap w1 this = cleared (heap w this)
  /\ (forall r, r <> this -> heap w1 r = heap w r)
  /\ timers w1 = match cleanupTimer (heap w this) with
                 | Some id => remove_timer id (timers w)
                 | None => timers w
                 end
  /\ trace w1 = cleanup_events env this (heap w this) ++ trace w
  /\ instances w1 = instances w /\ clock w1 = clock w
  /\ promises w1 = promises w /\ nextPromise w1 = nextPromise w
  /\ nextClient w1 = nextClient w /\ onerror w1 = onerror w
  /\ nextTimer w1 = nextTimer w /\ nextRef w1 = nextRef w.
Proof.
  unfold cleanup, cleanup_events, clear_cleanupTimer, cleanup_finish, modify, emit.
  unfold_M. simp_heap.
  remember (heap w this) as m eqn:Em.
  destruct m as [c tr ic cp lu sid ti]. simp_heap.
  destruct ti as [id|]; simp_heap; rewrite <- ?Em; simp_heap;
    (destruct tr as [t|]; simp_heap; rewrite <- ?Em; simp_heap;
     [destruct (close_result env t) as [e|]; simp_heap; rewrite <- ?Em; simp_heap|]);
    repeat match goal with |- _ /\ _ => split end;
    try reflexivity;
    intros r Hr; now rewrite ?upd_other by assumption.
Qed.

Arguments cleanup : simpl never.

Lemma cleanup_same (env : environment) (this : ref) (w : world) :
  let w1 := snd (cleanup env this w) in
  same_registry w w1 /\ same_promises w w1
  /\ nextClient w1 = nextClient w /\ onerror w1 = onerror w.
Proof.
  destruct (cleanup_effect env this w) as (_ & _ & _ & _ & ? & ? & ? & ? & ? & ? & ? & ?).
  unfold same_registry, same_promises. tauto.
Qed.

(** What [doConnect] does, by the outcome of the handshake of the client it
    builds. *)
Lemma doConnect_effect (env : environment) (this : ref) (t : transportId) (w : world) :
  let w1 := snd (cleanup env this w) in
  let c := nextClient w in
  let r := doConnect env this t w in
  let w2 := snd r in
  match connect_result env c t with
  | None =>
      fst r = Returned tt
      /\ heap w2 this = connected_with c t (heap w this)
      /\ trace w2 = [ConsoleLog (msg_connected (sessionId (heap w this)));
                     ClientConnect c t; NewClient c] ++ trace w1
  | Some e =>
      fst r = Thrown (Error (msg_connect_failed (sessionId (heap w this)) e))
      /\ heap w2 this = cleared (heap w this)
      /\ trace w2 = [ClientConnect c t; NewClient c] ++ trace w1
  end
  /\ (forall r', r' <> this -> heap w2 r' = heap w r')
  /\ timers w2 = timers w1
  /\ same_registry w w2 /\ same_promises w w2
  /\ nextClient w2 = S c
  /\ onerror w2 = upd t (Some this) (onerror w).
Proof.
  intros w1 c r w2. subst r w2.
  destruct (cleanup_effect env this w) as (Hh & Ho & Hti & Htr & Hrest).
  destruct (cleanup_same env this w) as ((Hi & Hc & Hr) & (Hp & Hnp) & Hnc & Hoe).
  pose proof (cleanup_returns env this w) as Hret.
  unfold doConnect, doConnect_handshake, doConnect_connected, doConnect_catch,
    new_Client, install_onerror, modify, emit. unfold_M.
  fold w1 in Hh, Ho, Hti, Htr, Hi, Hc, Hr, Hp, Hnp, Hnc, Hoe.
  destruct (cleanup env this w) as [r1 w1'] eqn:E. cbn [fst snd] in *.
  subst w1 r1. unfold same_registry, same_promises.
  rewrite Hnc. fold c.
  destruct (connect_result env c t) as [e|]; simp_heap;
    rewrite ?Hh, ?Hi, ?Hc, ?Hr, ?Hp, ?Hnp, ?Hoe; simp_heap;
    repeat match goal with |- _ /\ _ => split end; try reflexivity;
    intros r' Hr'; rewrite ?upd_other by assumption; now apply Ho.
Qed.

Arguments doConnect : simpl never.

(** What the last part of [connect] does on a session that is to be
    connected afresh. *)
Lemma connect_fresh_effect (env : environment) (this : ref) (t : transportId)
    (w : world) :
  let c := nextClient w in
  let p := nextPromise w in
  let r := connect_fresh env this t w in
  let w3 := snd r in
  match connect_result env c t with
  | None =>
      fst r = Returned (Some c)
      /\ heap w3 this
         = set_lastUsed (clock w)
             (set_connectionPromise None (connected_with c t (heap w this)))
      /\ promises w3 p = Fulfilled
  | Some e =>
      let err := Error (msg_connect_failed (sessionId (heap w this)) e) in
      fst r = Thrown err
      /\ heap w3 this = set_connectionPromise (Some p) (cleared (heap w this))
      /\ promises w3 p = Rejected err
  end
  /\ (forall r', r' <> this -> heap w3 r' = heap w r')
  /\ (forall p', p' <> p -> promises w3 p' = promises w p')
  /\ trace w3 = trace (snd (doConnect env this t w))
  /\ timers w3 = timers (snd (cleanup env this w))
  /\ same_registry w w3
  /\ nextClient w3 = S c /\ nextPromise w3 = S p.
Proof.
  intros c p r w3. subst r w3.
  pose proof (doConnect_effect env this t w) as H. cbv zeta in H. fold c in H.
  unfold connect_fresh, call_doConnect, new_promise, connect_finish, await_promise,
    modify, emit. unfold_M.
  destruct (doConnect env this t w) as [rd w2] eqn:E. cbn [fst snd] in *.
  unfold same_registry, same_promises in *.
  destruct (connect_result env c t) as [e|];
    destruct H as ((-> & Hh & Htr) & Ho & Hti & (Hi & Hc & Hr) & (Hp & Hnp) & Hnc & Hoe);
    simp_heap; rewrite ?Hnp; fold p; simp_heap; rewrite ?Hh; simp_heap;
    rewrite ?Hi, ?Hc, ?Hr, ?Hp, ?Hnp, ?Hnc; simp_heap;
    repeat match goal with |- _ /\ _ => split end; try reflexivity;
    try (intros r' Hr'; rewrite ?upd_other by assumption; now apply Ho);
    try (intros p' Hp'; now rewrite ?upd_other by assumption);
    try assumption.
Qed.

Lemma connect_unconnected (ver : version) (env : environment) (this : ref)
    (t : transportId) (w : world) :
  isSessionConnected this w = false ->
  connectionPromise (heap w this) = None ->
  connect ver env this t w = connect_fresh env this t w.
Proof.
  intros Hc Hp. unfold connect, connect_cached, connect_shared. unfold_M.
  rewrite Hc. cbn. rewrite Hp. reflexivity.
Qed.

Lemma getClient_eq (env : environment) (this : ref) (w : world) :
  getClient env this w = getClient_cases env this w.
Proof.
  unfold getClient, getClient_cases, validateConnection, after_failed_probe.
  unfold_M. destruct (isSessionConnected this w); [|reflexivity].
  destruct (client (heap w this)) as [c|] eqn:Ec; [|reflexivity].
  destruct (transport (heap w this)) as [tr|]; [|reflexivity].
  destruct (listTools_result env c) as [e|]; [reflexivity|].
  unfold modify. simp_heap. now rewrite Ec.
Qed.

(** C6: [cleanup] never throws, whatever the close does; a failed close is
    reported on the console only; afterwards the session is disconnected,
    holds neither client nor transport, and its timer is cancelled; a second
    call right after changes no field of any session, no timer, closes
    nothing and does not throw. *)
Theorem C6_cleanup_idempotent :
  forall (env env' : environment) (this : ref) (w : world),
    let r1 := cleanup env this w in
    let w1 := snd r1 in
    let r2 := cleanup env' this w1 in
    let w2 := snd r2 in
    fst r1 = Returned tt /\ fst r2 = Returned tt
    /\ isConnected (heap w1 this) = false
    /\ client (heap w1 this) = None
    /\ transport (heap w1 this) = None
    /\ cleanupTimer (heap w1 this) = None
    /\ (forall id, cleanupTimer (heap w this) = Some id ->
          ~ In id (map fst (timers w1)))
    /\ (forall t e, transport (heap w this) = Some t ->
          close_result env t = Some e ->
          In (ConsoleError (msg_close_error (sessionId (heap w this))) (Some e))
             (trace w1))
    /\ (exists evs, trace w1 = evs ++ trace w /\
          filter is_close evs =
          match transport (heap w this) with
          | Some t => [TransportClose t]
          | None => []
          end)
    /\ (forall r, heap w2 r = heap w1 r)
    /\ timers w2 = timers w1
    /\ instances w2 = instances w1
    /\ trace w2 = [ConsoleLog (msg_cleaned_up (sessionId (heap w this)));
                   CleanupCalled this] ++ trace w1.
Proof.
  intros env env' this w r1 w1 r2 w2.
  destruct (cleanup_effect env this w)
    as (Hh & Ho & Hti & Htr & Hin & _).
  destruct (cleanup_effect env' this w1)
    as (Hh2 & Ho2 & Hti2 & Htr2 & Hin2 & _).
  fold r1 w1 in Hh, Ho, Hti, Htr, Hin, Hh2, Ho2, Hti2, Htr2.
  fold r2 w2 in Hh2, Ho2, Hti2, Htr2, Hin2.
  split; [apply cleanup_returns|]. split; [apply cleanup_returns|].
  rewrite Hh. cbn [cleared isConnected client transport cleanupTimer].
  repeat match goal with |- _ /\ _ => split end; try reflexivity.
  - intros id Hid. rewrite Hti, Hid. apply remove_timer_gone.
  - intros t e Ht He. rewrite Htr. unfold cleanup_events. rewrite Ht, He.
    cbn. auto.
  - exists (cleanup_events env this (heap w this)). split; [exact Htr|].
    unfold cleanup_events.
    destruct (transport (heap w this)) as [t|];
      [destruct (close_result env t)|];
      destruct (cleanupTimer (heap w this)); reflexivity.
  - intros r. destruct (Nat.eq_dec r this) as [->|Hr].
    + rewrite Hh2, Hh. reflexivity.
    + now apply Ho2.
  - rewrite Hti2, Hh. reflexivity.
  - exact Hin2.
  - rewrite Htr2, Hh. reflexivity.
Qed.

Lemma C6_cleanup_idempotent_witness :
  fst (cleanup broken 0%nat (world_connected V2)) = Returned tt
  /\ In (ConsoleError (msg_close_error sid_a) (Some (Error (lit "close failed"))))
        (trace (snd (cleanup broken 0%nat (world_connected V2))))
  /\ fst (cleanup broken 0%nat (snd (cleanup broken 0%nat (world_connected V2))))
     = Returned tt.
Proof.
  destruct (C6_cleanup_idempotent broken broken 0%nat (world_connected V2))
    as (H1 & H2 & _ & _ & _ & _ & _ & H3 & _).
  split; [exact H1|]. split; [|exact H2].
  assert (sessionId (heap (world_connected V2) 0%nat) = sid_a) as Hs
    by (vm_compute; reflexivity).
  rewrite <- Hs. apply (H3 7%nat).
  - vm_compute. reflexivity.
  - reflexivity.
Defined.

Lemma cleanup_events_no_NewClient (env : environment) (this : ref)
    (m : McpSessionManager) :
  filter is_NewClient (cleanup_events env this m) = [].
Proof.
  unfold cleanup_events.
  destruct (transport m) as [t|]; [destruct (close_result env t)|];
    destruct (cleanupTimer m); reflexivity.
Qed.

Lemma after_failed_probe_effect (this : ref) (w : world) :
  let w' := after_failed_probe this w in
  isSessionConnected this w' = false
  /\ connectionPromise (heap w' this) = connectionPromise (heap w this)
  /\ sessionId (heap w' this) = sessionId (heap w this)
  /\ transport (heap w' this) = transport (heap w this)
  /\ client (heap w' this) = None
  /\ nextClient w' = nextClient w /\ nextPromise w' = nextPromise w
  /\ trace w' = ConsoleLog (msg_getClient_failed (sessionId (heap w this))) :: trace w.
Proof.
  unfold after_failed_probe, isSessionConnected, modify, emit. simp_heap.
  repeat split.
Qed.

(** [getClient] of [part_000] and the [connect] that follows a failed
    probe, on a session that records no attempt. *)
Lemma getClient_then_connect :
  forall (env : environment) (this : ref) (w : world),
    let r := getClient env this w in
    let w' := snd r in
    (exists v, fst r = Returned v)
    /\ (exists evs, trace w' = evs ++ trace w /\ forallb is_passive evs = true)
    /\ nextClient w' = nextClient w
    /\ (isSessionConnected this w = false -> fst r = Returned None /\ w' = w)
    /\ (probe_fails env this w ->
          fst r = Returned None
          /\ isSessionConnected this w' = false
          /\ forall (env2 : environment) (t2 : transportId),
                connectionPromise (heap w this) = None ->
                let r2 := connect V2 env2 this t2 w' in
                let c2 := nextClient w in
                (exists evs, trace (snd r2) = evs ++ trace w' /\
                             filter is_NewClient evs = [NewClient c2])
                /\ match connect_result env2 c2 t2 with
                   | None =>
                       fst r2 = Returned (Some c2)
                       /\ isSessionConnected this (snd r2) = true
                       /\ client (heap (snd r2) this) = Some c2
                   | Some e => exists err, fst r2 = Thrown err
                   end
                /\ (forall c, client (heap w this) = Some c ->
                              (c < nextClient w)%nat ->
                              fst r2 <> Returned (Some c))).
Proof.
  intros env this w r w'. subst r w'. rewrite getClient_eq.
  assert (forall w0,
             trace w0 = trace w \/ (exists c, trace w0 = ListTools c :: trace w) ->
             nextClient w0 = nextClient w ->
             exists evs, trace (after_failed_probe this w0) = evs ++ trace w /\
                         forallb is_passive evs = true) as Hpassive.
  { intros w0 [Ht|[c Ht]] _;
      destruct (after_failed_probe_effect this w0) as (_ & _ & _ & _ & _ & _ & _ & Htr);
      cbv zeta in Htr; rewrite Htr, Ht.
    - now exists [ConsoleLog (msg_getClient_failed (sessionId (heap w0 this)))].
    - now exists [ConsoleLog (msg_getClient_failed (sessionId (heap w0 this)));
                  ListTools c]. }
  assert (forall w0,
             heap w0 = heap w -> nextClient w0 = nextClient w ->
             nextPromise w0 = nextPromise w ->
             forall (env2 : environment) (t2 : transportId),
               connectionPromise (heap w this) = None ->
               let w' := after_failed_probe this w0 in
               let r2 := connect V2 env2 this t2 w' in
               let c2 := nextClient w in
               (exists evs, trace (snd r2) = evs ++ trace w' /\
                            filter is_NewClient evs = [NewClient c2])
               /\ match connect_result env2 c2 t2 with
                  | None =>
                      fst r2 = Returned (Some c2)
                      /\ isSessionConnected this (snd r2) = true
                      /\ client (heap (snd r2) this) = Some c2
                  | Some e => exists err, fst r2 = Thrown err
                  end
               /\ (forall c, client (heap w this) = Some c ->
                             (c < nextClient w)%nat ->
                             fst r2 <> Returned (Some c))) as Hnext.
  { intros w0 Hheap Hnc Hnp env2 t2 Hcp w' r2 c2. subst r2.
    destruct (after_failed_probe_effect this w0)
      as (Hdis & Hcp' & _ & _ & _ & Hnc' & _ & _).
    fold w' in Hdis, Hcp', Hnc'. rewrite Hheap in Hcp'.
    rewrite connect_unconnected by congruence.
    pose proof (connect_fresh_effect env2 this t2 w') as H. cbv zeta in H.
    pose proof (doConnect_effect env2 this t2 w') as Hd. cbv zeta in Hd.
    destruct (cleanup_effect env2 this w') as (_ & _ & _ & Hctr & _).
    rewrite Hnc', Hnc in H, Hd. fold c2 in H, Hd.
    destruct H as (H1 & _ & _ & Htr & _).
    split; [|split].
    - rewrite Htr.
      destruct (connect_result env2 c2 t2) as [e|];
        destruct Hd as ((_ & _ & Hdtr) & _); rewrite Hdtr, Hctr;
        eexists; (split; [rewrite app_assoc; reflexivity|]);
        rewrite filter_app, cleanup_events_no_NewClient; reflexivity.
    - destruct (connect_result env2 c2 t2) as [e|].
      + destruct H1 as (-> & _). eauto.
      + destruct H1 as (-> & Hh & _). unfold isSessionConnected.
        rewrite Hh. cbn. auto.
    - intros c Hc Hlt.
      destruct (connect_result env2 c2 t2) as [e|];
        destruct H1 as (-> & _); [discriminate|].
      intros [= E]. unfold c2 in E. lia. }
  unfold getClient_cases, probe_fails.
  destruct (isSessionConnected this w) eqn:Econ.
  - destruct (client (heap w this)) as [c|] eqn:Ec;
      [destruct (transport (heap w this)) as [tr|] eqn:Etr;
       [destruct (listTools_result env c) as [e|] eqn:El|]|]; cbn [fst snd].
    + split; [eauto|]. split; [apply Hpassive; cbn; eauto|].
      split; [reflexivity|]. split; [discriminate|].
      intros _. split; [reflexivity|].
      split; [apply (proj1 (after_failed_probe_effect _ _))|].
      now apply Hnext.
    + split; [eauto|]. split; [now exists [ListTools c]|].
      split; [reflexivity|]. split; [discriminate|].
      intros [_ [[=]|(c' & e' & [= <-] & He)]]. congruence.
    + split; [eauto|]. split; [apply Hpassive; cbn; eauto|].
      split; [reflexivity|]. split; [discriminate|].
      intros _. split; [reflexivity|].
      split; [apply (proj1 (after_failed_probe_effect _ _))|].
      now apply Hnext.
    + unfold isSessionConnected in Econ. rewrite Ec, andb_false_r in Econ.
      discriminate.
  - cbn [fst snd]. split; [eauto|]. split; [now exists []|].
    split; [reflexivity|]. split; [auto|]. intros [[=] _].
Qed.

End ManagerFacts.

(* ================================================================== *)
(** ** A disconnected session and its resource                         *)
(* ================================================================== *)

Module InvariantFacts.
Import JS Session Manager Registry Samples Observe ManagerFacts.

Ltac unfold_M :=
  unfold bind, act, get, try_catch, await, ret, throw, touch in *.

Ltac simp_heap := repeat (cbn in *; rewrite ?upd_same in * ).

Lemma preserves_bind {A B} (I : world -> Prop) (m : M A) (k : A -> M B) :
  preserves I m -> (forall a, preserves I (k a)) -> preserves I (bind m k).
Proof.
  intros Hm Hk w Hw. unfold bind. specialize (Hm w Hw).
  destruct (m w) as [[a|e|] w']; cbn in *; [now apply Hk | assumption | assumption].
Qed.

Lemma preserves_ret {A} (I : world -> Prop) (a : A) : preserves I (ret a).
Proof. now intros w Hw. Qed.

(** Updating one session with a function that keeps [holds_no_client]. *)
Lemma modify_no_stale_client (this : ref)
    (f : McpSessionManager -> McpSessionManager) (w : world) :
  (holds_no_client (heap w this) -> holds_no_client (f (heap w this))) ->
  no_stale_client w -> no_stale_client (modify this f w).
Proof.
  intros Hf Hw r. unfold modify. cbn. destruct (Nat.eq_dec r this) as [->|Hr].
  - rewrite upd_same. apply Hf, Hw.
  - rewrite upd_other by assumption. apply Hw.
Qed.

Lemma same_heap_no_stale_client (w w' : world) :
  heap w' = heap w -> no_stale_client w -> no_stale_client w'.
Proof. intros E Hw r. rewrite E. apply Hw. Qed.

(** A world that differs from a good one in one session only. *)
Lemma one_session_no_stale_client (this : ref) (w w' : world) :
  (forall r, r <> this -> heap w' r = heap w r) ->
  holds_no_client (heap w' this) ->
  no_stale_client w -> no_stale_client w'.
Proof.
  intros Ho Ht Hw r. destruct (Nat.eq_dec r this) as [->|Hr]; [assumption|].
  rewrite Ho by assumption. apply Hw.
Qed.

Lemma cleanup_no_stale_client (env : environment) (this : ref) :
  preserves no_stale_client (cleanup env this).
Proof.
  intros w Hw. destruct (cleanup_effect env this w) as (Hh & Ho & _).
  apply (one_session_no_stale_client this w); [assumption| |assumption].
  rewrite Hh. now intros _.
Qed.

Lemma clear_cleanupTimer_no_stale_client (this : ref) (w : world) :
  no_stale_client w -> no_stale_client (clear_cleanupTimer this w).
Proof.
  intros Hw. unfold clear_cleanupTimer.
  destruct (cleanupTimer (heap w this)); [|assumption].
  apply modify_no_stale_client; [|exact Hw]. auto.
Qed.

(** For a world written as updates of session [this] of [w]. *)
Ltac one_session this w :=
  apply (one_session_no_stale_client this w);
  [ intros ? ?; unfold modify, emit; cbn; now rewrite ?upd_other by assumption
  | unfold modify, emit, holds_no_client; cbn; rewrite ?upd_same; cbn;
    try (intros _; reflexivity)
  | try assumption ].

Lemma cleanup_finish_no_stale_client (this : ref) (w : world) :
  no_stale_client w -> no_stale_client (cleanup_finish this w).
Proof. intros Hw. unfold cleanup_finish. one_session this w. Qed.

Lemma cleanup_begin_no_stale_client (this : ref) (w : world) :
  no_stale_client w -> no_stale_client (snd (cleanup_begin this w)).
Proof.
  intros Hw. unfold cleanup_begin.
  assert (no_stale_client (clear_cleanupTimer this (emit (CleanupCalled this) w))) as H
    by (apply clear_cleanupTimer_no_stale_client; exact Hw).
  destruct (transport _); cbn [snd].
  - exact H.
  - now apply cleanup_finish_no_stale_client.
Qed.

Lemma cleanup_resume_no_stale_client (this : ref) (r : option error) :
  preserves no_stale_client (cleanup_resume this r).
Proof.
  intros w Hw. unfold cleanup_resume. unfold_M.
  destruct r as [e|]; cbn [fst snd];
    apply cleanup_finish_no_stale_client;
    (apply modify_no_stale_client; [now intros H|]); exact Hw.
Qed.

Lemma getClientSync_no_stale_client (this : ref) :
  preserves no_stale_client (getClientSync this).
Proof.
  intros w Hw. unfold getClientSync. unfold_M.
  destruct (isSessionConnected this w); cbn [snd]; [|exact Hw].
  apply modify_no_stale_client; [now intros H|exact Hw].
Qed.

Lemma after_failed_probe_no_stale_client (this : ref) (w : world) :
  no_stale_client w -> no_stale_client (after_failed_probe this w).
Proof. intros Hw. unfold after_failed_probe. one_session this w. Qed.

Lemma getClient_no_stale_client (env : environment) (this : ref) :
  preserves no_stale_client (getClient env this).
Proof.
  intros w Hw. rewrite getClient_eq. unfold getClient_cases.
  destruct (isSessionConnected this w); [|exact Hw].
  destruct (client (heap w this)) as [c|];
    [destruct (transport (heap w this));
     [destruct (listTools_result env c)|]|]; cbn [snd];
    try (apply after_failed_probe_no_stale_client; try exact Hw;
         intros r; apply Hw).
  one_session this w. apply Hw.
Qed.

Lemma connect_cached_no_stale_client (ver : version) (env : environment)
    (this : ref) :
  preserves no_stale_client (connect_cached ver env this).
Proof.
  intros w Hw. unfold connect_cached, validateConnection. unfold_M.
  destruct (isSessionConnected this w); [|exact Hw].
  destruct ver.
  - cbn [snd]. one_session this w. apply Hw.
  - destruct (client (heap w this)) as [c|];
      [destruct (transport (heap w this));
       [destruct (listTools_result env c)|]|]; cbn [snd];
      one_session this w; apply Hw.
Qed.

Lemma connect_recheck_no_stale_client (this : ref) :
  preserves no_stale_client (connect_recheck this).
Proof.
  intros w Hw. unfold connect_recheck. unfold_M.
  destruct (isSessionConnected this w); cbn [snd]; [|exact Hw].
  one_session this w. apply Hw.
Qed.

Lemma connect_shared_no_stale_client (this : ref) :
  preserves no_stale_client (connect_shared this).
Proof.
  intros w Hw. unfold connect_shared, await_promise. unfold bind at 1. unfold get.
  destruct (connectionPromise (heap w this)) as [p|]; [|exact Hw].
  unfold bind. destruct (promises w p); cbn [snd]; try exact Hw.
  now apply connect_recheck_no_stale_client.
Qed.

Lemma connect_fresh_no_stale_client (env : environment) (this : ref)
    (t : transportId) :
  preserves no_stale_client (connect_fresh env this t).
Proof.
  intros w Hw. pose proof (connect_fresh_effect env this t w) as H. cbv zeta in H.
  destruct H as (H & Ho & _).
  apply (one_session_no_stale_client this w); [exact Ho| |exact Hw].
  destruct (connect_result env (nextClient w) t);
    destruct H as (_ & -> & _); now intros H.
Qed.

Lemma connect_no_stale_client (ver : version) (env : environment) (this : ref)
    (t : transportId) :
  preserves no_stale_client (connect ver env this t).
Proof.
  unfold connect. apply preserves_bind; [apply connect_cached_no_stale_client|].
  intros [v|]; [apply preserves_ret|].
  apply preserves_bind; [apply connect_shared_no_stale_client|].
  intros [v|]; [apply preserves_ret|]. apply connect_fresh_no_stale_client.
Qed.

Lemma startCleanupTimer_no_stale_client (this : ref) (w : world) :
  no_stale_client w -> no_stale_client (startCleanupTimer this w).
Proof.
  intros Hw. unfold startCleanupTimer. one_session this w. apply Hw.
Qed.

Lemma sweep_one_no_stale_client (acc : list pending_cleanup * world)
    (sid : jsstring) :
  no_stale_client (snd acc) -> no_stale_client (snd (sweep_one acc sid)).
Proof.
  destruct acc as [pending w]. cbn [snd]. intros Hw. unfold sweep_one.
  destruct (Map_get sid (instances w)) as [instance|]; [|exact Hw].
  pose proof (cleanup_begin_no_stale_client instance w Hw) as H.
  destruct (cleanup_begin instance w) as [tr w1]. cbn [snd] in *.
  intros r. apply H.
Qed.

Lemma fold_sweep_one_no_stale_client (sids : list jsstring)
    (acc : list pending_cleanup * world) :
  no_stale_client (snd acc) ->
  no_stale_client (snd (fold_left sweep_one sids acc)).
Proof.
  revert acc. induction sids as [|sid sids IH]; intros acc Hacc; cbn.
  - exact Hacc.
  - apply IH. now apply sweep_one_no_stale_client.
Qed.

Lemma checkAndCleanupExpiredSessions_no_stale_client (this : ref) (w : world) :
  no_stale_client w ->
  no_stale_client (snd (checkAndCleanupExpiredSessions this w)).
Proof.
  intros Hw. unfold checkAndCleanupExpiredSessions.
  pose proof (fold_sweep_one_no_stale_client
                (map fst (filter (is_expired (clock w) w) (instances w)))
                ([], w) Hw) as H.
  destruct (fold_left sweep_one _ _) as [pending w1]. cbn [snd] in *.
  destruct (0 <? _); [now apply startCleanupTimer_no_stale_client | exact H].
Qed.

Lemma settle_cleanup_no_stale_client (env : environment) (p : pending_cleanup) :
  preserves no_stale_client (settle_cleanup env p).
Proof.
  intros w Hw. unfold settle_cleanup, try_catch.
  pose proof (cleanup_resume_no_stale_client (pc_instance p)
                (close_result env (pc_transport p)) w Hw) as H.
  pose proof (cleanup_resume_returns (pc_instance p)
                (close_result env (pc_transport p)) w) as Hr.
  destruct (cleanup_resume _ _ w) as [r w1]. cbn [fst snd] in *. now subst r.
Qed.

Lemma run_each_no_stale_client (ks : list (M unit)) :
  Forall (preserves no_stale_client) ks ->
  forall w, no_stale_client w -> no_stale_client (snd (run_each ks w)).
Proof.
  induction 1 as [|k ks Hk _ IH]; intros w Hw; cbn; [exact Hw|].
  specialize (Hk w Hw). destruct (k w) as [r w1]. cbn [snd] in Hk.
  specialize (IH w1 Hk). destruct (run_each ks w1) as [rs w2]. exact IH.
Qed.

Lemma sweep_no_stale_client (env : environment) (this : ref) (w : world) :
  no_stale_client w -> no_stale_client (snd (sweep env this w)).
Proof.
  intros Hw. unfold sweep.
  pose proof (checkAndCleanupExpiredSessions_no_stale_client this w Hw) as H.
  destruct (checkAndCleanupExpiredSessions this w) as [pending w1].
  apply run_each_no_stale_client; [|exact H].
  apply Forall_forall. intros k Hk. apply in_map_iff in Hk.
  destruct Hk as (p & <- & _). apply settle_cleanup_no_stale_client.
Qed.




End InvariantFacts.

(* ================================================================== *)
(** ** The idle sweep and the bulk shutdown                            *)
(* ================================================================== *)

Module RegistryFacts.
Import JS Session Manager Registry Samples Observe JSFacts ManagerFacts.

Ltac unfold_M :=
  unfold bind, act, get, try_catch, await, ret, throw, touch in *.

Lemma jsstring_eqb_eq (a b : jsstring) : jsstring_eqb a b = true <-> a = b.
Proof.
  unfold jsstring_eqb. destruct (list_eq_dec Z.eq_dec a b); split; congruence.
Qed.

Lemma jsstring_eqb_neq (a b : jsstring) : jsstring_eqb a b = false <-> a <> b.
Proof.
  unfold jsstring_eqb. destruct (list_eq_dec Z.eq_dec a b); split; congruence.
Qed.

(** *** The [Map] operations *)

Lemma Map_get_in (k : jsstring) (v : ref) (m : list (jsstring * ref)) :
  distinct_keys m -> In (k, v) m -> Map_get k m = Some v.
Proof.
  unfold distinct_keys. induction m as [|[k' v'] m IH]; cbn; [tauto|].
  intros Hnd [E|Hin]; inversion Hnd as [|? ? Hnotin Hnd']; subst.
  - injection E as -> ->. now rewrite jsstring_eqb_refl.
  - destruct (jsstring_eqb k k') eqn:E.
    + apply jsstring_eqb_eq in E. subst k'. exfalso. apply Hnotin.
      apply in_map_iff. now exists (k, v).
    + now apply IH.
Qed.

Lemma Map_get_none (k : jsstring) (m : list (jsstring * ref)) :
  Map_get k m = None -> Map_delete k m = m.
Proof.
  induction m as [|[k' v'] m IH]; cbn; [reflexivity|].
  destruct (jsstring_eqb k k'); [discriminate|]. cbn. intros H.
  f_equal. exact (IH H).
Qed.

Lemma Map_get_delete_other (k k' : jsstring) (m : list (jsstring * ref)) :
  k <> k' -> Map_get k (Map_delete k' m) = Map_get k m.
Proof.
  intros Hne. unfold Map_delete.
  induction m as [|[k0 v0] m IH]; cbn; [reflexivity|].
  destruct (jsstring_eqb k' k0) eqn:E; cbn.
  - apply jsstring_eqb_eq in E. subst k0.
    apply jsstring_eqb_neq in Hne. now rewrite Hne.
  - now rewrite IH.
Qed.

Lemma delete_all_filter (ks : list jsstring) (m : list (jsstring * ref)) :
  delete_all ks m
  = filter (fun kv => negb (existsb (fun k => jsstring_eqb k (fst kv)) ks)) m.
Proof.
  unfold delete_all. revert m. induction ks as [|k ks IH]; intros m; cbn.
  - induction m as [|kv m IHm]; cbn; [reflexivity|]. now rewrite <- IHm.
  - rewrite IH. unfold Map_delete. clear IH.
    induction m as [|kv m IHm]; cbn; [reflexivity|].
    destruct (jsstring_eqb k (fst kv)); cbn; [exact IHm|].
    destruct (existsb _ ks); cbn; [exact IHm|]. now rewrite IHm.
Qed.

(** With distinct keys, deleting the keys of the entries that satisfy [f]
    keeps exactly the entries that do not. *)
Lemma delete_selected (f : jsstring * ref -> bool) (m : list (jsstring * ref)) :
  distinct_keys m ->
  delete_all (map fst (filter f m)) m = filter (fun kv => negb (f kv)) m.
Proof.
  intros Hnd. rewrite delete_all_filter. apply filter_ext_in.
  intros [k v] Hin. f_equal. cbn [fst].
  destruct (f (k, v)) eqn:Ef.
  - apply existsb_exists. exists k. split; [|apply jsstring_eqb_refl].
    apply in_map_iff. exists (k, v). split; [reflexivity|].
    apply filter_In. now split.
  - destruct (existsb _ _) eqn:Ex; [|reflexivity]. exfalso.
    apply existsb_exists in Ex. destruct Ex as (k' & Hk' & E).
    apply jsstring_eqb_eq in E. subst k'.
    apply in_map_iff in Hk'. destruct Hk' as ([k2 v2] & E2 & Hin2). cbn in E2.
    subst k2. apply filter_In in Hin2. destruct Hin2 as [Hin2 Hf2].
    assert (v2 = v) as ->.
    { pose proof (Map_get_in k v m Hnd Hin) as G1.
      pose proof (Map_get_in k v2 m Hnd Hin2) as G2. congruence. }
    congruence.
Qed.

Lemma distinct_keys_delete (k : jsstring) (m : list (jsstring * ref)) :
  distinct_keys m -> distinct_keys (Map_delete k m).
Proof.
  unfold distinct_keys, Map_delete. induction m as [|[k' v'] m IH]; cbn.
  - trivial.
  - intros Hnd. inversion Hnd as [|? ? Hnotin Hnd']; subst.
    destruct (jsstring_eqb k k'); cbn; [now apply IH|].
    constructor; [|now apply IH].
    intros Hin. apply Hnotin. apply in_map_iff in Hin.
    destruct Hin as (kv & E & Hin). apply filter_In in Hin.
    apply in_map_iff. exists kv. tauto.
Qed.

Lemma in_delete_other (k k' : jsstring) (v : ref) (m : list (jsstring * ref)) :
  k <> k' -> In (k, v) m -> In (k, v) (Map_delete k' m).
Proof.
  intros Hne Hin. apply filter_In. split; [assumption|]. cbn.
  apply negb_true_iff, jsstring_eqb_neq. congruence.
Qed.

Lemma remove_timer_incl (id : timerId) (l : list (timerId * ref)) :
  incl (remove_timer id l) l.
Proof.
  induction l as [|[id' r] l IH]; cbn; [apply incl_refl|].
  destruct (Nat.eqb id id').
  - now apply incl_tl.
  - apply incl_cons; [now left|]. now apply incl_tl.
Qed.

(** *** One [cleanup()] up to its [await] *)

Lemma cleanup_begin_effect (this : ref) (w : world) :
  let w1 := snd (cleanup_begin this w) in
  instances w1 = instances w /\ nextTimer w1 = nextTimer w
  /\ clock w1 = clock w
  /\ incl (timers w1) (timers w)
  /\ exists evs, trace w1 = evs ++ CleanupCalled this :: trace w.
Proof.
  unfold cleanup_begin, clear_cleanupTimer, cleanup_finish, modify, emit. cbn.
  destruct (cleanupTimer (heap w this)) as [id|]; cbn; rewrite ?upd_same; cbn;
    destruct (transport (heap w this)) as [t|]; cbn;
    repeat split; try apply incl_refl; try apply remove_timer_incl;
    first [ eexists (cons _ (cons _ nil)); reflexivity
          | eexists (cons _ nil); reflexivity ].
Qed.

(** *** One step of the sweep *)

Lemma sweep_one_effect (acc : list pending_cleanup * world) (sid : jsstring) :
  let w := snd acc in
  let w1 := snd (sweep_one acc sid) in
  instances w1 = Map_delete sid (instances w)
  /\ nextTimer w1 = nextTimer w
  /\ incl (timers w1) (timers w)
  /\ (exists evs, trace w1 = evs ++ trace w)
  /\ (forall inst, Map_get sid (instances w) = Some inst ->
        exists evs1 evs2,
          trace w1 = evs2 ++ InstancesDelete sid :: evs1
                     ++ CleanupCalled inst :: trace w).
Proof.
  destruct acc as [pending w]. cbn [snd]. unfold sweep_one.
  destruct (Map_get sid (instances w)) as [inst|] eqn:G.
  - destruct (cleanup_begin_effect inst w) as (Hi & Hn & _ & Ht & evs & Htr).
    destruct (cleanup_begin inst w) as [tr w1]. cbn [snd] in *.
    unfold emit. cbn. rewrite Hi. repeat split; try assumption.
    + rewrite Htr.
      exists (ConsoleLog (msg_expired_removed sid) :: InstancesDelete sid
              :: evs ++ [CleanupCalled inst]).
      cbn. now rewrite <- app_assoc.
    + intros inst' [= <-]. exists evs, [ConsoleLog (msg_expired_removed sid)].
      cbn. now rewrite Htr.
  - cbn [snd]. rewrite (Map_get_none _ _ G).
    repeat split; try apply incl_refl; [now exists []|discriminate].
Qed.

Lemma fold_sweep_one_effect (sids : list jsstring)
    (acc : list pending_cleanup * world) :
  let w := snd acc in
  let w1 := snd (fold_left sweep_one sids acc) in
  instances w1 = delete_all sids (instances w)
  /\ nextTimer w1 = nextTimer w
  /\ incl (timers w1) (timers w)
  /\ exists evs, trace w1 = evs ++ trace w.
Proof.
  revert acc. induction sids as [|sid sids IH]; intros acc; cbn.
  - repeat split; [apply incl_refl | now exists []].
  - destruct (IH (sweep_one acc sid)) as (Hi & Hn & Ht & evs & Htr).
    destruct (sweep_one_effect acc sid) as (Hi1 & Hn1 & Ht1 & (evs1 & Htr1) & _).
    cbv zeta in *. rewrite Hi, Hi1, Hn, Hn1, Htr, Htr1.
    repeat split.
    + eapply incl_tran; eassumption.
    + exists (evs ++ evs1). now rewrite app_assoc.
Qed.

Lemma happens_before_prefix (a b : event) (pre evs : list event) :
  happens_before a b evs -> happens_before a b (pre ++ evs).
Proof.
  intros (l1 & l2 & l3 & ->). exists (pre ++ l1), l2, l3.
  now rewrite <- app_assoc.
Qed.

Lemma happens_before_suffix (a b : event) (evs post : list event) :
  happens_before a b evs -> happens_before a b (evs ++ post).
Proof.
  intros (l1 & l2 & l3 & ->). exists l1, l2, (l3 ++ post).
  rewrite <- !app_assoc. cbn. rewrite <- !app_assoc. reflexivity.
Qed.

(** Every session the second loop visits has [cleanup()] called on it
    before it is deleted from the map. *)
Lemma fold_sweep_one_order (sids : list jsstring)
    (acc : list pending_cleanup * world) (sid : jsstring) (inst : ref) :
  NoDup sids -> distinct_keys (instances (snd acc)) ->
  In sid sids -> In (sid, inst) (instances (snd acc)) ->
  exists evs,
    events_since (snd acc) (snd (fold_left sweep_one sids acc)) evs
    /\ happens_before (CleanupCalled inst) (InstancesDelete sid) evs.
Proof.
  revert acc. induction sids as [|s sids IH]; intros acc Hnd Hdk Hin Hreg;
    [contradiction|].
  cbn [fold_left]. inversion Hnd as [|? ? Hnotin Hnd']; subst.
  destruct (sweep_one_effect acc s) as (Hi1 & _ & _ & (evs1 & Htr1) & Hord).
  cbv zeta in *.
  destruct (list_eq_dec Z.eq_dec sid s) as [->|Hne].
  - destruct (Hord inst (Map_get_in _ _ _ Hdk Hreg)) as (e1 & e2 & Htr).
    destruct (fold_sweep_one_effect sids (sweep_one acc s))
      as (_ & _ & _ & evs & Hrest).
    cbv zeta in Hrest.
    exists (rev (evs ++ e2 ++ InstancesDelete s :: e1 ++ [CleanupCalled inst])).
    split.
    + unfold events_since. rewrite rev_involutive, Hrest, Htr.
      rewrite <- !app_assoc. cbn. rewrite <- !app_assoc. reflexivity.
    + exists [], (rev e1), (rev e2 ++ rev evs).
      rewrite !rev_app_distr. cbn. rewrite !rev_app_distr. cbn.
      rewrite <- !app_assoc. cbn. reflexivity.
  - destruct Hin as [E|Hin]; [congruence|].
    destruct (IH (sweep_one acc s) Hnd') as (evs & Hev & Hhb); try assumption.
    + rewrite Hi1. now apply distinct_keys_delete.
    + rewrite Hi1. now apply in_delete_other.
    + exists (rev evs1 ++ evs). split.
      * unfold events_since in *. rewrite Hev, Htr1, rev_app_distr, rev_involutive.
        now rewrite app_assoc.
      * now apply happens_before_prefix.
Qed.

(** *** Settling the pending cleanups *)

Lemma cleanup_resume_instances (this : ref) (r : option error) (w : world) :
  instances (snd (cleanup_resume this r w)) = instances w.
Proof. unfold cleanup_resume. unfold_M. destruct r; reflexivity. Qed.

Lemma settle_cleanup_effect (env : environment) (p : pending_cleanup) (w : world) :
  fst (settle_cleanup env p w) = Returned tt
  /\ instances (snd (settle_cleanup env p w)) = instances w.
Proof.
  unfold settle_cleanup, try_catch.
  pose proof (cleanup_resume_returns (pc_instance p)
                (close_result env (pc_transport p)) w) as Hr.
  pose proof (cleanup_resume_instances (pc_instance p)
                (close_result env (pc_transport p)) w) as Hi.
  destruct (cleanup_resume _ _ w) as [r w1]. cbn [fst snd] in *. now subst r.
Qed.

Lemma run_each_effect (ks : list (M unit)) :
  Forall (fun k => forall w, fst (k w) = Returned tt
                             /\ instances (snd (k w)) = instances w) ks ->
  forall w, all_returned (fst (run_each ks w))
            /\ instances (snd (run_each ks w)) = instances w.
Proof.
  induction 1 as [|k ks Hk _ IH]; intros w; cbn.
  - split; [constructor | reflexivity].
  - destruct (Hk w) as [Hr Hi]. destruct (k w) as [r w1]. cbn [fst snd] in *.
    destruct (IH w1) as [Hrs His]. destruct (run_each ks w1) as [rs w2].
    cbn [fst snd] in *. split; [now constructor | congruence].
Qed.

Lemma expired_sids_NoDup (f : jsstring * ref -> bool) (m : list (jsstring * ref)) :
  distinct_keys m -> NoDup (map fst (filter f m)).
Proof.
  unfold distinct_keys. induction m as [|kv m IH]; cbn; [constructor|].
  intros Hnd. inversion Hnd as [|? ? Hnotin Hnd']; subst.
  destruct (f kv); cbn; [|now apply IH].
  constructor; [|now apply IH].
  intros Hin. apply Hnotin. apply in_map_iff in Hin.
  destruct Hin as (kv' & E & Hin). apply filter_In in Hin.
  apply in_map_iff. exists kv'. tauto.
Qed.

(** C5: a sweep removes from [instances] exactly the sessions whose
    [lastUsed] is more than [SESSION_TIMEOUT] (30 minutes) before the time of
    the sweep; [cleanup()] is called on each of them before it is deleted;
    the sessions within the timeout stay; the timer is armed again exactly
    when the map is not empty afterwards; and whatever the closes do, no
    failure comes out of the pending cleanups and the map stays as the sweep
    left it. *)
Theorem C5_sweep_removes_exactly_expired :
  forall (env : environment) (this : ref) (w : world),
    distinct_keys (instances w) ->
    let w' := snd (checkAndCleanupExpiredSessions this w) in
    SESSION_TIMEOUT = 1800000
    /\ instances w'
       = filter (fun kv => negb (is_expired (clock w) w kv)) (instances w)
    /\ (forall sid inst,
          In (sid, inst) (instances w) ->
          (In (sid, inst) (instances w') <->
           clock w - lastUsed (heap w inst) <= SESSION_TIMEOUT))
    /\ (forall sid inst,
          In (sid, inst) (instances w) ->
          is_expired (clock w) w (sid, inst) = true ->
          exists evs,
            events_since w w' evs /\
            happens_before (CleanupCalled inst) (InstancesDelete sid) evs)
    /\ (instances w' = [] ->
          nextTimer w' = nextTimer w /\ incl (timers w') (timers w))
    /\ (instances w' <> [] ->
          nextTimer w' = S (nextTimer w)
          /\ In (nextTimer w, this) (timers w')
          /\ cleanupTimer (heap w' this) = Some (nextTimer w))
    /\ all_returned (fst (sweep env this w))
    /\ instances (snd (sweep env this w)) = instances w'.
Proof.
  intros env this w Hdk w'.
  set (sids := map fst (filter (is_expired (clock w) w) (instances w))).
  destruct (fold_sweep_one_effect sids ([], w)) as (Hi & Hn & Ht & evs0 & Htr).
  cbv zeta in Hi, Hn, Ht, Htr. cbn [snd] in Hi, Hn, Ht, Htr.
  assert (instances w'
          = filter (fun kv => negb (is_expired (clock w) w kv)) (instances w)) as Hinst.
  { subst w'. unfold checkAndCleanupExpiredSessions. fold sids.
    destruct (fold_left sweep_one sids ([], w)) as [pending w1]. cbn [snd] in *.
    assert (instances (if 0 <? Z.of_nat (List.length (instances w1))
                       then startCleanupTimer this w1 else w1) = instances w1) as ->
      by (destruct (0 <? _); reflexivity).
    rewrite Hi. unfold sids. now apply delete_selected. }
  split; [reflexivity|]. split; [exact Hinst|]. split; [|split; [|split; [|split]]].
  - intros sid inst Hin. rewrite Hinst, filter_In. unfold is_expired. cbn [snd].
    destruct (Z.gtb_spec (clock w - lastUsed (heap w inst)) SESSION_TIMEOUT);
      cbn [negb]; split.
    + intros [_ H']. discriminate H'.
    + lia.
    + intros _. assumption.
    + intros _. now split.
  - intros sid inst Hin Hexp.
    destruct (fold_sweep_one_order sids ([], w) sid inst) as (evs & Hev & Hhb).
    + now apply expired_sids_NoDup.
    + exact Hdk.
    + apply in_map_iff. exists (sid, inst). split; [reflexivity|].
      apply filter_In. now split.
    + exact Hin.
    + subst w'. unfold checkAndCleanupExpiredSessions. fold sids.
      cbn [snd] in Hev.
      destruct (fold_left sweep_one sids ([], w)) as [pending w1]. cbn [snd] in *.
      destruct (0 <? _).
      * exists (evs ++ [SetTimeout (nextTimer w1)]). split.
        -- unfold events_since in *. unfold startCleanupTimer, modify, emit. cbn.
           rewrite rev_app_distr, Hev. reflexivity.
        -- now apply happens_before_suffix.
      * now exists evs.
  - intros Hempty. subst w'. unfold checkAndCleanupExpiredSessions in *.
    fold sids in Hempty |- *.
    destruct (fold_left sweep_one sids ([], w)) as [pending w1]. cbn [snd] in *.
    destruct (instances w1) as [|kv m] eqn:E1.
    + cbn. now split.
    + exfalso. cbn in Hempty. unfold startCleanupTimer, modify, emit in Hempty.
      cbn in Hempty. congruence.
  - intros Hne. subst w'. unfold checkAndCleanupExpiredSessions in *.
    fold sids in Hne |- *.
    destruct (fold_left sweep_one sids ([], w)) as [pending w1]. cbn [snd] in *.
    destruct (instances w1) as [|kv m] eqn:E1.
    + exfalso. cbn in Hne. congruence.
    + cbn. rewrite upd_same. cbn. rewrite Hn. repeat split. now left.
  - unfold sweep. subst w'.
    destruct (checkAndCleanupExpiredSessions this w) as [pending w1]. cbn [snd].
    apply run_each_effect. apply Forall_forall. intros k Hk.
    apply in_map_iff in Hk. destruct Hk as (p & <- & _).
    intros w0. apply settle_cleanup_effect.
Qed.

Lemma C5_sweep_removes_exactly_expired_witness :
  distinct_keys (instances world_two_sessions)
  /\ instances (snd (checkAndCleanupExpiredSessions 0%nat world_two_sessions))
     = [(sid_b, 1%nat)].
Proof.
  assert (distinct_keys (instances world_two_sessions)) as Hdk.
  { unfold distinct_keys.
    assert (map fst (instances world_two_sessions) = [sid_a; sid_b]) as ->
      by (vm_compute; reflexivity).
    repeat constructor.
    - intros [H|[]]. discriminate H.
    - intros []. }
  split; [exact Hdk|].
  destruct (C5_sweep_removes_exactly_expired healthy 0%nat world_two_sessions Hdk)
    as (_ & H & _).
  rewrite H. vm_compute. reflexivity.
Defined.

(** *** Bulk shutdown *)

Lemma is_cleared_cleanup_begin (this r : ref) (w : world) :
  is_cleared (heap w r) -> is_cleared (heap (snd (cleanup_begin this w)) r).
Proof.
  unfold is_cleared, cleanup_begin, clear_cleanupTimer, cleanup_finish, modify, emit.
  intros (Hc & Ht & Hi). cbn.
  destruct (Nat.eq_dec r this) as [->|Hr].
  - destruct (cleanupTimer (heap w this)); cbn; rewrite ?upd_same; cbn;
      rewrite Ht; cbn; rewrite ?upd_same; cbn; auto.
  - destruct (cleanupTimer (heap w this)); cbn; rewrite ?upd_same; cbn;
      destruct (transport (heap w this)); cbn;
      rewrite ?upd_other by assumption; auto.
Qed.

Lemma cleanup_begin_transport (this r : ref) (w : world) :
  transport (heap (snd (cleanup_begin this w)) r) = transport (heap w r).
Proof.
  unfold cleanup_begin, clear_cleanupTimer, cleanup_finish, modify, emit. cbn.
  destruct (Nat.eq_dec r this) as [->|Hr].
  - destruct (cleanupTimer (heap w this)); cbn; rewrite ?upd_same; cbn;
      destruct (transport (heap w this)) eqn:E; cbn; rewrite ?upd_same; cbn;
      rewrite ?E; reflexivity.
  - destruct (cleanupTimer (heap w this)); cbn; rewrite ?upd_same; cbn;
      destruct (transport (heap w this)) eqn:E; cbn;
      rewrite ?upd_other by assumption; reflexivity.
Qed.

(** What one [cleanup()] does up to its [await], by the transport it finds. *)
Lemma cleanup_begin_cases (this : ref) (w : world) :
  match transport (heap w this) with
  | Some t =>
      fst (cleanup_begin this w) = Some t
      /\ In (TransportClose t) (trace (snd (cleanup_begin this w)))
  | None =>
      fst (cleanup_begin this w) = None
      /\ is_cleared (heap (snd (cleanup_begin this w)) this)
  end.
Proof.
  unfold is_cleared, cleanup_begin, clear_cleanupTimer, cleanup_finish, modify, emit.
  cbn.
  destruct (cleanupTimer (heap w this)); cbn; rewrite ?upd_same; cbn;
    destruct (transport (heap w this)) eqn:E; cbn; rewrite ?upd_same; cbn;
    rewrite ?E; auto.
Qed.

Lemma is_cleared_cleanup_resume (this r : ref) (res : option error) (w : world) :
  is_cleared (heap w r) -> is_cleared (heap (snd (cleanup_resume this res w)) r).
Proof.
  unfold is_cleared, cleanup_resume, cleanup_finish, modify, emit. unfold_M.
  intros (Hc & Ht & Hi).
  destruct (Nat.eq_dec r this) as [->|Hr];
    destruct res; cbn; rewrite ?upd_same; cbn;
    rewrite ?upd_other by assumption; auto.
Qed.

Lemma cleanup_resume_cleared (this : ref) (res : option error) (w : world) :
  is_cleared (heap (snd (cleanup_resume this res w)) this).
Proof.
  unfold is_cleared, cleanup_resume, cleanup_finish, modify, emit. unfold_M.
  destruct res; cbn; rewrite ?upd_same; cbn; auto.
Qed.

Lemma cleanup_resume_trace (this : ref) (res : option error) (w : world) :
  exists evs, trace (snd (cleanup_resume this res w)) = evs ++ trace w.
Proof.
  unfold cleanup_resume, cleanup_finish, modify, emit. unfold_M.
  destruct res; cbn;
    first [ eexists (cons _ (cons _ nil)); reflexivity
          | eexists (cons _ nil); reflexivity ].
Qed.

Lemma in_trace_extend (e : event) (evs l : list event) :
  In e l -> In e (evs ++ l).
Proof. intros H. apply in_or_app. now right. Qed.

Lemma begin_cleanups_effect (l : list (jsstring * ref)) :
  forall w,
    let ps := fst (begin_cleanups l w) in
    let w1 := snd (begin_cleanups l w) in
    instances w1 = instances w
    /\ (exists evs, trace w1 = evs ++ trace w)
    /\ (forall r, transport (heap w1 r) = transport (heap w r))
    /\ (forall r, is_cleared (heap w r) -> is_cleared (heap w1 r))
    /\ (forall sid inst,
          In (sid, inst) l ->
          In (CleanupCalled inst) (trace w1)
          /\ match transport (heap w inst) with
             | Some t => In (inst, Some t) ps /\ In (TransportClose t) (trace w1)
             | None => is_cleared (heap w1 inst)
             end).
Proof.
  induction l as [|[sid0 inst0] l IH]; intros w; cbn.
  - split; [reflexivity|]. split; [now exists []|]. split; [reflexivity|].
    split; [auto|]. intros ? ? [].
  - destruct (cleanup_begin_effect inst0 w) as (Hi & _ & _ & _ & evs0 & Htr0).
    pose proof (cleanup_begin_cases inst0 w) as Hcases.
    pose proof (fun r => cleanup_begin_transport inst0 r w) as Htrans.
    pose proof (fun r => is_cleared_cleanup_begin inst0 r w) as Hclr.
    destruct (cleanup_begin inst0 w) as [tr wa]. cbn [fst snd] in *.
    destruct (IH wa) as (Hi' & (evs & Htr) & Htrans' & Hclr' & Hall).
    destruct (begin_cleanups l wa) as [ps wb]. cbn [fst snd] in *.
    split; [congruence|]. split.
    { exists (evs ++ evs0 ++ [CleanupCalled inst0]).
      rewrite Htr, Htr0, <- !app_assoc. reflexivity. }
    split; [intros r; now rewrite Htrans', Htrans|].
    split; [intros r H; now apply Hclr', Hclr|].
    intros sid inst [[= <- <-]|Hin].
    + split.
      * rewrite Htr, Htr0. apply in_trace_extend, in_trace_extend. now left.
      * destruct (transport (heap w inst0)) as [t|].
        -- destruct Hcases as [-> Hin]. split; [now left|].
           rewrite Htr. now apply in_trace_extend.
        -- destruct Hcases as [_ Hc]. now apply Hclr'.
    + destruct (Hall sid inst Hin) as [H1 H2]. split; [exact H1|].
      rewrite Htrans in H2. destruct (transport (heap w inst)); [|exact H2].
      split; [now right | tauto].
Qed.

Lemma resume_cleanups_effect (env : environment)
    (ps : list (ref * option transportId)) :
  forall w,
    let r := run_each (map (resume_cleanup env) ps) w in
    all_returned (fst r)
    /\ instances (snd r) = instances w
    /\ (exists evs, trace (snd r) = evs ++ trace w)
    /\ (forall r', is_cleared (heap w r') -> is_cleared (heap (snd r) r'))
    /\ (forall inst t, In (inst, Some t) ps -> is_cleared (heap (snd r) inst)).
Proof.
  induction ps as [|[inst0 tr0] ps IH]; intros w; cbn.
  - split; [constructor|]. split; [reflexivity|]. split; [now exists []|].
    split; [auto|]. intros ? ? [].
  - set (k := resume_cleanup env (inst0, tr0)).
    assert (fst (k w) = Returned tt
            /\ instances (snd (k w)) = instances w
            /\ (exists evs, trace (snd (k w)) = evs ++ trace w)
            /\ (forall r', is_cleared (heap w r') -> is_cleared (heap (snd (k w)) r'))
            /\ (forall t, tr0 = Some t -> is_cleared (heap (snd (k w)) inst0))) as H.
    { subst k. unfold resume_cleanup. cbn [fst snd]. destruct tr0 as [t|].
      - split; [apply cleanup_resume_returns|].
        split; [apply cleanup_resume_instances|].
        split; [apply cleanup_resume_trace|].
        split; [intros r'; apply is_cleared_cleanup_resume|].
        intros _ _. apply cleanup_resume_cleared.
      - cbn. split; [reflexivity|]. split; [reflexivity|].
        split; [now exists []|]. split; [auto|]. discriminate. }
    destruct (k w) as [r wa].
    cbn [fst snd] in H. destruct H as (-> & Hi & (evs0 & Htr0) & Hclr & Hthis).
    destruct (IH wa) as (Hrs & Hi' & (evs & Htr) & Hclr' & Hall).
    destruct (run_each (map (resume_cleanup env) ps) wa) as [rs wb].
    cbn [fst snd] in *.
    split; [now constructor|]. split; [congruence|]. split.
    { exists (evs ++ evs0). now rewrite Htr, Htr0, app_assoc. }
    split; [intros r' H; now apply Hclr', Hclr|].
    intros inst t [[= <- E]|Hin].
    + apply Hclr'. now apply (Hthis t).
    + now apply (Hall inst t).
Qed.

Lemma Promise_all_returned (rs : list (outcome unit)) (w : world) :
  all_returned rs -> Promise_all rs w = (Returned tt, w).
Proof. induction 1 as [|r rs -> _ IH]; cbn; [reflexivity | exact IH]. Qed.

(** C8: [cleanupAllSessions] calls [cleanup()] on every session of the map,
    calls [close()] on the transport of every session that has one, returns
    normally whatever the closes do, and leaves the map empty and every one
    of those sessions without client and transport and disconnected. *)
Theorem C8_cleanupAllSessions_empties_registry :
  forall (env : environment) (w : world),
    let r := cleanupAllSessions env w in
    let w' := snd r in
    fst r = Returned tt
    /\ instances w' = []
    /\ (forall sid inst,
          In (sid, inst) (instances w) ->
          In (CleanupCalled inst) (trace w')
          /\ (forall t, transport (heap w inst) = Some t ->
                        In (TransportClose t) (trace w'))
          /\ is_cleared (heap w' inst)).
Proof.
  intros env w. unfold cleanupAllSessions.
  destruct (begin_cleanups_effect (instances w) w) as (_ & _ & _ & _ & Hall).
  destruct (begin_cleanups (instances w) w) as [ps w1]. cbn [fst snd] in Hall.
  destruct (resume_cleanups_effect env ps w1) as (Hrs & _ & (evs & Htr) & Hclr & Hres).
  destruct (run_each (map (resume_cleanup env) ps) w1) as [rs w2].
  cbn [fst snd] in *. unfold_M. rewrite (Promise_all_returned rs w2 Hrs).
  unfold emit. cbn. split; [reflexivity|]. split; [reflexivity|].
  intros sid inst Hin. destruct (Hall sid inst Hin) as [Hcc Hcase].
  split; [|split].
  - right. right. rewrite Htr. now apply in_trace_extend.
  - intros t Ht. rewrite Ht in Hcase. right. right. rewrite Htr.
    apply in_trace_extend. tauto.
  - destruct (transport (heap w inst)) as [t|].
    + apply (Hres inst t). tauto.
    + now apply Hclr.
Qed.

Lemma C8_cleanupAllSessions_empties_registry_witness :
  fst (cleanupAllSessions broken (world_connected V2)) = Returned tt
  /\ instances (snd (cleanupAllSessions broken (world_connected V2))) = []
  /\ In (TransportClose 7%nat)
        (trace (snd (cleanupAllSessions broken (world_connected V2))))
  /\ is_cleared (heap (snd (cleanupAllSessions broken (world_connected V2))) 0%nat).
Proof.
  destruct (C8_cleanupAllSessions_empties_registry broken (world_connected V2))
    as (H1 & H2 & H3).
  assert (In (sid_a, 0%nat) (instances (world_connected V2))) as Hin
    by (vm_compute; now left).
  destruct (H3 sid_a 0%nat Hin) as (_ & H4 & H5).
  split; [exact H1|]. split; [exact H2|]. split; [|exact H5].
  apply H4. vm_compute. reflexivity.
Defined.

End RegistryFacts.

(* ================================================================== *)
(** ** Overlapping calls of [connect]                                  *)
(* ================================================================== *)

Module AsyncFacts.
Import JS Session Manager Registry Samples Observe Async AsyncObserve ManagerFacts
  RegistryFacts.

Ltac unfold_M :=
  unfold bind, act, get, try_catch, await, ret, throw, touch in *.

Ltac simp_heap := repeat (cbn in *; rewrite ?upd_same in * ).

Section OneAttempt.
Variable ver : version.
Variable this : ref.
Variable w0 : world.

Local Abbreviation c0 := (nextClient w0).
Local Abbreviation p0 := (nextPromise w0).
Local Abbreviation inv := (inv this w0).

(** [cleanup()] up to its [await] builds nothing and keeps promises. *)
Lemma cleanup_begin_frame (w : world) :
  let r := cleanup_begin this w in
  let w1 := snd r in
  promises w1 = promises w /\ nextPromise w1 = nextPromise w
  /\ nextClient w1 = nextClient w
  /\ connectionPromise (heap w1 this) = connectionPromise (heap w this)
  /\ (exists evs, trace w1 = evs ++ trace w
                  /\ filter is_NewClient evs = []
                  /\ filter is_ClientConnect evs = [])
  /\ (transport (heap w this) = None ->
        fst r = None /\ client (heap w1 this) = None
        /\ transport (heap w1 this) = None /\ isConnected (heap w1 this) = false).
Proof.
  unfold cleanup_begin, clear_cleanupTimer, cleanup_finish, modify, emit. cbn.
  destruct (cleanupTimer (heap w this)) as [id|]; cbn; rewrite ?upd_same; cbn;
    destruct (transport (heap w this)) as [t|] eqn:E; cbn; rewrite ?upd_same; cbn;
    (split; [reflexivity|]); (split; [reflexivity|]); (split; [reflexivity|]);
    (split; [reflexivity|]);
    (split;
     [ first [ eexists (cons _ (cons _ (cons _ nil))); repeat split; reflexivity
             | eexists (cons _ (cons _ nil)); repeat split; reflexivity
             | eexists (cons _ nil); repeat split; reflexivity ]
     | ]);
    first [ discriminate | intros _; rewrite ?E; auto ].
Qed.

Lemma built_since_more (w w' : world) (n : nat) (evs : list event) :
  trace w' = evs ++ trace w ->
  built_since w0 w n ->
  built_since w0 w' (List.length (filter is_NewClient evs) + n).
Proof.
  intros E (evs0 & E0 & Hn). exists (evs ++ evs0). split.
  - now rewrite E, E0, app_assoc.
  - now rewrite filter_app, length_app, Hn.
Qed.

Lemma handshakes_since_more (w w' : world) (n : nat) (evs : list event) :
  trace w' = evs ++ trace w ->
  handshakes_since w0 w n ->
  handshakes_since w0 w' (List.length (filter is_ClientConnect evs) + n).
Proof.
  intros E (evs0 & E0 & Hn). exists (evs ++ evs0). split.
  - now rewrite E, E0, app_assoc.
  - now rewrite filter_app, length_app, Hn.
Qed.

Lemma inv_start : unconnected this w0 -> inv NoAttempt (start w0).
Proof.
  intros (Hc & Ht & Hi & Hp). unfold AsyncObserve.inv. cbn.
  repeat split; try assumption; try reflexivity; try (now exists []).
Qed.

Lemma isSessionConnected_false (w : world) :
  isConnected (heap w this) = false -> isSessionConnected this w = false.
Proof. intros H. unfold isSessionConnected. now rewrite H. Qed.

Lemma built_since_events (w w' : world) (n : nat) (evs : list event) :
  trace w' = evs ++ trace w -> filter is_NewClient evs = [] ->
  built_since w0 w n -> built_since w0 w' n.
Proof.
  intros E Hf H. pose proof (built_since_more w w' n evs E H) as H'.
  now rewrite Hf in H'.
Qed.

Lemma handshakes_since_events (w w' : world) (n : nat) (evs : list event) :
  trace w' = evs ++ trace w -> filter is_ClientConnect evs = [] ->
  handshakes_since w0 w n -> handshakes_since w0 w' n.
Proof.
  intros E Hf H. pose proof (handshakes_since_more w w' n evs E H) as H'.
  now rewrite Hf in H'.
Qed.

Lemma built_since_same (w w' : world) (n : nat) :
  trace w' = trace w -> built_since w0 w n -> built_since w0 w' n.
Proof. intros E. now apply (built_since_events w w' n []). Qed.

Lemma handshakes_since_same (w w' : world) (n : nat) :
  trace w' = trace w -> handshakes_since w0 w n -> handshakes_since w0 w' n.
Proof. intros E. now apply (handshakes_since_events w w' n []). Qed.

(** The calls that are fine before the attempt settles are fine in every
    later phase. *)
Lemma call_ok_later (ph ph' : phase) (c : option connect_call) :
  before_settling ph -> ph' <> NoAttempt ->
  call_ok w0 ph c -> call_ok w0 ph' c.
Proof.
  intros Hph Hph'. destruct c as [[t pc]|]; [|trivial]. unfold call_ok. cbn.
  destruct pc as [probe|p|p|r]; try tauto.
  destruct Hph as [->|[->| ->]]; tauto.
Qed.

Lemma call_ok_upd (ph : phase) (cs : nat -> option connect_call) (i : nat)
    (c : connect_call) :
  (forall j, call_ok w0 ph (cs j)) -> call_ok w0 ph (Some c) ->
  forall j, call_ok w0 ph (upd i (Some c) cs j).
Proof.
  intros Hall Hc j. unfold upd. destruct (Nat.eqb j i); [exact Hc | apply Hall].
Qed.

Lemma call_ok_waiting (ph : phase) (t : transportId) (pc : connect_pc) :
  ph <> NoAttempt -> waiting w0 pc ->
  call_ok w0 ph (Some {| cc_transport := t; cc_pc := pc |}).
Proof. intros Hph [-> | ->]; now split. Qed.

(** A call made before any attempt starts the attempt. *)
Lemma step_call_first (s : state) (i : nat) (t : transportId) :
  inv NoAttempt s -> calls s i = None ->
  exists s',
    step ver this (Call i t) s = Some s'
    /\ inv Cleaning s'
    /\ calls s' = upd i (Some {| cc_transport := t; cc_pc := AwaitOwn p0 |}) (calls s).
Proof.
  intros ((Hc & Ht & Hi & Hp) & _ & Hrun & Hruns & Hcalls & Hb & Hh & Hnc & Hnp) Hnone.
  cbn [built promises_made plus] in *.
  unfold step. rewrite Hnone, (isSessionConnected_false _ Hi).
  unfold connect_from_88. rewrite Hp. unfold connect_from_96.
  destruct (cleanup_begin_frame (world_of s))
    as (Hpr & Hnp' & Hnc' & Hcp' & (evs & Htr & Hev1 & Hev2) & Hidle).
  destruct (Hidle Ht) as (Hfst & Hc1 & Ht1 & Hi1).
  destruct (cleanup_begin this (world_of s)) as [closing w1]. cbn [fst snd] in *.
  subst closing. rewrite Hnp', Hnp.
  eexists. split; [reflexivity|]. split; [|reflexivity].
  unfold AsyncObserve.inv, settle_promise, modify. cbn. rewrite ?upd_same. cbn.
  rewrite ?upd_same.
  split; [auto|]. split; [reflexivity|]. split; [eauto|].
  split; [intros p Hne; rewrite upd_other by assumption; now apply Hruns|].
  split.
  { apply call_ok_upd.
    - intros j. apply (call_ok_later NoAttempt); [now left | discriminate | apply Hcalls].
    - apply call_ok_waiting; [discriminate | now right]. }
  split; [now apply (built_since_events (world_of s) _ 0%nat evs)|].
  split; [now apply (handshakes_since_events (world_of s) _ 0%nat evs)|].
  split; [congruence | reflexivity].
Qed.

(** A call made while the attempt is under way waits for it. *)
Lemma step_call_later (ph : phase) (s : state) (i : nat) (t : transportId) :
  ph = Cleaning \/ ph = Handshaking ->
  inv ph s -> calls s i = None ->
  step ver this (Call i t) s
  = Some (with_call i {| cc_transport := t; cc_pc := AwaitShared p0 |} s)
  /\ inv ph (with_call i {| cc_transport := t; cc_pc := AwaitShared p0 |} s).
Proof.
  intros Hph (Hm & Hpr & Hrun & Hruns & Hcalls & Hb & Hh & Hnc & Hnp) Hnone.
  assert (isConnected (heap (world_of s) this) = false
          /\ connectionPromise (heap (world_of s) this) = Some p0) as [Hi Hp]
    by (destruct Hph as [-> | ->]; cbn in Hm; tauto).
  unfold step. rewrite Hnone, (isSessionConnected_false _ Hi).
  unfold connect_from_88. rewrite Hp. split; [reflexivity|].
  unfold AsyncObserve.inv. cbn.
  repeat match goal with |- _ /\ _ => split end; try assumption.
  apply call_ok_upd; [assumption|].
  apply call_ok_waiting; [destruct Hph as [-> | ->]; discriminate | now left].
Qed.

(** The run continues after [await this.cleanup()]: it builds the client
    and starts the handshake. *)
Lemma step_continue (s : state) :
  inv Cleaning s ->
  exists s',
    step ver this (Continue p0) s = Some s'
    /\ inv Handshaking s' /\ calls s' = calls s.
Proof.
  intros ((Hc & Ht & Hi & Hp) & Hpr & (t & Hrun) & Hruns & Hcalls & Hb & Hh & Hnc & Hnp).
  cbn [built promises_made plus] in *.
  unfold step. rewrite Hrun.
  unfold doConnect_handshake, new_Client, install_onerror, modify, emit. unfold_M.
  cbn. rewrite Hnc.
  eexists. split; [reflexivity|]. split; [|reflexivity].
  unfold AsyncObserve.inv. cbn. rewrite ?upd_same. cbn.
  split; [auto|]. split; [exact Hpr|]. split; [eauto|].
  split; [intros p Hne; rewrite upd_other by assumption; now apply Hruns|].
  split.
  { intros j. apply (call_ok_later Cleaning); [right; now left | discriminate | apply Hcalls]. }
  split.
  { apply (built_since_more (world_of s) _ 0%nat [ClientConnect c0 t; NewClient c0]);
      [reflexivity | exact Hb]. }
  split.
  { apply (handshakes_since_more (world_of s) _ 0%nat
             [ClientConnect c0 t; NewClient c0]); [reflexivity | exact Hh]. }
  split; [reflexivity | exact Hnp].
Qed.

Lemma step_handshake (s : state) (r : option error) :
  inv Handshaking s ->
  exists s',
    step ver this (HandshakeSettles p0 r) s = Some s'
    /\ inv (attempt_result this s r) s' /\ calls s' = calls s.
Proof.
  intros ((Hc & Ht & Hi & Hp) & Hpr & (t & Hrun) & Hruns & Hcalls & Hb & Hh & Hnc & Hnp).
  cbn [built promises_made plus] in *.
  unfold step. rewrite Hrun.
  unfold doConnect_connected, doConnect_catch, settle_promise, modify, emit.
  unfold_M. destruct r as [e|]; cbn; rewrite ?upd_same; cbn;
    (eexists; split; [reflexivity|]; split; [|reflexivity]);
    unfold AsyncObserve.inv; cbn; rewrite ?upd_same; cbn; rewrite ?upd_same; cbn.
  - split; [auto|]. split; [reflexivity|]. split; [eauto|].
    split; [intros p Hne; rewrite upd_other by assumption; now apply Hruns|].
    split.
    { intros j. apply (call_ok_later Handshaking);
        [right; now right | discriminate | apply Hcalls]. }
    split; [now apply (built_since_same (world_of s))|].
    split; [now apply (handshakes_since_same (world_of s))|].
    split; assumption.
  - split; [auto|]. split; [reflexivity|]. split; [eauto|].
    split; [intros p Hne; rewrite upd_other by assumption; now apply Hruns|].
    split.
    { intros j. apply (call_ok_later Handshaking);
        [right; now right | discriminate | apply Hcalls]. }
    split.
    { apply (built_since_events (world_of s) _ 1%nat
               [ConsoleLog (msg_connected (sessionId (heap (world_of s) this)))]);
        [reflexivity | reflexivity | exact Hb]. }
    split.
    { apply (handshakes_since_events (world_of s) _ 1%nat
               [ConsoleLog (msg_connected (sessionId (heap (world_of s) this)))]);
        [reflexivity | reflexivity | exact Hh]. }
    split; assumption.
Qed.

(** A call that awaited the attempt ends as the attempt did. *)
Lemma step_resume (ph : phase) (s : state) (i : nat) (t : transportId)
    (pc : connect_pc) :
  settled ph -> inv ph s ->
  calls s i = Some {| cc_transport := t; cc_pc := pc |} -> waiting w0 pc ->
  exists s',
    step ver this (Resume i) s = Some s'
    /\ inv ph s'
    /\ calls s' = upd i (Some {| cc_transport := t;
                                 cc_pc := Settled (call_result w0 ph) |}) (calls s).
Proof.
  intros Hph (Hm & Hpr & Hrun & Hruns & Hcalls & Hb & Hh & Hnc & Hnp) Hcall Hw.
  unfold step. rewrite Hcall.
  destruct Hph as [->|[e ->]]; cbn in Hm, Hpr;
    destruct Hw as [-> | ->]; rewrite Hpr.
  - destruct Hm as (Hc & Hi & Hp).
    unfold isSessionConnected. rewrite Hi, Hc. cbn.
    unfold settle_call, touch_and_return, modify. unfold_M. cbn.
    rewrite upd_same. cbn. rewrite Hc.
    eexists. split; [reflexivity|]. split; [|reflexivity].
    unfold AsyncObserve.inv. cbn. rewrite ?upd_same. cbn.
    repeat match goal with |- _ /\ _ => split end; try assumption.
    apply call_ok_upd; [assumption | reflexivity].
  - destruct Hm as (Hc & Hi & Hp).
    unfold settle_call, connect_finish, modify. unfold_M. cbn.
    rewrite ?upd_same. cbn. rewrite Hc. cbn. rewrite ?upd_same. cbn. rewrite Hc.
    eexists. split; [reflexivity|]. split; [|reflexivity].
    unfold AsyncObserve.inv. cbn. rewrite ?upd_same. cbn.
    repeat match goal with |- _ /\ _ => split end; try assumption; auto.
    apply call_ok_upd; [assumption | reflexivity].
  - destruct Hm as (Hc & Hi & Hp). unfold settle_call. unfold_M. cbn.
    eexists. split; [reflexivity|]. split; [|reflexivity].
    unfold AsyncObserve.inv. cbn.
    repeat match goal with |- _ /\ _ => split end; try assumption.
    apply call_ok_upd; [assumption | reflexivity].
  - destruct Hm as (Hc & Hi & Hp). unfold settle_call. unfold_M. cbn.
    eexists. split; [reflexivity|]. split; [|reflexivity].
    unfold AsyncObserve.inv. cbn.
    repeat match goal with |- _ /\ _ => split end; try assumption.
    apply call_ok_upd; [assumption | reflexivity].
Qed.

Lemma step_tick (ph : phase) (s : state) (d : Z) (s' : state) :
  inv ph s -> step ver this (Tick d) s = Some s' ->
  inv ph s' /\ calls s' = calls s.
Proof.
  intros H. unfold step. destruct (0 <=? d); [|discriminate].
  intros [= <-]. split; [exact H | reflexivity].
Qed.

Lemma in_flight_before_settling (ph : phase) (s : state) :
  before_settling ph -> inv ph s -> in_flight this (world_of s) = true.
Proof.
  intros Hph (Hm & Hpr & _). unfold in_flight, isSessionConnected.
  destruct Hph as [->|[->| ->]]; cbn in Hm, Hpr;
    destruct Hm as (_ & _ & -> & ->); cbn; [reflexivity| |]; now rewrite Hpr.
Qed.

Lemma in_flight_settled (ph : phase) (s : state) :
  settled ph -> inv ph s -> in_flight this (world_of s) = false.
Proof.
  intros Hph (Hm & Hpr & _). unfold in_flight, isSessionConnected.
  destruct Hph as [->|[e ->]]; cbn in Hm, Hpr.
  - destruct Hm as (-> & -> & _). reflexivity.
  - destruct Hm as (_ & -> & ->). cbn. now rewrite Hpr.
Qed.

Lemma phase_cases (ph : phase) : before_settling ph \/ settled ph.
Proof.
  destruct ph; unfold before_settling, settled; eauto.
Qed.

(** Every undisturbed step keeps the invariant. *)
Lemma step_undisturbed_inv (ph : phase) (s : state) (l : label) (s' : state) :
  inv ph s -> undisturbed this s l = true -> step ver this l s = Some s' ->
  exists ph', inv ph' s'.
Proof.
  intros Hinv Hl Hstep. destruct l as [i t|i r|i|p r|p|p r|t e| |r|d];
    cbn in Hl; try discriminate.
  - (* Call *)
    destruct (calls s i) as [c|] eqn:Hcall;
      [unfold step in Hstep; now rewrite Hcall in Hstep|].
    destruct (phase_cases ph) as [Hph|Hph];
      [|rewrite (in_flight_settled ph s Hph Hinv) in Hl; discriminate].
    destruct Hph as [->|Hph].
    + destruct (step_call_first s i t Hinv Hcall) as (s1 & E & H1 & _).
      exists Cleaning. congruence.
    + destruct (step_call_later ph s i t Hph Hinv Hcall) as (E & H1).
      exists ph. congruence.
  - (* Resume *)
    pose proof Hinv as (Hm & Hpr & _ & _ & Hcalls & _).
    specialize (Hcalls i). unfold step in Hstep.
    destruct (calls s i) as [[t pc]|] eqn:Hcall; [|discriminate].
    unfold call_ok in Hcalls. cbn in Hcalls.
    destruct pc as [probe|p|p|o]; [contradiction| | |discriminate];
      destruct Hcalls as [-> Hne];
      (destruct (phase_cases ph) as [[->|[->| ->]]|Hph];
       [ congruence
       | cbn in Hpr; rewrite Hpr in Hstep; discriminate
       | cbn in Hpr; rewrite Hpr in Hstep; discriminate
       | ]).
    + destruct (step_resume ph s i t (AwaitShared p0) Hph Hinv Hcall)
        as (s1 & E & H1 & _); [now left|].
      exists ph. unfold step in E. rewrite Hcall in E. congruence.
    + destruct (step_resume ph s i t (AwaitOwn p0) Hph Hinv Hcall)
        as (s1 & E & H1 & _); [now right|].
      exists ph. unfold step in E. rewrite Hcall in E. congruence.
  - (* Continue *)
    pose proof Hinv as (_ & _ & Hrun & Hruns & _).
    destruct (Nat.eq_dec p p0) as [->|Hne];
      [|unfold step in Hstep; rewrite (Hruns p Hne) in Hstep; discriminate].
    destruct ph; cbn in Hrun.
    + unfold step in Hstep. rewrite Hrun in Hstep. discriminate.
    + destruct (step_continue s Hinv) as (s1 & E & H1 & _).
      exists Handshaking. congruence.
    + destruct Hrun as (t & Hrun). unfold step in Hstep.
      rewrite Hrun in Hstep. discriminate.
    + destruct Hrun as (t & Hrun). unfold step in Hstep.
      rewrite Hrun in Hstep. discriminate.
    + destruct Hrun as (t & Hrun). unfold step in Hstep.
      rewrite Hrun in Hstep. discriminate.
  - (* HandshakeSettles *)
    pose proof Hinv as (_ & _ & Hrun & Hruns & _).
    destruct (Nat.eq_dec p p0) as [->|Hne];
      [|unfold step in Hstep; rewrite (Hruns p Hne) in Hstep; discriminate].
    destruct ph; cbn in Hrun.
    + unfold step in Hstep. rewrite Hrun in Hstep. discriminate.
    + destruct Hrun as (t & Hrun). unfold step in Hstep.
      rewrite Hrun in Hstep. discriminate.
    + destruct (step_handshake s r Hinv) as (s1 & E & H1 & _).
      exists (attempt_result this s r). congruence.
    + destruct Hrun as (t & Hrun). unfold step in Hstep.
      rewrite Hrun in Hstep. discriminate.
    + destruct Hrun as (t & Hrun). unfold step in Hstep.
      rewrite Hrun in Hstep. discriminate.
  - (* Tick *)
    exists ph. now apply (step_tick ph s d s').
Qed.

Lemma run_undisturbed_inv (ls : list label) :
  forall ph s s',
    inv ph s -> run_undisturbed ver this ls s = Some s' ->
    exists ph', inv ph' s'.
Proof.
  induction ls as [|l ls IH]; intros ph s s' Hinv Hrun; cbn in Hrun.
  - injection Hrun as <-. now exists ph.
  - destruct (undisturbed this s l) eqn:Hl; [|discriminate].
    destruct (step ver this l s) as [s1|] eqn:Hstep; [|discriminate].
    destruct (step_undisturbed_inv ph s l s1 Hinv Hl Hstep) as (ph1 & H1).
    now apply (IH ph1 s1).
Qed.

Lemma run_undisturbed_app (l1 l2 : list label) (s : state) :
  run_undisturbed ver this (l1 ++ l2) s
  = match run_undisturbed ver this l1 s with
    | Some s1 => run_undisturbed ver this l2 s1
    | None => None
    end.
Proof.
  revert s. induction l1 as [|l l1 IH]; intros s; cbn; [reflexivity|].
  destruct (undisturbed this s l); [|reflexivity].
  destruct (step ver this l s); [apply IH | reflexivity].
Qed.

Section Burst.
Variable ts : nat -> transportId.

Local Abbreviation awaits := (awaits w0 ts).

(** After the calls, every caller waits for the one attempt. *)
Lemma burst_calls (k : nat) :
  unconnected this w0 ->
  exists s,
    run_undisturbed ver this (map (fun i => Call i (ts i)) (seq 0 (S k))) (start w0)
    = Some s
    /\ inv Cleaning s
    /\ (forall i, (i <= k)%nat -> awaits s i)
    /\ (forall i, (k < i)%nat -> calls s i = None).
Proof.
  intros Hu. induction k as [|k IH].
  - destruct (step_call_first (start w0) 0%nat (ts 0%nat) (inv_start Hu) eq_refl)
      as (s1 & E & H1 & Hc).
    exists s1. cbn [seq map run_undisturbed undisturbed].
    rewrite (in_flight_before_settling NoAttempt (start w0)), E;
      [|now left|now apply inv_start].
    split; [reflexivity|]. split; [exact H1|]. split.
    + intros i Hi. assert (i = 0%nat) as -> by lia.
      exists (AwaitOwn p0). rewrite Hc, upd_same. split; [reflexivity | now right].
    + intros i Hi. rewrite Hc, upd_other by lia. reflexivity.
  - destruct IH as (s & Hrun & Hinv & Hw & Hn).
    destruct (step_call_later Cleaning s (S k) (ts (S k))) as (E & H1);
      [now left | exact Hinv | apply Hn; lia|].
    eexists. rewrite seq_S, map_app, run_undisturbed_app, Hrun.
    cbn [plus map run_undisturbed undisturbed].
    rewrite (in_flight_before_settling Cleaning s), E;
      [|right; now left|exact Hinv].
    split; [reflexivity|]. split; [exact H1|]. cbn [calls with_call]. split.
    + intros i Hi. unfold AsyncObserve.awaits. cbn [calls with_call].
      destruct (Nat.eq_dec i (S k)) as [->|Hne].
      * exists (AwaitShared p0). rewrite upd_same. split; [reflexivity | now left].
      * destruct (Hw i) as (pc & Hc & Hpc); [lia|].
        exists pc. rewrite upd_other by assumption. now split.
    + intros i Hi. cbn [calls with_call]. rewrite upd_other by lia. apply Hn. lia.
Qed.

(** Once the attempt has settled, the callers end one after the other. *)
Lemma burst_resumes (ph : phase) (k : nat) :
  settled ph ->
  forall a s,
    inv ph s ->
    (forall i, (a <= i < a + k)%nat -> awaits s i) ->
    exists s',
      run_undisturbed ver this (map Resume (seq a k)) s = Some s'
      /\ inv ph s'
      /\ (forall i, (a <= i < a + k)%nat -> settled_with s' i (call_result w0 ph))
      /\ (forall i, ~ (a <= i < a + k)%nat -> calls s' i = calls s i).
Proof.
  intros Hph. induction k as [|k IH]; intros a s Hinv Hw.
  - exists s. cbn. split; [reflexivity|]. split; [exact Hinv|].
    split; [intros i Hi; lia | reflexivity].
  - destruct (Hw a) as (pc & Hc & Hpc); [lia|].
    destruct (step_resume ph s a (ts a) pc Hph Hinv Hc Hpc) as (s1 & E & H1 & Hc1).
    destruct (IH (S a) s1 H1) as (s2 & Hrun & H2 & Hs & Ho).
    { intros i Hi. destruct (Hw i) as (pc' & Hc' & Hpc'); [lia|].
      exists pc'. rewrite Hc1, upd_other by lia. now split. }
    exists s2. cbn [seq map run_undisturbed undisturbed]. rewrite E.
    split; [exact Hrun|]. split; [exact H2|]. split.
    + intros i Hi. destruct (Nat.eq_dec i a) as [->|Hne].
      * exists (ts a). rewrite Ho by lia. now rewrite Hc1, upd_same.
      * apply Hs. lia.
    + intros i Hi. rewrite Ho by lia. rewrite Hc1, upd_other by lia. reflexivity.
Qed.

Lemma attempt_result_settled (s : state) (r : option error) :
  settled (attempt_result this s r).
Proof.
  destruct r as [e|]; cbn.
  - right. eexists. reflexivity.
  - now left.
Qed.

(** The whole burst runs, and every caller ends. *)
Lemma burst_runs (n : nat) (r : option error) :
  unconnected this w0 -> (1 <= n)%nat ->
  exists s ph,
    run_undisturbed ver this (burst p0 n ts r) (start w0) = Some s
    /\ inv ph s
    /\ (forall i, (i < n)%nat -> settled_with s i (call_result w0 ph))
    /\ (r = None -> ph = Succeeded)
    /\ (r <> None -> exists e, ph = Failed e).
Proof.
  intros Hu Hn. destruct n as [|k]; [lia|].
  destruct (burst_calls k Hu) as (s1 & Hrun1 & H1 & Hw & _).
  destruct (step_continue s1 H1) as (s2 & E2 & H2 & Hc2).
  destruct (step_handshake s2 r H2) as (s3 & E3 & H3 & Hc3).
  destruct (burst_resumes (attempt_result this s2 r) (S k)
              (attempt_result_settled s2 r) 0%nat s3 H3)
    as (s4 & Hrun4 & H4 & Hs & _).
  { intros i Hi. destruct (Hw i) as (pc & Hc & Hpc); [lia|].
    exists pc. rewrite Hc3, Hc2. now split. }
  exists s4, (attempt_result this s2 r). unfold burst.
  rewrite run_undisturbed_app, Hrun1.
  cbn [app run_undisturbed undisturbed]. rewrite E2, E3.
  split; [exact Hrun4|]. split; [exact H4|]. split.
  - intros i Hi. apply Hs. lia.
  - split.
    + intros ->. reflexivity.
    + intros Hr. destruct r as [e|]; [cbn; eauto | congruence].
Qed.

End Burst.

End OneAttempt.

(** One call alone, cut at its [await]s, does what [connect] run in one
    piece does. *)
Lemma single_call_agrees (ver : version) (env : environment) (this : ref)
    (t : transportId) (w0 : world) :
  unconnected this w0 ->
  exists s,
    run ver this
      [Call 0 t; Continue (nextPromise w0);
       HandshakeSettles (nextPromise w0) (connect_result env (nextClient w0) t);
       Resume 0] (start w0) = Some s
    /\ calls s 0%nat
       = Some {| cc_transport := t;
                 cc_pc := Settled (fst (connect ver env this t w0)) |}
    /\ heap (world_of s) this = heap (snd (connect ver env this t w0)) this
    /\ trace (world_of s) = trace (snd (connect ver env this t w0)).
Proof.
  intros (Hc & Ht & Hi & Hp).
  rewrite connect_unconnected by (try apply isSessionConnected_false; assumption).
  pose proof (connect_fresh_effect env this t w0) as H. cbv zeta in H.
  pose proof (doConnect_effect env this t w0) as Hd. cbv zeta in Hd.
  destruct H as (H & _ & _ & Htr & _). destruct Hd as (Hd & _).
  assert (cleanup_begin this w0 = (None, snd (cleanup env this w0))) as Hb.
  { pose proof (cleanup_split env this w0) as E.
    pose proof (cleanup_begin_cases this w0) as C. rewrite Ht in C.
    destruct (cleanup_begin this w0) as [tr w1]. cbn [fst] in C.
    destruct C as [-> _]. now rewrite E. }
  destruct (cleanup_effect env this w0) as (Hh1 & _).
  destruct (cleanup_same env this w0) as ((_ & Hk1 & _) & (_ & Hn1) & Hc1 & _).
  revert H Hd Htr Hb Hh1 Hn1 Hc1 Hk1.
  generalize (snd (cleanup env this w0)). intros w1 H Hd Htr Hb Hh1 Hn1 Hc1 Hk1.
  cbn [run]. unfold step at 1. cbn [calls start world_of].
  rewrite (isSessionConnected_false this w0 Hi).
  unfold connect_from_88. cbn [world_of start]. rewrite Hp.
  unfold connect_from_96. cbn [world_of start]. rewrite Hb, Hn1.
  unfold step, doConnect_handshake, new_Client, install_onerror, settle_promise,
    doConnect_connected, doConnect_catch, settle_call, connect_finish, modify, emit.
  unfold_M. cbn. rewrite ?upd_same. cbn. rewrite ?Hc1. cbn. rewrite ?upd_same. cbn.
  destruct (connect_result env (nextClient w0) t) as [e|]; cbn;
    rewrite ?upd_same; cbn; rewrite ?upd_same; cbn;
    destruct H as (Hr & Hheap & _); destruct Hd as (_ & _ & Hdtr);
    (eexists; split; [reflexivity|]); cbn; rewrite ?upd_same; cbn;
    rewrite Hr, Hheap, Htr, Hdtr, ?Hh1, ?Hk1; cbn; repeat split.
Qed.

(** What happens on [part_000] when the transport reports an error while
    the handshake of two concurrent calls is pending: two clients are
    built, two handshakes made, caller 0 throws and caller 1 returns the
    second client. *)
Lemma split_by_error_outcome :
  let s := state_after V2 0%nat (concurrent_calls 2 three_transports ++ split_by_error)
             fresh_session in
  run V2 0%nat (concurrent_calls 2 three_transports ++ split_by_error)
    (start fresh_session) = Some s
  /\ settled_with s 0 (Thrown (Error (lit "Failed to establish MCP connection")))
  /\ settled_with s 1 (Returned (Some 1%nat))
  /\ built_since fresh_session (world_of s) 2
  /\ handshakes_since fresh_session (world_of s) 2.
Proof.
  cbv zeta.
  set (s := state_after V2 0%nat
              (concurrent_calls 2 three_transports ++ split_by_error) fresh_session).
  split; [vm_compute; reflexivity|].
  split; [exists 7%nat; vm_compute; reflexivity|].
  split; [exists 8%nat; vm_compute; reflexivity|].
  split.
  - exists (firstn (List.length (trace (world_of s)) - 1) (trace (world_of s))).
    split; vm_compute; reflexivity.
  - exists (firstn (List.length (trace (world_of s)) - 1) (trace (world_of s))).
    split; vm_compute; reflexivity.
Qed.




(** C4, as stated, fails: when the shared attempt has ended without failure
    and the session is not connected at the re-check, the waiter neither
    returns nor throws; it starts an attempt of its own. *)
Lemma C4_waiter_starts_own_attempt :
  ~ (forall ver this w0 ls s i t p s',
        unconnected this w0 ->
        run ver this ls (start w0) = Some s ->
        calls s i = Some {| cc_transport := t; cc_pc := AwaitShared p |} ->
        step ver this (Resume i) s = Some s' ->
        (exists c, settled_with s' i (Returned (Some c)))
        \/ (exists e, promises (world_of s) p = Rejected e
                      /\ settled_with s' i (Thrown e))).
Proof.
  intros H.
  set (s := state_after V2 0%nat interfered fresh_session).
  set (s' := connect_from_96 0%nat 1%nat 8%nat s).
  assert (calls s' 1%nat = Some {| cc_transport := 8%nat; cc_pc := AwaitOwn 1%nat |})
    as Hown by (vm_compute; reflexivity).
  assert (runs s' 1%nat
          = Some {| dc_transport := 8%nat; dc_pc := AwaitCleanup (Some 7%nat) |})
    as Hrun by (vm_compute; reflexivity).
  destruct (H V2 0%nat fresh_session interfered s 1%nat 8%nat 0%nat s')
    as [(c & t & Hc)|(e & _ & t & Hc)].
  - repeat split; vm_compute; reflexivity.
  - vm_compute; reflexivity.
  - vm_compute; reflexivity.
  - vm_compute; reflexivity.
  - rewrite Hown in Hc. discriminate Hc.
  - rewrite Hown in Hc. discriminate Hc.
Qed.

(** C4 (amended): a call made while the session is not connected and an
    attempt is recorded awaits that attempt and starts nothing.  It cannot
    continue while the attempt is pending.  When the attempt has failed, the
    waiter throws the error of the attempt and changes nothing.  When the
    attempt has ended without failure and the session is connected, the
    waiter returns the cached client and sets [lastUsed].  When the attempt
    has ended without failure and the session is not connected, the waiter
    starts an attempt of its own. *)
Theorem C4_waiter_follows_shared_attempt :
  forall (ver : version) (this : ref) (s : state),
    let w := world_of s in
    (forall j t' p',
        calls s j = None ->
        isSessionConnected this w = false ->
        connectionPromise (heap w this) = Some p' ->
        step ver this (Call j t') s
        = Some (with_call j {| cc_transport := t'; cc_pc := AwaitShared p' |} s))
    /\ (forall i t p,
          calls s i = Some {| cc_transport := t; cc_pc := AwaitShared p |} ->
          match promises w p with
          | Pending => step ver this (Resume i) s = None
          | Rejected e =>
              exists s',
                step ver this (Resume i) s = Some s'
                /\ settled_with s' i (Thrown e)
                /\ world_of s' = w /\ runs s' = runs s
          | Fulfilled =>
              if isSessionConnected this w then
                exists s' c,
                  step ver this (Resume i) s = Some s'
                  /\ client (heap w this) = Some c
                  /\ settled_with s' i (Returned (Some c))
                  /\ lastUsed (heap (world_of s') this) = clock w
                  /\ runs s' = runs s
                  /\ trace (world_of s') = trace w
              else
                exists s' closing,
                  step ver this (Resume i) s = Some s'
                  /\ calls s' i
                     = Some {| cc_transport := t;
                               cc_pc := AwaitOwn (nextPromise w) |}
                  /\ runs s' (nextPromise w)
                     = Some {| dc_transport := t; dc_pc := AwaitCleanup closing |}
                  /\ connectionPromise (heap (world_of s') this)
                     = Some (nextPromise w)
                  /\ In (CleanupCalled this) (trace (world_of s'))
          end).
Proof.
  intros ver this s w. split.
  - intros j t' p' Hcall Hcon Hp. unfold step. fold w.
    rewrite Hcall, Hcon. unfold connect_from_88. fold w. now rewrite Hp.
  - intros i t p Hcall. unfold step. fold w. rewrite Hcall.
    destruct (promises w p) as [| |e]; [reflexivity| |].
    + destruct (isSessionConnected this w) eqn:Hcon.
      * unfold isSessionConnected in Hcon. apply andb_prop in Hcon.
        destruct Hcon as [Hi Hc].
        destruct (client (heap w this)) as [c|] eqn:Ec; [|discriminate].
        eexists. exists c. split; [reflexivity|]. split; [reflexivity|].
        unfold settled_with, settle_call, touch_and_return, modify. unfold_M.
        fold w. cbn. rewrite ?upd_same. cbn. rewrite Ec.
        split; [exists t; reflexivity|]. repeat split.
      * destruct (cleanup_begin_frame this w)
          as (_ & Hnp & _ & _ & _ & _).
        destruct (cleanup_begin_effect this w) as (_ & _ & _ & _ & evs & Htr).
        unfold connect_from_96. fold w.
        destruct (cleanup_begin this w) as [closing w1]. cbn [fst snd] in *.
        eexists. exists closing. split; [reflexivity|].
        unfold settle_promise, modify. cbn. rewrite Hnp, ?upd_same. cbn.
        rewrite ?upd_same. repeat split.
        rewrite Htr. apply in_or_app. right. now left.
    + eexists. split; [reflexivity|].
      unfold settled_with, settle_call. unfold_M. fold w. cbn. rewrite upd_same.
      split; [exists t; reflexivity|]. split; reflexivity.
Qed.

Lemma C4_waiter_follows_shared_attempt_witness :
  exists s' closing,
    step V2 0%nat (Resume 1) (state_after V2 0%nat interfered fresh_session) = Some s'
    /\ calls s' 1%nat = Some {| cc_transport := 8%nat; cc_pc := AwaitOwn 1%nat |}
    /\ runs s' 1%nat = Some {| dc_transport := 8%nat; dc_pc := AwaitCleanup closing |}.
Proof.
  pose proof (proj2 (C4_waiter_follows_shared_attempt V2 0%nat
                       (state_after V2 0%nat interfered fresh_session))
                1%nat 8%nat 0%nat) as H.
  assert (calls (state_after V2 0%nat interfered fresh_session) 1%nat
          = Some {| cc_transport := 8%nat; cc_pc := AwaitShared 0%nat |}) as Hc
    by (vm_compute; reflexivity).
  specialize (H Hc).
  assert (promises (world_of (state_after V2 0%nat interfered fresh_session)) 0%nat
          = Fulfilled) as Hp by (vm_compute; reflexivity).
  assert (isSessionConnected 0%nat
            (world_of (state_after V2 0%nat interfered fresh_session)) = false) as Hi
    by (vm_compute; reflexivity).
  assert (nextPromise (world_of (state_after V2 0%nat interfered fresh_session))
          = 1%nat) as Hn by (vm_compute; reflexivity).
  rewrite Hp, Hi, Hn in H.
  destruct H as (s' & closing & H1 & H2 & H3 & _).
  exists s', closing. split; [exact H1|]. split; [exact H2 | exact H3].
Defined.

End AsyncFacts.

(* ================================================================== *)
(** ** Calls that do not overlap                                       *)
(* ================================================================== *)

Module SequentialFacts.
Import JS Session Manager Registry Samples Observe ManagerFacts RegistryFacts.

Ltac unfold_M :=
  unfold bind, act, get, try_catch, await, ret, throw, touch in *.

Lemma calms_refl (w : world) : calms w w.
Proof.
  split; [|lia]. intros r. split; [reflexivity|]. split; [trivial | now left].
Qed.

Lemma calms_trans (w1 w2 w3 : world) : calms w1 w2 -> calms w2 w3 -> calms w1 w3.
Proof.
  intros [H12 N12] [H23 N23]. split; [|lia]. intros r.
  destruct (H12 r) as (E1 & I1 & C1). destruct (H23 r) as (E2 & I2 & C2).
  split; [congruence|]. split; [auto|].
  destruct C2 as [C2|C2]; [|now right]. rewrite C2. exact C1.
Qed.

Lemma calms_idle (w w' : world) :
  calms w w' -> connected_means_idle w -> connected_means_idle w'.
Proof.
  intros [Hc _] Hw r Hi. destruct (Hc r) as (E & I & _). rewrite E. now apply Hw, I.
Qed.

Lemma calms_allocated (w w' : world) :
  calms w w' -> well_allocated w -> well_allocated w'.
Proof.
  intros [Hc Hn] Hw r c Hcl. destruct (Hc r) as (_ & _ & [C|C]); [|congruence].
  rewrite C in Hcl. specialize (Hw r c Hcl). lia.
Qed.

(** For a world written as updates of session [this] of [w]. *)
Ltac calm this :=
  let r := fresh "r" in
  let Hr := fresh "Hr" in
  split;
  [ intros r; unfold calmer; destruct (Nat.eq_dec r this) as [->|Hr];
    unfold modify, emit; cbn; rewrite ?upd_same; rewrite ?upd_other by assumption;
    cbn; rewrite ?upd_same; rewrite ?upd_other by assumption; cbn;
    (split; [reflexivity|]); (split; [first [tauto | discriminate]|]); tauto
  | unfold modify, emit; cbn; lia ].

Lemma cleanup_finish_calms (this : ref) (w : world) :
  calms w (cleanup_finish this w).
Proof. unfold cleanup_finish. calm this. Qed.

Lemma clear_cleanupTimer_calms (this : ref) (w : world) :
  calms w (clear_cleanupTimer this w).
Proof.
  unfold clear_cleanupTimer. destruct (cleanupTimer (heap w this));
    [calm this | apply calms_refl].
Qed.

Lemma cleanup_begin_calms (this : ref) (w : world) :
  calms w (snd (cleanup_begin this w)).
Proof.
  unfold cleanup_begin.
  apply (calms_trans w (clear_cleanupTimer this (emit (CleanupCalled this) w))).
  - apply (calms_trans w (emit (CleanupCalled this) w)); [calm this|].
    apply clear_cleanupTimer_calms.
  - destruct (transport _); cbn [snd]; [calm this | apply cleanup_finish_calms].
Qed.

Lemma cleanup_resume_calms (this : ref) (res : option error) (w : world) :
  calms w (snd (cleanup_resume this res w)).
Proof.
  unfold cleanup_resume, cleanup_finish. unfold_M. destruct res; cbn [fst snd]; calm this.
Qed.

Lemma cleanup_calms (env : environment) (this : ref) (w : world) :
  calms w (snd (cleanup env this w)).
Proof.
  rewrite cleanup_split.
  pose proof (cleanup_begin_calms this w) as H.
  destruct (cleanup_begin this w) as [[t|] w1]; cbn [snd] in *; [|exact H].
  eapply calms_trans; [exact H | apply cleanup_resume_calms].
Qed.

Lemma getClient_calms (env : environment) (this : ref) (w : world) :
  calms w (snd (getClient env this w)).
Proof.
  rewrite getClient_eq. unfold getClient_cases, after_failed_probe.
  destruct (isSessionConnected this w); [|apply calms_refl].
  destruct (client (heap w this)) as [c|];
    [destruct (transport (heap w this));
     [destruct (listTools_result env c)|]|]; cbn [snd]; calm this.
Qed.

Lemma getClientSync_calms (this : ref) (w : world) :
  calms w (snd (getClientSync this w)).
Proof.
  unfold getClientSync. unfold_M.
  destruct (isSessionConnected this w); cbn [snd]; [calm this | apply calms_refl].
Qed.

Lemma transport_onerror_calms (ver : version) (t : transportId) (e : error)
    (w : world) :
  calms w (transport_onerror ver t e w).
Proof.
  unfold transport_onerror. destruct (onerror w t) as [this|]; [|apply calms_refl].
  destruct ver; calm this.
Qed.

Lemma startCleanupTimer_calms (this : ref) (w : world) :
  calms w (startCleanupTimer this w).
Proof. unfold startCleanupTimer. calm this. Qed.

Lemma sweep_one_calms (acc : list pending_cleanup * world) (sid : jsstring) :
  calms (snd acc) (snd (sweep_one acc sid)).
Proof.
  destruct acc as [pending w]. cbn [snd]. unfold sweep_one.
  destruct (Map_get sid (instances w)) as [instance|]; [|apply calms_refl].
  pose proof (cleanup_begin_calms instance w) as H.
  destruct (cleanup_begin instance w) as [tr w1]. cbn [snd] in *. exact H.
Qed.

Lemma fold_sweep_one_calms (sids : list jsstring)
    (acc : list pending_cleanup * world) :
  calms (snd acc) (snd (fold_left sweep_one sids acc)).
Proof.
  revert acc. induction sids as [|sid sids IH]; intros acc; cbn.
  - apply calms_refl.
  - eapply calms_trans; [apply sweep_one_calms | apply IH].
Qed.

Lemma checkAndCleanupExpiredSessions_calms (this : ref) (w : world) :
  calms w (snd (checkAndCleanupExpiredSessions this w)).
Proof.
  unfold checkAndCleanupExpiredSessions.
  pose proof (fold_sweep_one_calms
                (map fst (filter (is_expired (clock w) w) (instances w)))
                ([], w)) as H.
  destruct (fold_left sweep_one _ _) as [pending w1]. cbn [snd] in *.
  destruct (0 <? _); [|exact H].
  eapply calms_trans; [exact H | apply startCleanupTimer_calms].
Qed.

Lemma run_each_calms (ks : list (M unit)) :
  Forall (fun k => forall w, calms w (snd (k w))) ks ->
  forall w, calms w (snd (run_each ks w)).
Proof.
  induction 1 as [|k ks Hk _ IH]; intros w; cbn; [apply calms_refl|].
  specialize (Hk w). destruct (k w) as [r w1]. cbn [snd] in Hk.
  specialize (IH w1). destruct (run_each ks w1) as [rs w2]. cbn [snd] in *.
  eapply calms_trans; eassumption.
Qed.

Lemma settle_cleanup_calms (env : environment) (p : pending_cleanup) (w : world) :
  calms w (snd (settle_cleanup env p w)).
Proof.
  unfold settle_cleanup, try_catch.
  pose proof (cleanup_resume_calms (pc_instance p)
                (close_result env (pc_transport p)) w) as H.
  pose proof (cleanup_resume_returns (pc_instance p)
                (close_result env (pc_transport p)) w) as Hr.
  destruct (cleanup_resume _ _ w) as [r w1]. cbn [fst snd] in *. now subst r.
Qed.

Lemma sweep_calms (env : environment) (this : ref) (w : world) :
  calms w (snd (sweep env this w)).
Proof.
  unfold sweep.
  pose proof (checkAndCleanupExpiredSessions_calms this w) as H.
  destruct (checkAndCleanupExpiredSessions this w) as [pending w1]. cbn [snd] in H.
  eapply calms_trans; [exact H|]. apply run_each_calms.
  apply Forall_forall. intros k Hk. apply in_map_iff in Hk.
  destruct Hk as (p & <- & _). intros w'. apply settle_cleanup_calms.
Qed.

Lemma begin_cleanups_calms (l : list (jsstring * ref)) :
  forall w, calms w (snd (begin_cleanups l w)).
Proof.
  induction l as [|[sid inst] l IH]; intros w; cbn; [apply calms_refl|].
  pose proof (cleanup_begin_calms inst w) as H.
  destruct (cleanup_begin inst w) as [tr w1]. cbn [snd] in H.
  specialize (IH w1). destruct (begin_cleanups l w1) as [ps w2]. cbn [snd] in *.
  eapply calms_trans; eassumption.
Qed.

Lemma resume_cleanup_calms (env : environment) (p : ref * option transportId)
    (w : world) :
  calms w (snd (resume_cleanup env p w)).
Proof.
  unfold resume_cleanup. destruct (snd p);
    [apply cleanup_resume_calms | apply calms_refl].
Qed.

Lemma cleanupAllSessions_calms (env : environment) (w : world) :
  calms w (snd (cleanupAllSessions env w)).
Proof.
  unfold cleanupAllSessions.
  pose proof (begin_cleanups_calms (instances w) w) as H1.
  destruct (begin_cleanups (instances w) w) as [ps w1]. cbn [snd] in H1.
  destruct (resume_cleanups_effect env ps w1) as (Hrs & _).
  pose proof (run_each_calms (map (resume_cleanup env) ps)) as H2.
  specialize (H2 ltac:(apply Forall_forall; intros k Hk; apply in_map_iff in Hk;
                       destruct Hk as (p & <- & _); intros w';
                       apply resume_cleanup_calms) w1).
  destruct (run_each (map (resume_cleanup env) ps) w1) as [rs w2].
  cbn [fst snd] in *. unfold_M. rewrite (Promise_all_returned rs w2 Hrs).
  cbn [snd]. eapply calms_trans; [exact H1|].
  eapply calms_trans; [exact H2|].
  split; [|cbn; lia]. intros r. split; [reflexivity|].
  split; [trivial | now left].
Qed.

Lemma connect_cached_calms (ver : version) (env : environment) (this : ref)
    (w : world) :
  calms w (snd (connect_cached ver env this w)).
Proof.
  unfold connect_cached, validateConnection. unfold_M.
  destruct (isSessionConnected this w); [|apply calms_refl].
  destruct ver.
  - cbn [snd]. calm this.
  - destruct (client (heap w this)) as [c|];
      [destruct (transport (heap w this));
       [destruct (listTools_result env c)|]|]; cbn [snd]; calm this.
Qed.

Lemma connect_shared_calms (this : ref) (w : world) :
  calms w (snd (connect_shared this w)).
Proof.
  unfold connect_shared, connect_recheck, await_promise. unfold_M.
  destruct (connectionPromise (heap w this)) as [p|]; [|apply calms_refl].
  destruct (promises w p); cbn [snd]; try apply calms_refl.
  destruct (isSessionConnected this w); cbn [snd]; [calm this | apply calms_refl].
Qed.

Lemma connect_fresh_idle (env : environment) (this : ref) (t : transportId)
    (w : world) :
  connected_means_idle w ->
  connected_means_idle (snd (connect_fresh env this t w)).
Proof.
  intros Hw. pose proof (connect_fresh_effect env this t w) as H. cbv zeta in H.
  destruct H as (H & Ho & _). intros r.
  destruct (Nat.eq_dec r this) as [->|Hr]; [|rewrite Ho by assumption; apply Hw].
  destruct (connect_result env (nextClient w) t);
    destruct H as (_ & -> & _); unfold promise_idle; cbn;
    [discriminate | reflexivity].
Qed.

Lemma connect_fresh_allocated (env : environment) (this : ref) (t : transportId)
    (w : world) :
  well_allocated w -> well_allocated (snd (connect_fresh env this t w)).
Proof.
  intros Hw. pose proof (connect_fresh_effect env this t w) as H. cbv zeta in H.
  destruct H as (H & Ho & _ & _ & _ & _ & Hn & _). intros r c.
  rewrite Hn. destruct (Nat.eq_dec r this) as [->|Hr].
  - destruct (connect_result env (nextClient w) t);
      destruct H as (_ & -> & _); cbn; [discriminate|]. intros [= <-]. lia.
  - rewrite Ho by assumption. intros Hc. specialize (Hw r c Hc). lia.
Qed.

Lemma connect_idle (ver : version) (env : environment) (this : ref)
    (t : transportId) (w : world) :
  connected_means_idle w /\ well_allocated w ->
  connected_means_idle (snd (connect ver env this t w))
  /\ well_allocated (snd (connect ver env this t w)).
Proof.
  intros [Hw Ha]. unfold connect. unfold bind at 1. unfold bind at 2.
  pose proof (connect_cached_calms ver env this w) as C1.
  pose proof (calms_idle _ _ C1 Hw) as H1.
  pose proof (calms_allocated _ _ C1 Ha) as A1.
  destruct (connect_cached ver env this w) as [[[v|]|e|] w1]; cbn [snd] in *;
    try (split; assumption).
  unfold bind.
  pose proof (connect_shared_calms this w1) as C2.
  pose proof (calms_idle _ _ C2 H1) as H2.
  pose proof (calms_allocated _ _ C2 A1) as A2.
  destruct (connect_shared this w1) as [[[v|]|e|] w2]; cbn [snd] in *;
    try (split; assumption).
  split; [now apply connect_fresh_idle | now apply connect_fresh_allocated].
Qed.

Lemma getInstance_idle (sid : jsstring) (w : world) :
  connected_means_idle w /\ well_allocated w ->
  connected_means_idle (snd (getInstance sid w))
  /\ well_allocated (snd (getInstance sid w)).
Proof.
  intros [Hw Ha]. unfold getInstance, new_McpSessionManager, startCleanupTimer.
  destruct (Map_has sid (instances w)); cbn [negb].
  - destruct (Map_get sid (instances w)) as [inst|]; cbn [snd]; [|now split].
    assert (calms w (modify inst (set_lastUsed (clock w)) w)) as C by calm inst.
    split; [now apply (calms_idle w) | now apply (calms_allocated w)].
  - cbn.
    set (w1 := modify (nextRef w) (set_cleanupTimer (Some (nextTimer w)))
                 (with_heap
                    (upd (nextRef w)
                       {| client := None; transport := None; isConnected := false;
                          connectionPromise := None; lastUsed := clock w;
                          sessionId := sid; cleanupTimer := None |} (heap w)) w)).
    assert (connected_means_idle w1 /\ well_allocated w1) as [H1 A1].
    { split; intros r; unfold w1, modify, promise_idle; cbn;
        (destruct (Nat.eq_dec r (nextRef w)) as [->|Hr];
         [rewrite !upd_same; cbn; discriminate
         |rewrite !upd_other by assumption]).
      - apply Hw.
      - apply Ha. }
    destruct (Map_get sid _) as [inst|]; cbn [snd].
    + split; intros r; unfold modify, emit; cbn;
        [specialize (H1 r) | specialize (A1 r)];
        unfold w1, modify, promise_idle in *; cbn in *;
        (destruct (Nat.eq_dec r inst) as [->|Hr];
         [rewrite upd_same; cbn; assumption
         |rewrite (upd_other inst r) by assumption; assumption]).
    + split; [exact H1 | exact A1].
Qed.

(** In every world that calls which do not overlap can produce, a
    connected session records no attempt, and every client a session holds
    has been built. *)
Lemma reachable_invariant (ver : version) (w : world) :
  reachable ver w -> connected_means_idle w /\ well_allocated w.
Proof.
  induction 1 as [now|d w _ IH|sid w _ IH|env this t w _ IH|env this w _ IH
                  |this w _ IH|env this w _ IH|env this w _ IH|env w _ IH
                  |t e w _ IH].
  - split; intros r; cbn; discriminate.
  - exact IH.
  - now apply getInstance_idle.
  - now apply connect_idle.
  - destruct IH as [H A].
    split; [apply (calms_idle w) | apply (calms_allocated w)];
      try assumption; apply getClient_calms.
  - destruct IH as [H A].
    split; [apply (calms_idle w) | apply (calms_allocated w)];
      try assumption; apply getClientSync_calms.
  - destruct IH as [H A].
    split; [apply (calms_idle w) | apply (calms_allocated w)];
      try assumption; apply cleanup_calms.
  - destruct IH as [H A].
    split; [apply (calms_idle w) | apply (calms_allocated w)];
      try assumption; apply sweep_calms.
  - destruct IH as [H A].
    split; [apply (calms_idle w) | apply (calms_allocated w)];
      try assumption; apply cleanupAllSessions_calms.
  - destruct IH as [H A].
    split; [apply (calms_idle w) | apply (calms_allocated w)];
      try assumption; apply transport_onerror_calms.
Qed.

(** C7: [getClient] of [part_000] always returns (it never throws), builds
    no client and starts no handshake; on a session that is not connected it
    returns [null] and changes nothing; when the probe fails it returns
    [null] and leaves [isSessionConnected()] false; and then, in a world that
    calls which do not overlap have produced, the next [connect] builds
    exactly one new client, returns that client when its handshake succeeds
    and throws otherwise: it never returns the client whose probe failed. *)
Theorem C7_getClient_never_throws_never_reconnects :
  forall (env : environment) (this : ref) (w : world),
    let r := getClient env this w in
    let w' := snd r in
    (exists v, fst r = Returned v)
    /\ (exists evs, trace w' = evs ++ trace w /\ forallb is_passive evs = true)
    /\ nextClient w' = nextClient w
    /\ (isSessionConnected this w = false -> fst r = Returned None /\ w' = w)
    /\ (probe_fails env this w ->
          fst r = Returned None
          /\ isSessionConnected this w' = false
          /\ (reachable V2 w ->
              forall (env2 : environment) (t2 : transportId),
                let r2 := connect V2 env2 this t2 w' in
                let c2 := nextClient w in
                (exists evs, trace (snd r2) = evs ++ trace w' /\
                             filter is_NewClient evs = [NewClient c2])
                /\ match connect_result env2 c2 t2 with
                   | None =>
                       fst r2 = Returned (Some c2)
                       /\ isSessionConnected this (snd r2) = true
                       /\ client (heap (snd r2) this) = Some c2
                   | Some e => exists err, fst r2 = Thrown err
                   end
                /\ fst r2 <> Returned (client (heap w this)))).
Proof.
  intros env this w r w'. subst r w'.
  destruct (getClient_then_connect env this w) as (H1 & H2 & H3 & H4 & H5).
  split; [exact H1|]. split; [exact H2|]. split; [exact H3|]. split; [exact H4|].
  intros Hp. destruct (H5 Hp) as (H6 & H7 & H8).
  split; [exact H6|]. split; [exact H7|].
  intros Hreach env2 t2.
  destruct (reachable_invariant V2 w Hreach) as [Hidle Halloc].
  destruct Hp as [Hcon _]. unfold isSessionConnected in Hcon.
  apply andb_prop in Hcon. destruct Hcon as [Hi Hc].
  destruct (H8 env2 t2 (Hidle this Hi)) as (H9 & H10 & H11).
  split; [exact H9|]. split; [exact H10|].
  destruct (client (heap w this)) as [c|] eqn:Ec; [|discriminate].
  apply (H11 c eq_refl). now apply (Halloc this).
Qed.

Lemma C7_getClient_never_throws_never_reconnects_witness :
  fst (getClient broken 0%nat (world_connected V2)) = Returned None
  /\ isSessionConnected 0%nat (snd (getClient broken 0%nat (world_connected V2))) = false
  /\ fst (connect V2 healthy 0%nat 8%nat
            (snd (getClient broken 0%nat (world_connected V2))))
     = Returned (Some 1%nat)
  /\ fst (connect V2 healthy 0%nat 8%nat
            (snd (getClient broken 0%nat (world_connected V2))))
     <> Returned (Some 0%nat).
Proof.
  destruct (C7_getClient_never_throws_never_reconnects broken 0%nat (world_connected V2))
    as (_ & _ & _ & _ & H).
  assert (probe_fails broken 0%nat (world_connected V2)) as Hp.
  { split; [vm_compute; reflexivity|]. right.
    exists 0%nat, (Error (lit "Not connected")). split; vm_compute; reflexivity. }
  destruct (H Hp) as (H1 & H2 & H3).
  assert (reachable V2 (world_connected V2)) as Hr.
  { unfold world_connected. apply reach_connect, reach_getInstance, reach_initial. }
  destruct (H3 Hr healthy 8%nat) as (_ & H4 & H5).
  assert (nextClient (world_connected V2) = 1%nat) as Hn by (vm_compute; reflexivity).
  assert (client (heap (world_connected V2) 0%nat) = Some 0%nat) as Hc
    by (vm_compute; reflexivity).
  assert (connect_result healthy 1%nat 8%nat = None) as He by reflexivity.
  rewrite Hn, He in H4. rewrite Hc in H5.
  split; [exact H1|]. split; [exact H2|]. split; [exact (proj1 H4) | exact H5].
Defined.

End SequentialFacts.

(* ================================================================== *)
(** ** The registry and the life of a session                          *)
(* ================================================================== *)

Module LifecycleFacts.
Import JS Session Manager Registry Samples Observe Lifecycle.
Import JSFacts ManagerFacts RegistryFacts.

Ltac unfold_M :=
  unfold bind, act, get, try_catch, await, ret, throw, touch in *.

Ltac simp_heap := repeat (cbn in *; rewrite ?upd_same in * ).

Lemma Map_get_set (k : jsstring) (v : ref) (m : list (jsstring * ref)) :
  Map_get k (Map_set k v m) = Some v.
Proof.
  induction m as [|[k' v'] m IH]; cbn.
  - now rewrite jsstring_eqb_refl.
  - destruct (jsstring_eqb k k') eqn:E; cbn; rewrite E; [reflexivity | exact IH].
Qed.

Lemma Map_get_set_other (k k' : jsstring) (v : ref) (m : list (jsstring * ref)) :
  k' <> k -> Map_get k' (Map_set k v m) = Map_get k' m.
Proof.
  intros Hk. induction m as [|[k0 v0] m IH]; cbn.
  - apply jsstring_eqb_neq in Hk. now rewrite Hk.
  - destruct (jsstring_eqb k k0) eqn:E; cbn.
    + apply jsstring_eqb_eq in E. subst k0.
      apply jsstring_eqb_neq in Hk. now rewrite Hk.
    + now rewrite IH.
Qed.

Lemma Map_set_new (k : jsstring) (v : ref) (m : list (jsstring * ref)) :
  Map_get k m = None -> Map_set k v m = m ++ [(k, v)].
Proof.
  induction m as [|[k0 v0] m IH]; cbn; [reflexivity|].
  destruct (jsstring_eqb k k0); [discriminate|]. intros H. now rewrite IH.
Qed.

Lemma getInstance_effect (sid : jsstring) (w : world) :
  let r := fst (getInstance sid w) in
  let w' := snd (getInstance sid w) in
  Map_get sid (instances w') = Some r
  /\ lastUsed (heap w' r) = clock w
  /\ (forall sid', sid' <> sid ->
        Map_get sid' (instances w') = Map_get sid' (instances w))
  /\ (forall r', r' <> r -> heap w' r' = heap w r')
  /\ match Map_get sid (instances w) with
     | Some r0 =>
         r = r0
         /\ heap w' r = set_lastUsed (clock w) (heap w r)
         /\ instances w' = instances w
         /\ nextRef w' = nextRef w
         /\ timers w' = timers w
         /\ trace w' = trace w
     | None =>
         r = nextRef w
         /\ heap w' r = created sid (clock w) (nextTimer w)
         /\ instances w' = instances w ++ [(sid, r)]
         /\ nextRef w' = S (nextRef w)
         /\ timers w' = (nextTimer w, r) :: timers w
         /\ trace w' = SetTimeout (nextTimer w) :: trace w
     end
  /\ clock w' = clock w /\ nextClient w' = nextClient w
  /\ promises w' = promises w /\ nextPromise w' = nextPromise w
  /\ onerror w' = onerror w.
Proof.
  intros r w'. subst r w'.
  unfold getInstance, Map_has, new_McpSessionManager, startCleanupTimer,
    modify, emit.
  destruct (Map_get sid (instances w)) as [r0|] eqn:E; cbn [negb].
  - rewrite E. simp_heap.
    repeat match goal with |- _ /\ _ => split end; try reflexivity;
      try assumption.
    intros r' Hr'. now rewrite upd_other.
  - cbn. rewrite Map_get_set. simp_heap.
    repeat match goal with |- _ /\ _ => split end; try reflexivity.
    + apply Map_get_set.
    + intros sid' Hs. now apply Map_get_set_other.
    + intros r' Hr'. now rewrite !upd_other.
    + now apply Map_set_new.
Qed.

(** X1: [getInstance] is get-or-create.  The object it returns is the one
    registered under the id afterwards, and it is marked as used now.  If
    the id was registered, that object is returned and nothing else
    changes: no object is built, no timer armed.  If not, a new object is
    built, unconnected, with its sweep timer armed, and registered last.
    No other id and no other object is affected, and a second call returns
    the same object without building or registering anything. *)
Theorem X1_getInstance_get_or_create :
  forall (sid : jsstring) (w : world),
    let r := fst (getInstance sid w) in
    let w' := snd (getInstance sid w) in
    Map_get sid (instances w') = Some r
    /\ lastUsed (heap w' r) = clock w
    /\ (forall sid', sid' <> sid ->
          Map_get sid' (instances w') = Map_get sid' (instances w))
    /\ (forall r', r' <> r -> heap w' r' = heap w r')
    /\ match Map_get sid (instances w) with
       | Some r0 =>
           r = r0
           /\ heap w' r = set_lastUsed (clock w) (heap w r)
           /\ instances w' = instances w
           /\ nextRef w' = nextRef w
           /\ timers w' = timers w
           /\ trace w' = trace w
       | None =>
           r = nextRef w
           /\ heap w' r = created sid (clock w) (nextTimer w)
           /\ instances w' = instances w ++ [(sid, r)]
           /\ nextRef w' = S (nextRef w)
           /\ timers w' = (nextTimer w, r) :: timers w
           /\ trace w' = SetTimeout (nextTimer w) :: trace w
       end
    /\ fst (getInstance sid w') = r
    /\ instances (snd (getInstance sid w')) = instances w'
    /\ nextRef (snd (getInstance sid w')) = nextRef w'
    /\ timers (snd (getInstance sid w')) = timers w'.
Proof.
  intros sid w r w'.
  destruct (getInstance_effect sid w) as (H1 & H2 & H3 & H4 & H5 & _).
  fold r w' in H1, H2, H3, H4, H5.
  repeat match goal with |- _ /\ _ => split end; try assumption;
    unfold getInstance, Map_has; rewrite H1; cbn; now rewrite H1.
Qed.

End LifecycleFacts.

(* ================================================================== *)
(** ** What no call but [getInstance] and [connect] can do             *)
(* ================================================================== *)

Module SteadyFacts.
Import JS Session Manager Registry Samples Observe Lifecycle.
Import JSFacts ManagerFacts RegistryFacts LifecycleFacts.

Ltac unfold_M :=
  unfold bind, act, get, try_catch, await, ret, throw, touch in *.

Lemma filter_true {A} (l : list A) : filter (fun _ => true) l = l.
Proof. induction l as [|a l IH]; cbn; congruence. Qed.

Lemma filter_twice {A} (f g : A -> bool) (l : list A) :
  filter g (filter f l) = filter (fun a => f a && g a) l.
Proof.
  induction l as [|a l IH]; cbn; [reflexivity|].
  destruct (f a); cbn; [destruct (g a)|]; congruence.
Qed.

Lemma keeps_refl (m : McpSessionManager) : keeps m m.
Proof. split; [reflexivity | auto]. Qed.

Lemma keeps_trans (m1 m2 m3 : McpSessionManager) :
  keeps m1 m2 -> keeps m2 m3 -> keeps m1 m3.
Proof.
  intros [S1 K1] [S2 K2]. split; [congruence|]. intros H.
  destruct (K2 H) as (I2 & C2 & T2). destruct (K1 I2) as (I1 & C1 & T1).
  repeat split; congruence.
Qed.

Lemma steady_refl (w : world) : steady w w.
Proof.
  split; [intros r; apply keeps_refl|]. split; [reflexivity|].
  split; [reflexivity|]. exists (fun _ => true). symmetry. apply filter_true.
Qed.

Lemma steady_trans (w1 w2 w3 : world) : steady w1 w2 -> steady w2 w3 -> steady w1 w3.
Proof.
  intros (K1 & N1 & C1 & f & F1) (K2 & N2 & C2 & g & F2).
  split; [intros r; eapply keeps_trans; [apply K1 | apply K2]|].
  split; [congruence|]. split; [congruence|].
  exists (fun a => f a && g a). rewrite F2, F1. apply filter_twice.
Qed.

Lemma quiet_refl (w : world) : quiet w w.
Proof. split; [apply steady_refl | reflexivity]. Qed.

Lemma quiet_trans (w1 w2 w3 : world) : quiet w1 w2 -> quiet w2 w3 -> quiet w1 w3.
Proof.
  intros [S1 L1] [S2 L2]. split; [eapply steady_trans; eassumption|].
  intros r. now rewrite L2.
Qed.

(** For a world written as updates of session [this] of [w]. *)
Ltac still_goal this :=
  let r := fresh "r" in
  let Hr := fresh "Hr" in
  let H := fresh "H" in
  match goal with
  | |- exists f, _ = filter f _ =>
      exists (fun _ => true); unfold modify, emit; cbn; symmetry; apply filter_true
  | |- forall r, keeps _ _ =>
      intros r; unfold keeps; destruct (Nat.eq_dec r this) as [->|Hr];
      unfold modify, emit; cbn; rewrite ?upd_same; rewrite ?upd_other by assumption;
      cbn; rewrite ?upd_same; rewrite ?upd_other by assumption; cbn;
      (split; [reflexivity | intros H; first [discriminate H | auto]])
  | |- forall r, lastUsed _ = lastUsed _ =>
      intros r; destruct (Nat.eq_dec r this) as [->|Hr];
      unfold modify, emit; cbn; rewrite ?upd_same; rewrite ?upd_other by assumption;
      cbn; rewrite ?upd_same; rewrite ?upd_other by assumption; reflexivity
  | |- _ = _ => reflexivity
  end.

Ltac still this :=
  unfold quiet, steady;
  repeat match goal with |- _ /\ _ => split end;
  still_goal this.

Lemma cleanup_finish_quiet (this : ref) (w : world) :
  quiet w (cleanup_finish this w).
Proof. unfold cleanup_finish. still this. Qed.

Lemma clear_cleanupTimer_quiet (this : ref) (w : world) :
  quiet w (clear_cleanupTimer this w).
Proof.
  unfold clear_cleanupTimer. destruct (cleanupTimer (heap w this));
    [still this | apply quiet_refl].
Qed.

Lemma cleanup_begin_quiet (this : ref) (w : world) :
  quiet w (snd (cleanup_begin this w)).
Proof.
  unfold cleanup_begin.
  apply (quiet_trans w (clear_cleanupTimer this (emit (CleanupCalled this) w))).
  - apply (quiet_trans w (emit (CleanupCalled this) w)); [still this|].
    apply clear_cleanupTimer_quiet.
  - destruct (transport _); cbn [snd]; [still this | apply cleanup_finish_quiet].
Qed.

Lemma cleanup_resume_quiet (this : ref) (res : option error) (w : world) :
  quiet w (snd (cleanup_resume this res w)).
Proof.
  unfold cleanup_resume, cleanup_finish. unfold_M.
  destruct res; cbn [fst snd]; still this.
Qed.

Lemma cleanup_quiet (env : environment) (this : ref) (w : world) :
  quiet w (snd (cleanup env this w)).
Proof.
  rewrite cleanup_split.
  pose proof (cleanup_begin_quiet this w) as H.
  destruct (cleanup_begin this w) as [[t|] w1]; cbn [snd] in *; [|exact H].
  eapply quiet_trans; [exact H | apply cleanup_resume_quiet].
Qed.

Lemma transport_onerror_quiet (ver : version) (t : transportId) (e : error)
    (w : world) :
  quiet w (transport_onerror ver t e w).
Proof.
  unfold transport_onerror. destruct (onerror w t) as [this|]; [|apply quiet_refl].
  destruct ver; still this.
Qed.

Lemma startCleanupTimer_quiet (this : ref) (w : world) :
  quiet w (startCleanupTimer this w).
Proof. unfold startCleanupTimer. still this. Qed.

Lemma sweep_one_quiet (acc : list pending_cleanup * world) (sid : jsstring) :
  quiet (snd acc) (snd (sweep_one acc sid)).
Proof.
  destruct acc as [pending w]. cbn [snd]. unfold sweep_one.
  destruct (Map_get sid (instances w)) as [instance|]; [|apply quiet_refl].
  pose proof (cleanup_begin_quiet instance w) as H.
  destruct (cleanup_begin instance w) as [tr w1]. cbn [snd] in *.
  eapply quiet_trans; [exact H|].
  split; [|reflexivity]. split; [intros r; apply keeps_refl|].
  split; [reflexivity|]. split; [reflexivity|].
  eexists. cbn. unfold Map_delete. reflexivity.
Qed.

Lemma fold_sweep_one_quiet (sids : list jsstring)
    (acc : list pending_cleanup * world) :
  quiet (snd acc) (snd (fold_left sweep_one sids acc)).
Proof.
  revert acc. induction sids as [|sid sids IH]; intros acc; cbn.
  - apply quiet_refl.
  - eapply quiet_trans; [apply sweep_one_quiet | apply IH].
Qed.

Lemma checkAndCleanupExpiredSessions_quiet (this : ref) (w : world) :
  quiet w (snd (checkAndCleanupExpiredSessions this w)).
Proof.
  unfold checkAndCleanupExpiredSessions.
  pose proof (fold_sweep_one_quiet
                (map fst (filter (is_expired (clock w) w) (instances w)))
                ([], w)) as H.
  destruct (fold_left sweep_one _ _) as [pending w1]. cbn [snd] in *.
  destruct (0 <? _); [|exact H].
  eapply quiet_trans; [exact H | apply startCleanupTimer_quiet].
Qed.

Lemma run_each_quiet (ks : list (M unit)) :
  Forall (fun k => forall w, quiet w (snd (k w))) ks ->
  forall w, quiet w (snd (run_each ks w)).
Proof.
  induction 1 as [|k ks Hk _ IH]; intros w; cbn; [apply quiet_refl|].
  specialize (Hk w). destruct (k w) as [r w1]. cbn [snd] in Hk.
  specialize (IH w1). destruct (run_each ks w1) as [rs w2]. cbn [snd] in *.
  eapply quiet_trans; eassumption.
Qed.

Lemma settle_cleanup_quiet (env : environment) (p : pending_cleanup) (w : world) :
  quiet w (snd (settle_cleanup env p w)).
Proof.
  unfold settle_cleanup, try_catch.
  pose proof (cleanup_resume_quiet (pc_instance p)
                (close_result env (pc_transport p)) w) as H.
  pose proof (cleanup_resume_returns (pc_instance p)
                (close_result env (pc_transport p)) w) as Hr.
  destruct (cleanup_resume _ _ w) as [r w1]. cbn [fst snd] in *. now subst r.
Qed.

Lemma sweep_quiet (env : environment) (this : ref) (w : world) :
  quiet w (snd (sweep env this w)).
Proof.
  unfold sweep.
  pose proof (checkAndCleanupExpiredSessions_quiet this w) as H.
  destruct (checkAndCleanupExpiredSessions this w) as [pending w1]. cbn [snd] in H.
  eapply quiet_trans; [exact H|]. apply run_each_quiet.
  apply Forall_forall. intros k Hk. apply in_map_iff in Hk.
  destruct Hk as (p & <- & _). intros w'. apply settle_cleanup_quiet.
Qed.

Lemma begin_cleanups_quiet (l : list (jsstring * ref)) :
  forall w, quiet w (snd (begin_cleanups l w)).
Proof.
  induction l as [|[sid inst] l IH]; intros w; cbn; [apply quiet_refl|].
  pose proof (cleanup_begin_quiet inst w) as H.
  destruct (cleanup_begin inst w) as [tr w1]. cbn [snd] in H.
  specialize (IH w1). destruct (begin_cleanups l w1) as [ps w2]. cbn [snd] in *.
  eapply quiet_trans; eassumption.
Qed.

Lemma resume_cleanup_quiet (env : environment) (p : ref * option transportId)
    (w : world) :
  quiet w (snd (resume_cleanup env p w)).
Proof.
  unfold resume_cleanup. destruct (snd p);
    [apply cleanup_resume_quiet | apply quiet_refl].
Qed.

Lemma cleanupAllSessions_quiet (env : environment) (w : world) :
  quiet w (snd (cleanupAllSessions env w)).
Proof.
  unfold cleanupAllSessions.
  pose proof (begin_cleanups_quiet (instances w) w) as H1.
  destruct (begin_cleanups (instances w) w) as [ps w1]. cbn [snd] in H1.
  destruct (resume_cleanups_effect env ps w1) as (Hrs & _).
  pose proof (run_each_quiet (map (resume_cleanup env) ps)) as H2.
  specialize (H2 ltac:(apply Forall_forall; intros k Hk; apply in_map_iff in Hk;
                       destruct Hk as (p & <- & _); intros w';
                       apply resume_cleanup_quiet) w1).
  destruct (run_each (map (resume_cleanup env) ps) w1) as [rs w2].
  cbn [fst snd] in *. unfold_M. rewrite (Promise_all_returned rs w2 Hrs).
  cbn [snd]. eapply quiet_trans; [exact H1|].
  eapply quiet_trans; [exact H2|].
  split; [|reflexivity]. split; [intros r; apply keeps_refl|].
  split; [reflexivity|]. split; [reflexivity|].
  exists (fun _ => false). cbn. clear. induction (instances w2); cbn; auto.
Qed.

Lemma getClient_steady (env : environment) (this : ref) (w : world) :
  steady w (snd (getClient env this w)).
Proof.
  rewrite getClient_eq. unfold getClient_cases, after_failed_probe.
  destruct (isSessionConnected this w); [|apply steady_refl].
  destruct (client (heap w this)) as [c|];
    [destruct (transport (heap w this));
     [destruct (listTools_result env c)|]|]; cbn [snd]; still this.
Qed.

Lemma getClientSync_steady (this : ref) (w : world) :
  steady w (snd (getClientSync this w)).
Proof.
  unfold getClientSync. unfold_M.
  destruct (isSessionConnected this w); cbn [snd]; [still this | apply steady_refl].
Qed.

Lemma connect_cached_steady (ver : version) (env : environment) (this : ref)
    (w : world) :
  steady w (snd (connect_cached ver env this w)).
Proof.
  unfold connect_cached, validateConnection. unfold_M.
  destruct (isSessionConnected this w); [|apply steady_refl].
  destruct ver.
  - cbn [snd]. still this.
  - destruct (client (heap w this)) as [c|];
      [destruct (transport (heap w this));
       [destruct (listTools_result env c)|]|]; cbn [snd]; still this.
Qed.

Lemma connect_shared_steady (this : ref) (w : world) :
  steady w (snd (connect_shared this w)).
Proof.
  unfold connect_shared, connect_recheck, await_promise. unfold_M.
  destruct (connectionPromise (heap w this)) as [p|]; [|apply steady_refl].
  destruct (promises w p); cbn [snd]; try apply steady_refl.
  destruct (isSessionConnected this w); cbn [snd]; [still this | apply steady_refl].
Qed.

End SteadyFacts.

(* ================================================================== *)
(** ** Invariants of the registry and of the connected flag            *)
(* ================================================================== *)

Module SoundFacts.
Import JS Session Manager Registry Samples Observe Lifecycle.
Import JSFacts ManagerFacts RegistryFacts LifecycleFacts SteadyFacts.

Lemma NoDup_map_filter {A B} (g : A -> B) (f : A -> bool) (l : list A) :
  NoDup (map g l) -> NoDup (map g (filter f l)).
Proof.
  induction l as [|a l IH]; cbn; [auto|]. intros H.
  apply NoDup_cons_iff in H. destruct H as [Hn Hd].
  destruct (f a); cbn; [|auto]. constructor; [|auto].
  intros Hin. apply Hn. apply in_map_iff in Hin. destruct Hin as (x & <- & Hx).
  apply filter_In in Hx. apply in_map. tauto.
Qed.

Lemma NoDup_snoc {A} (a : A) (l : list A) :
  NoDup l -> ~ In a l -> NoDup (l ++ [a]).
Proof.
  induction l as [|b l IH]; cbn; intros Hd Hn.
  - constructor; [tauto | constructor].
  - apply NoDup_cons_iff in Hd. destruct Hd as [Hb Hd].
    constructor; [|apply IH; tauto].
    intros Hin. apply in_app_or in Hin. destruct Hin as [Hin|[->|[]]]; tauto.
Qed.

Lemma Map_get_notin (k : jsstring) (m : list (jsstring * ref)) :
  Map_get k m = None -> ~ In k (map fst m).
Proof.
  induction m as [|[k' v] m IH]; cbn; [tauto|].
  destruct (jsstring_eqb k k') eqn:E; [discriminate|].
  apply jsstring_eqb_neq in E. intros H [H1|H1]; [congruence | now apply IH].
Qed.

Lemma steady_wf (w w' : world) : steady w w' -> registry_wf w -> registry_wf w'.
Proof.
  intros (K & N & _ & f & F) (Hk & Hr & Hs). unfold registry_wf, distinct_keys.
  rewrite F, N.
  split; [now apply NoDup_map_filter|]. split; [now apply NoDup_map_filter|].
  intros sid r Hin. apply filter_In in Hin. destruct Hin as [Hin _].
  destruct (Hs sid r Hin) as [Hlt Hsid]. split; [exact Hlt|].
  destruct (K r) as [E _]. congruence.
Qed.

Lemma steady_coherent (w w' : world) : steady w w' -> coherent w -> coherent w'.
Proof.
  intros (K & _) Hc r Hi. destruct (K r) as [_ Hk].
  destruct (Hk Hi) as (I & C & T). rewrite C, T. now apply Hc.
Qed.

Lemma getInstance_sound (sid : jsstring) (w : world) :
  registry_wf w /\ coherent w ->
  registry_wf (snd (getInstance sid w)) /\ coherent (snd (getInstance sid w)).
Proof.
  intros [Hw Hc]. pose proof Hw as (Hk & Hr & Hs).
  destruct (getInstance_effect sid w) as (_ & _ & _ & Ho & H & _).
  cbv zeta in Ho, H.
  set (r := fst (getInstance sid w)) in *.
  set (w' := snd (getInstance sid w)) in *.
  destruct (Map_get sid (instances w)) as [r0|] eqn:E.
  - destruct H as (_ & Hh & Hi & Hn & _).
    assert (forall r', keeps (heap w r') (heap w' r')) as K.
    { intros r'. destruct (Nat.eq_dec r' r) as [->|Hne].
      - rewrite Hh. split; [reflexivity | cbn; auto].
      - rewrite Ho by assumption. apply keeps_refl. }
    assert (steady w w') as St.
    { split; [exact K|]. split; [exact Hn|].
      split; [apply (getInstance_effect sid w)|].
      exists (fun _ => true). rewrite Hi. symmetry. apply filter_true. }
    split; [apply (steady_wf w) | apply (steady_coherent w)]; assumption.
  - destruct H as (Hr0 & Hh & Hi & Hn & _).
    split.
    + unfold registry_wf, distinct_keys. rewrite Hi, Hn, !map_app. cbn [map fst snd].
      split; [|split].
      * apply NoDup_snoc; [exact Hk | now apply Map_get_notin].
      * apply NoDup_snoc; [exact Hr|]. intros Hin. apply in_map_iff in Hin.
        destruct Hin as ([s x] & Hx & Hin). cbn in Hx. subst x.
        destruct (Hs s r Hin) as [Hlt _]. lia.
      * intros s x Hin. apply in_app_or in Hin. destruct Hin as [Hin|[[= <- <-]|[]]].
        -- destruct (Hs s x Hin) as [Hlt Hsid].
           split; [lia|]. rewrite Ho by lia. exact Hsid.
        -- split; [lia|]. now rewrite Hh.
    + intros x. destruct (Nat.eq_dec x r) as [->|Hne].
      * rewrite Hh. cbn. discriminate.
      * rewrite Ho by assumption. apply Hc.
Qed.

Lemma connect_fresh_sound (env : environment) (this : ref) (t : transportId)
    (w : world) :
  registry_wf w /\ coherent w ->
  registry_wf (snd (connect_fresh env this t w))
  /\ coherent (snd (connect_fresh env this t w)).
Proof.
  intros [(Hk & Hr & Hs) Hc].
  pose proof (connect_fresh_effect env this t w) as H. cbv zeta in H.
  destruct H as (H & Ho & _ & _ & _ & (Hi & _ & Hn) & _).
  set (w' := snd (connect_fresh env this t w)) in *.
  assert (sessionId (heap w' this) = sessionId (heap w this)) as Hsid.
  { destruct (connect_result env (nextClient w) t);
      destruct H as (_ & -> & _); reflexivity. }
  split.
  - unfold registry_wf. rewrite Hi, Hn. split; [exact Hk|]. split; [exact Hr|].
    intros sid r Hin. destruct (Hs sid r Hin) as [Hlt Hsr]. split; [exact Hlt|].
    destruct (Nat.eq_dec r this) as [->|Hne]; [congruence|].
    now rewrite Ho.
  - intros r. destruct (Nat.eq_dec r this) as [->|Hne].
    + destruct (connect_result env (nextClient w) t);
        destruct H as (_ & -> & _); cbn; [discriminate|].
      intros _. split; discriminate.
    + rewrite Ho by assumption. apply Hc.
Qed.

Lemma connect_sound (ver : version) (env : environment) (this : ref)
    (t : transportId) (w : world) :
  registry_wf w /\ coherent w ->
  registry_wf (snd (connect ver env this t w))
  /\ coherent (snd (connect ver env this t w)).
Proof.
  intros [Hw Hc]. unfold connect. unfold bind at 1. unfold bind at 2.
  pose proof (connect_cached_steady ver env this w) as C1.
  pose proof (steady_wf _ _ C1 Hw) as H1.
  pose proof (steady_coherent _ _ C1 Hc) as A1.
  destruct (connect_cached ver env this w) as [[[v|]|e|] w1]; cbn [snd] in *;
    try (split; assumption).
  unfold bind.
  pose proof (connect_shared_steady this w1) as C2.
  pose proof (steady_wf _ _ C2 H1) as H2.
  pose proof (steady_coherent _ _ C2 A1) as A2.
  destruct (connect_shared this w1) as [[[v|]|e|] w2]; cbn [snd] in *;
    try (split; assumption).
  now apply connect_fresh_sound.
Qed.

Lemma quiet_sound (w w' : world) :
  quiet w w' -> registry_wf w /\ coherent w -> registry_wf w' /\ coherent w'.
Proof.
  intros [S _] [Hw Hc].
  split; [now apply (steady_wf w) | now apply (steady_coherent w)].
Qed.

Lemma steady_sound (w w' : world) :
  steady w w' -> registry_wf w /\ coherent w -> registry_wf w' /\ coherent w'.
Proof.
  intros S [Hw Hc].
  split; [now apply (steady_wf w) | now apply (steady_coherent w)].
Qed.

(** In every world that calls which do not overlap can produce, the
    registry is well formed and the connected flag is backed by a client
    and a transport. *)
Lemma reachable_sound (ver : version) (w : world) :
  reachable ver w -> registry_wf w /\ coherent w.
Proof.
  induction 1 as [now|d w _ IH|sid w _ IH|env this t w _ IH|env this w _ IH
                  |this w _ IH|env this w _ IH|env this w _ IH|env w _ IH
                  |t e w _ IH].
  - split.
    + split; [constructor|]. split; [constructor|]. intros sid r [].
    + intros r. cbn. discriminate.
  - exact IH.
  - now apply getInstance_sound.
  - now apply connect_sound.
  - apply (steady_sound w); [apply getClient_steady | exact IH].
  - apply (steady_sound w); [apply getClientSync_steady | exact IH].
  - apply (quiet_sound w); [apply cleanup_quiet | exact IH].
  - apply (quiet_sound w); [apply sweep_quiet | exact IH].
  - apply (quiet_sound w); [apply cleanupAllSessions_quiet | exact IH].
  - apply (quiet_sound w); [apply transport_onerror_quiet | exact IH].
Qed.

Lemma NoDup_map_injective {A B} (g : A -> B) (l : list A) (a b : A) :
  NoDup (map g l) -> In a l -> In b l -> g a = g b -> a = b.
Proof.
  induction l as [|x l IH]; cbn; [tauto|]. intros Hd Ha Hb E.
  apply NoDup_cons_iff in Hd. destruct Hd as [Hx Hd].
  destruct Ha as [->|Ha], Hb as [->|Hb]; auto.
  - exfalso. apply Hx. rewrite E. now apply in_map.
  - exfalso. apply Hx. rewrite <- E. now apply in_map.
Qed.

Lemma filter_map_swap {A B} (p : B -> bool) (f : A -> B) (l : list A) :
  filter p (map f l) = map f (filter (fun a => p (f a)) l).
Proof.
  induction l as [|a l IH]; cbn; [reflexivity|].
  destruct (p (f a)); cbn; congruence.
Qed.

Lemma filter_length_le {A} (p : A -> bool) (l : list A) :
  (List.length (filter p l) <= List.length l)%nat.
Proof. induction l as [|a l IH]; cbn; [lia|]. destruct (p a); cbn; lia. Qed.

(** X2: in every world that calls which do not overlap can produce, the
    registry names each session once: ids are distinct, no object is
    registered under two ids, a registered object carries the id it is
    registered under and has been built, and [getInstance] of a registered
    id returns the registered object. *)
Theorem X2_registry_names_each_session_once :
  forall (ver : version) (w : world),
    reachable ver w ->
    distinct_keys (instances w)
    /\ (forall sid1 sid2 r,
          In (sid1, r) (instances w) -> In (sid2, r) (instances w) -> sid1 = sid2)
    /\ (forall sid r,
          In (sid, r) (instances w) ->
          sessionId (heap w r) = sid
          /\ (r < nextRef w)%nat
          /\ Map_get sid (instances w) = Some r
          /\ fst (getInstance sid w) = r).
Proof.
  intros ver w Hreach.
  destruct (reachable_sound ver w Hreach) as [(Hk & Hr & Hs) _].
  split; [exact Hk|]. split.
  - intros sid1 sid2 r H1 H2.
    assert ((sid1, r) = (sid2, r)) as E
        by (apply (NoDup_map_injective snd (instances w)); auto).
    congruence.
  - intros sid r Hin. destruct (Hs sid r Hin) as [Hlt Hsid].
    pose proof (Map_get_in sid r (instances w) Hk Hin) as Hget.
    split; [exact Hsid|]. split; [exact Hlt|]. split; [exact Hget|].
    destruct (getInstance_effect sid w) as (_ & _ & _ & _ & H & _).
    cbv zeta in H. rewrite Hget in H. apply H.
Qed.

Lemma X2_registry_names_each_session_once_witness :
  reachable V2 (world_connected V2)
  /\ distinct_keys (instances (world_connected V2)).
Proof.
  assert (reachable V2 (world_connected V2)) as H.
  { unfold world_connected. apply reach_connect, reach_getInstance, reach_initial. }
  split; [exact H|].
  exact (proj1 (X2_registry_names_each_session_once V2 (world_connected V2) H)).
Defined.

Lemma connected_count (w : world) :
  coherent w ->
  Stats.connectedSessions (Stats.getSessionStats w)
  = List.length (filter (fun kv => isSessionConnected (snd kv) w) (instances w)).
Proof.
  intros Hc. unfold Stats.getSessionStats. cbn [Stats.connectedSessions].
  rewrite filter_map_swap, length_map. f_equal. apply filter_ext.
  intros [sid r]. cbn. unfold isSessionConnected.
  destruct (isConnected (heap w r)) eqn:E; [|reflexivity].
  destruct (Hc r E) as [Hcl _].
  destruct (client (heap w r)); [reflexivity | congruence].
Qed.

(** X3: in every world that calls which do not overlap can produce, a
    session whose [isConnected] flag is set holds a client and a transport,
    so [isSessionConnected()] and [getClientSync()] agree with the flag,
    and the [connectedSessions] of [getSessionStats] counts exactly the
    registered sessions for which [isSessionConnected()] is true; it never
    exceeds [totalSessions]. *)
Theorem X3_connected_flag_is_backed :
  forall (ver : version) (w : world),
    reachable ver w ->
    (forall r,
        isConnected (heap w r) = true ->
        isSessionConnected r w = true
        /\ transport (heap w r) <> None
        /\ fst (getClientSync r w) = Returned (client (heap w r))
        /\ client (heap w r) <> None)
    /\ Stats.connectedSessions (Stats.getSessionStats w)
       = List.length (filter (fun kv => isSessionConnected (snd kv) w) (instances w))
    /\ (Stats.connectedSessions (Stats.getSessionStats w)
        <= Stats.totalSessions (Stats.getSessionStats w))%nat.
Proof.
  intros ver w Hreach.
  destruct (reachable_sound ver w Hreach) as [_ Hc].
  split; [|split].
  - intros r Hi. destruct (Hc r Hi) as [Hcl Htr].
    assert (isSessionConnected r w = true) as Hs.
    { unfold isSessionConnected. rewrite Hi.
      destruct (client (heap w r)); [reflexivity | congruence]. }
    split; [exact Hs|]. split; [exact Htr|]. split; [|exact Hcl].
    unfold getClientSync, bind, get, touch, act, modify. rewrite Hs. cbn.
    now rewrite upd_same.
  - now apply connected_count.
  - rewrite (connected_count w Hc). cbn [Stats.getSessionStats Stats.totalSessions].
    apply filter_length_le.
Qed.

Lemma X3_connected_flag_is_backed_witness :
  reachable V2 (world_connected V2)
  /\ Stats.connectedSessions (Stats.getSessionStats (world_connected V2))
     = List.length (filter (fun kv => isSessionConnected (snd kv) (world_connected V2))
                      (instances (world_connected V2))).
Proof.
  assert (reachable V2 (world_connected V2)) as H.
  { unfold world_connected. apply reach_connect, reach_getInstance, reach_initial. }
  split; [exact H|].
  exact (proj1 (proj2 (X3_connected_flag_is_backed V2 (world_connected V2) H))).
Defined.

(** X4: after [cleanupAllSessions], in a world that calls which do not
    overlap have produced, [getSessionStats] reports no session, and
    [getInstance] of any id, used before or not, builds a new, unconnected
    object that differs from every object registered before the shutdown:
    a handle obtained before the shutdown is never handed out again. *)
Theorem X4_shutdown_retires_every_handle :
  forall (ver : version) (env : environment) (w : world),
    reachable ver w ->
    let w' := snd (cleanupAllSessions env w) in
    Stats.getSessionStats w'
    = {| Stats.totalSessions := 0; Stats.connectedSessions := 0;
         Stats.sessions := [] |}
    /\ forall sid,
         let r := fst (getInstance sid w') in
         let w2 := snd (getInstance sid w') in
         (forall sid0 r0, In (sid0, r0) (instances w) -> r <> r0)
         /\ heap w2 r = created sid (clock w) (nextTimer w')
         /\ isSessionConnected r w2 = false
         /\ instances w2 = [(sid, r)].
Proof.
  intros ver env w Hreach w'.
  destruct (reachable_sound ver w Hreach) as [(_ & _ & Hs) _].
  destruct (cleanupAllSessions_quiet env w) as [(_ & Hn & Hclk & _) _].
  fold w' in Hn, Hclk.
  assert (instances w' = []) as Hi.
  { subst w'. unfold cleanupAllSessions.
    destruct (begin_cleanups (instances w) w) as [ps w1].
    destruct (resume_cleanups_effect env ps w1) as (Hrs & _).
    destruct (run_each (map (resume_cleanup env) ps) w1) as [rs w2].
    cbn [fst] in Hrs. unfold bind, act.
    now rewrite (Promise_all_returned rs w2 Hrs). }
  split.
  - unfold Stats.getSessionStats. now rewrite Hi.
  - intros sid r w2.
    destruct (getInstance_effect sid w') as (_ & _ & _ & _ & H & _).
    cbv zeta in H. fold r w2 in H. rewrite Hi in H. cbn in H.
    destruct H as (Hr & Hh & Hi2 & _).
    split; [|split; [|split]].
    + intros sid0 r0 Hin. destruct (Hs sid0 r0 Hin) as [Hlt _]. lia.
    + now rewrite Hh, Hclk.
    + unfold isSessionConnected. now rewrite Hh.
    + exact Hi2.
Qed.

Lemma X4_shutdown_retires_every_handle_witness :
  reachable V2 (world_connected V2)
  /\ Stats.totalSessions
       (Stats.getSessionStats (snd (cleanupAllSessions broken (world_connected V2))))
     = 0%nat.
Proof.
  assert (reachable V2 (world_connected V2)) as H.
  { unfold world_connected. apply reach_connect, reach_getInstance, reach_initial. }
  split; [exact H|].
  now rewrite (proj1 (X4_shutdown_retires_every_handle V2 broken (world_connected V2) H)).
Defined.

End SoundFacts.

(* ================================================================== *)
(** ** The sweep, the statistics and the timers                        *)
(* ================================================================== *)

Module SweepFacts.
Import JS Session Manager Registry Samples Observe Lifecycle.
Import JSFacts ManagerFacts RegistryFacts LifecycleFacts SteadyFacts SoundFacts.

Lemma sweep_instances (this : ref) (w : world) :
  distinct_keys (instances w) ->
  instances (snd (checkAndCleanupExpiredSessions this w))
  = filter (fun kv => negb (is_expired (clock w) w kv)) (instances w).
Proof.
  intros Hdk.
  set (sids := map fst (filter (is_expired (clock w) w) (instances w))).
  destruct (fold_sweep_one_effect sids ([], w)) as (Hi & _).
  cbv zeta in Hi. cbn [snd] in Hi.
  unfold checkAndCleanupExpiredSessions. fold sids.
  destruct (fold_left sweep_one sids ([], w)) as [pending w1]. cbn [snd] in *.
  assert (instances (if 0 <? Z.of_nat (List.length (instances w1))
                     then startCleanupTimer this w1 else w1) = instances w1) as ->
    by (destruct (0 <? _); reflexivity).
  rewrite Hi. unfold sids. now apply delete_selected.
Qed.

Lemma Map_get_some_in (k : jsstring) (v : ref) (m : list (jsstring * ref)) :
  Map_get k m = Some v -> In (k, v) m.
Proof.
  induction m as [|[k' v'] m IH]; cbn; [discriminate|].
  destruct (jsstring_eqb k k') eqn:E.
  - apply jsstring_eqb_eq in E. intros [= ->]. left. congruence.
  - intros H. right. now apply IH.
Qed.

Lemma Map_get_delete_same (k : jsstring) (m : list (jsstring * ref)) :
  Map_get k (Map_delete k m) = None.
Proof.
  unfold Map_delete. induction m as [|[k' v'] m IH]; cbn; [reflexivity|].
  destruct (jsstring_eqb k k') eqn:E; cbn; [exact IH|]. now rewrite E.
Qed.

Lemma cleanup_begin_other (this r : ref) (w : world) :
  r <> this -> heap (snd (cleanup_begin this w)) r = heap w r.
Proof.
  intros Hr. unfold cleanup_begin, clear_cleanupTimer, cleanup_finish, modify, emit.
  cbn. destruct (cleanupTimer (heap w this)); cbn; rewrite ?upd_same; cbn;
    destruct (transport (heap w this)); cbn; now rewrite ?upd_other by assumption.
Qed.

Lemma sweep_one_other (acc : list pending_cleanup * world) (sid : jsstring)
    (r : ref) :
  Map_get sid (instances (snd acc)) <> Some r ->
  heap (snd (sweep_one acc sid)) r = heap (snd acc) r.
Proof.
  destruct acc as [pending w]. cbn [snd]. unfold sweep_one. intros Hne.
  destruct (Map_get sid (instances w)) as [inst|]; [|reflexivity].
  pose proof (cleanup_begin_other inst r w) as H.
  destruct (cleanup_begin inst w) as [tr w1]. cbn [snd] in *.
  apply H. congruence.
Qed.

Lemma fold_sweep_one_other (sids : list jsstring) (r : ref) :
  forall acc : list pending_cleanup * world,
    (forall sid, In sid sids -> Map_get sid (instances (snd acc)) <> Some r) ->
    heap (snd (fold_left sweep_one sids acc)) r = heap (snd acc) r.
Proof.
  induction sids as [|sid sids IH]; intros acc Hne; cbn; [reflexivity|].
  rewrite IH.
  - apply sweep_one_other. apply Hne. now left.
  - intros sid' Hin.
    destruct (sweep_one_effect acc sid) as (Hi & _). cbv zeta in Hi. rewrite Hi.
    destruct (list_eq_dec Z.eq_dec sid' sid) as [->|Hd].
    + rewrite Map_get_delete_same. discriminate.
    + rewrite Map_get_delete_other by assumption. apply Hne. now right.
Qed.

(** The sweep leaves a session that has not expired as it is, but for the
    timer it arms on the session it runs on. *)
Lemma sweep_keeps_unexpired (this r : ref) (w : world) :
  distinct_keys (instances w) ->
  clock w - lastUsed (heap w r) <= SESSION_TIMEOUT ->
  let w' := snd (checkAndCleanupExpiredSessions this w) in
  client (heap w' r) = client (heap w r)
  /\ transport (heap w' r) = transport (heap w r)
  /\ isConnected (heap w' r) = isConnected (heap w r)
  /\ connectionPromise (heap w' r) = connectionPromise (heap w r)
  /\ lastUsed (heap w' r) = lastUsed (heap w r)
  /\ sessionId (heap w' r) = sessionId (heap w r).
Proof.
  intros Hdk Hfresh w'. subst w'. unfold checkAndCleanupExpiredSessions.
  set (sids := map fst (filter (is_expired (clock w) w) (instances w))).
  pose proof (fold_sweep_one_other sids r ([], w)) as H. cbn [snd] in H.
  assert (heap (snd (fold_left sweep_one sids ([], w))) r = heap w r) as E.
  { apply H. intros sid Hin Hget. apply Map_get_some_in in Hget.
    apply in_map_iff in Hin. destruct Hin as ([sid' r'] & Hs & Hin).
    cbn in Hs. subst sid'. apply filter_In in Hin. destruct Hin as [Hin Hexp].
    pose proof (Map_get_in sid r (instances w) Hdk Hget) as G1.
    pose proof (Map_get_in sid r' (instances w) Hdk Hin) as G2.
    assert (r' = r) as -> by congruence.
    unfold is_expired in Hexp. cbn [snd] in Hexp.
    apply Z.gtb_lt in Hexp. lia. }
  destruct (fold_left sweep_one sids ([], w)) as [pending w1]. cbn [snd] in *.
  destruct (0 <? _); cbn [snd]; [|rewrite E; now repeat split].
  unfold startCleanupTimer, modify, emit. cbn.
  destruct (Nat.eq_dec r this) as [->|Hr].
  - rewrite upd_same. cbn. rewrite E. now repeat split.
  - rewrite upd_other by assumption. rewrite E. now repeat split.
Qed.

Lemma leb_negb_gtb (a b : Z) : (a <=? b) = negb (a >? b).
Proof. rewrite Z.gtb_ltb. apply Z.leb_antisym. Qed.

(** X5: what [getSessionStats] reports right after a sweep is what it
    reported right before, without the sessions whose age exceeded the
    session timeout: the sweep drops exactly those entries and changes no
    other entry, so every session reported after it is at most thirty
    minutes old. *)
Theorem X5_sweep_drops_old_entries_from_stats :
  forall (this : ref) (w : world),
    distinct_keys (instances w) ->
    let w' := snd (checkAndCleanupExpiredSessions this w) in
    Stats.sessions (Stats.getSessionStats w')
    = filter (fun e => Stats.age e <=? SESSION_TIMEOUT)
        (Stats.sessions (Stats.getSessionStats w))
    /\ Forall (fun e => Stats.age e <= 30 * 60 * 1000)
         (Stats.sessions (Stats.getSessionStats w'))
    /\ Stats.totalSessions (Stats.getSessionStats w')
       = List.length (Stats.sessions (Stats.getSessionStats w')).
Proof.
  intros this w Hdk w'.
  pose proof (sweep_instances this w Hdk) as Hi. fold w' in Hi.
  destruct (checkAndCleanupExpiredSessions_quiet this w) as [(_ & _ & Hclk & _) _].
  fold w' in Hclk.
  assert (Stats.sessions (Stats.getSessionStats w')
          = filter (fun e => Stats.age e <=? SESSION_TIMEOUT)
              (Stats.sessions (Stats.getSessionStats w))) as Hs.
  { unfold Stats.getSessionStats. cbn [Stats.sessions].
    rewrite filter_map_swap, Hi, Hclk.
    rewrite (filter_ext
               (fun a => Stats.age (let '(sessionId, instance) := a in _) <=? _)
               (fun kv => negb (is_expired (clock w) w kv))).
    2:{ intros [sid r]. cbn. apply leb_negb_gtb. }
    apply map_ext_in. intros [sid r] Hin. apply filter_In in Hin.
    destruct Hin as [_ Hexp]. unfold is_expired in Hexp. cbn [snd] in Hexp.
    apply negb_true_iff in Hexp.
    assert (clock w - lastUsed (heap w r) <= SESSION_TIMEOUT) as Hfresh.
    { destruct (Z.gtb_spec (clock w - lastUsed (heap w r)) SESSION_TIMEOUT);
        [discriminate | lia]. }
    destruct (sweep_keeps_unexpired this r w Hdk Hfresh) as (_ & _ & E1 & _ & E2 & _).
    cbv zeta in E1, E2. subst w'. cbv beta iota. now rewrite E1, E2. }
  split; [exact Hs|]. split.
  - rewrite Hs. apply Forall_forall. intros e He. apply filter_In in He.
    destruct He as [_ He]. apply Z.leb_le in He. exact He.
  - unfold Stats.getSessionStats. cbn [Stats.totalSessions Stats.sessions].
    now rewrite length_map.
Qed.

Lemma X5_sweep_drops_old_entries_from_stats_witness :
  distinct_keys (instances world_two_sessions)
  /\ Forall (fun e => Stats.age e <= 30 * 60 * 1000)
       (Stats.sessions
          (Stats.getSessionStats
             (snd (checkAndCleanupExpiredSessions 0%nat world_two_sessions)))).
Proof.
  assert (distinct_keys (instances world_two_sessions)) as H.
  { assert (instances world_two_sessions = [(sid_a, 0%nat); (sid_b, 1%nat)]) as ->
      by (vm_compute; reflexivity).
    unfold distinct_keys. cbn [map fst].
    constructor; [|constructor; [tauto | constructor]].
    intros [E|[]]. discriminate E. }
  split; [exact H|].
  exact (proj1 (proj2 (X5_sweep_drops_old_entries_from_stats 0%nat
                         world_two_sessions H))).
Defined.

Lemma filter_none {A} (f : A -> bool) (l : list A) :
  (forall a, In a l -> f a = false) -> filter f l = [].
Proof.
  induction l as [|a l IH]; cbn; [reflexivity|]. intros H.
  rewrite (H a) by now left. apply IH. intros b Hb. apply H. now right.
Qed.

(** X6: a second sweep at the same time finds nothing to do: it removes no
    session, starts no cleanup, and only arms the next timer if sessions
    remain. *)
Theorem X6_sweep_again_removes_nothing :
  forall (env : environment) (this this' : ref) (w : world),
    distinct_keys (instances w) ->
    let w1 := snd (checkAndCleanupExpiredSessions this w) in
    let r2 := checkAndCleanupExpiredSessions this' w1 in
    fst r2 = []
    /\ instances (snd r2) = instances w1
    /\ snd r2 = (if 0 <? Z.of_nat (List.length (instances w1))
                 then startCleanupTimer this' w1 else w1)
    /\ sweep env this' w1 = ([], snd r2).
Proof.
  intros env this this' w Hdk w1 r2.
  pose proof (sweep_instances this w Hdk) as Hi. fold w1 in Hi.
  destruct (checkAndCleanupExpiredSessions_quiet this w) as [(_ & _ & Hclk & _) Hlu].
  fold w1 in Hclk, Hlu.
  assert (filter (is_expired (clock w1) w1) (instances w1) = []) as Hnone.
  { apply filter_none. intros [sid r] Hin. rewrite Hi in Hin.
    apply filter_In in Hin. destruct Hin as [_ Hexp].
    apply negb_true_iff in Hexp. unfold is_expired in *. cbn [snd] in *.
    now rewrite Hclk, Hlu. }
  assert (r2 = ([], if 0 <? Z.of_nat (List.length (instances w1))
                    then startCleanupTimer this' w1 else w1)) as E.
  { subst r2. unfold checkAndCleanupExpiredSessions at 1. rewrite Hnone.
    reflexivity. }
  rewrite E. cbn [fst snd].
  split; [reflexivity|]. split; [now destruct (0 <? _)|]. split; [reflexivity|].
  unfold sweep. fold r2. rewrite E. reflexivity.
Qed.

Lemma X6_sweep_again_removes_nothing_witness :
  distinct_keys (instances world_two_sessions)
  /\ fst (checkAndCleanupExpiredSessions 1%nat
            (snd (checkAndCleanupExpiredSessions 0%nat world_two_sessions))) = [].
Proof.
  assert (distinct_keys (instances world_two_sessions)) as H.
  { assert (instances world_two_sessions = [(sid_a, 0%nat); (sid_b, 1%nat)]) as ->
      by (vm_compute; reflexivity).
    unfold distinct_keys. cbn [map fst].
    constructor; [|constructor; [tauto | constructor]].
    intros [E|[]]. discriminate E. }
  split; [exact H|].
  exact (proj1 (X6_sweep_again_removes_nothing healthy 0%nat 1%nat
                  world_two_sessions H)).
Defined.

Lemma remove_timer_length (id : timerId) (l : list (timerId * ref)) :
  (List.length (remove_timer id l) <= List.length l)%nat.
Proof.
  induction l as [|[id' r] l IH]; cbn; [lia|].
  destruct (Nat.eqb id id'); cbn; lia.
Qed.

Lemma remove_timer_shorter (id : timerId) (l : list (timerId * ref)) :
  In id (map fst l) ->
  (List.length (remove_timer id l) < List.length l)%nat.
Proof.
  induction l as [|[id' r] l IH]; cbn; [tauto|].
  pose proof (remove_timer_length id l).
  destruct (Nat.eqb_spec id id'); cbn; [lia|].
  intros [E|Hin]; [congruence|]. specialize (IH Hin). lia.
Qed.

Lemma cleanup_begin_timers (this : ref) (w : world) :
  (List.length (timers (snd (cleanup_begin this w))) <= List.length (timers w))%nat.
Proof.
  unfold cleanup_begin, clear_cleanupTimer, cleanup_finish, modify, emit. cbn.
  destruct (cleanupTimer (heap w this)) as [id|]; cbn; rewrite ?upd_same; cbn;
    destruct (transport (heap w this)); cbn;
    first [apply remove_timer_length | lia].
Qed.

Lemma sweep_one_timers (acc : list pending_cleanup * world) (sid : jsstring) :
  (List.length (timers (snd (sweep_one acc sid)))
   <= List.length (timers (snd acc)))%nat.
Proof.
  destruct acc as [pending w]. cbn [snd]. unfold sweep_one.
  destruct (Map_get sid (instances w)) as [inst|]; [|cbn; lia].
  pose proof (cleanup_begin_timers inst w) as H.
  destruct (cleanup_begin inst w) as [tr w1]. cbn [snd] in *. exact H.
Qed.

Lemma fold_sweep_one_timers (sids : list jsstring) :
  forall acc : list pending_cleanup * world,
    (List.length (timers (snd (fold_left sweep_one sids acc)))
     <= List.length (timers (snd acc)))%nat.
Proof.
  induction sids as [|sid sids IH]; intros acc; cbn; [lia|].
  specialize (IH (sweep_one acc sid)). pose proof (sweep_one_timers acc sid). lia.
Qed.

Lemma find_timer_none (id : timerId) (l : list (timerId * ref)) :
  find (fun tr => Nat.eqb (fst tr) id) l = None <-> ~ In id (map fst l).
Proof.
  induction l as [|[id' r] l IH]; cbn; [tauto|].
  destruct (Nat.eqb_spec id' id); [|tauto].
  split; [discriminate | intros H; exfalso; apply H; now left].
Qed.

(** What a sweep does to the pending timers. *)
Lemma sweep_timers (this : ref) (w : world) :
  let w' := snd (checkAndCleanupExpiredSessions this w) in
  match instances w' with
  | [] =>
      incl (timers w') (timers w)
      /\ nextTimer w' = nextTimer w
      /\ (List.length (timers w') <= List.length (timers w))%nat
  | _ :: _ =>
      (forall tr, In tr (timers w') ->
                  In tr (timers w) \/ tr = (nextTimer w, this))
      /\ nextTimer w' = S (nextTimer w)
      /\ (List.length (timers w') <= S (List.length (timers w)))%nat
      /\ In (nextTimer w, this) (timers w')
  end.
Proof.
  unfold checkAndCleanupExpiredSessions.
  set (sids := map fst (filter (is_expired (clock w) w) (instances w))).
  destruct (fold_sweep_one_effect sids ([], w)) as (_ & Hn & Hincl & _).
  pose proof (fold_sweep_one_timers sids ([], w)) as Hlen.
  cbv zeta in Hn, Hincl. cbn [snd] in Hn, Hincl, Hlen.
  destruct (fold_left sweep_one sids ([], w)) as [pending w1]. cbn [snd] in *.
  destruct (instances w1) as [|kv m] eqn:E1; cbn; rewrite E1.
  - split; [exact Hincl|]. split; [exact Hn | exact Hlen].
  - rewrite Hn. split; [|split; [reflexivity|split; [lia | now left]]].
    intros tr [<-|Hin]; [now right | left; now apply Hincl].
Qed.

(** X7: the callback of a sweep timer.  A timer that is not pending does
    nothing.  A pending timer is used up by its firing; the sweep it runs
    arms at most one timer, and none when the registry ends up empty, so
    the number of pending timers never grows and shrinks when the last
    session goes.  Where timer ids are below the next id to be handed out,
    the fired timer is not pending afterwards. *)
Theorem X7_sweep_timer_fires_once :
  forall (id : timerId) (w : world),
    let r := fire_timer id w in
    let w' := snd r in
    (~ In id (map fst (timers w)) -> r = ([], w))
    /\ (List.length (timers w') <= List.length (timers w))%nat
    /\ (In id (map fst (timers w)) -> instances w' = [] ->
          (List.length (timers w') < List.length (timers w))%nat)
    /\ (In id (map fst (timers w)) -> instances w' <> [] ->
          exists this, In (id, this) (timers w)
                       /\ In (nextTimer w, this) (timers w'))
    /\ ((forall i, In i (map fst (timers w)) -> (i < nextTimer w)%nat) ->
          ~ In id (map fst (timers w'))
          /\ (forall i, In i (map fst (timers w')) -> (i < nextTimer w')%nat)).
Proof.
  intros id w r w'. subst r w'. unfold fire_timer.
  destruct (find (fun tr => Nat.eqb (fst tr) id) (timers w)) as [[id' this]|] eqn:F.
  - apply find_some in F. destruct F as [Hin E]. cbn in E.
    apply Nat.eqb_eq in E. subst id'.
    assert (In id (map fst (timers w))) as Hpending
        by (apply in_map_iff; now exists (id, this)).
    pose proof (remove_timer_shorter id (timers w) Hpending) as Hshort.
    set (w0 := with_timers (remove_timer id (timers w)) w).
    pose proof (sweep_timers this w0) as Hcase. cbv zeta in Hcase.
    set (w' := snd (checkAndCleanupExpiredSessions this w0)) in *.
    change (timers w0) with (remove_timer id (timers w)) in Hcase.
    change (nextTimer w0) with (nextTimer w) in Hcase.
    assert (forall i x, In (i, x) (remove_timer id (timers w)) ->
                        i <> id /\ In i (map fst (timers w))) as Hold.
    { intros i x Hx. split.
      - intros ->. apply (remove_timer_gone id (timers w)).
        apply in_map_iff. now exists (id, x).
      - apply remove_timer_incl in Hx. apply in_map_iff. now exists (i, x). }
    split; [tauto|].
    destruct (instances w') as [|kv m].
    + destruct Hcase as (Hsub & Hnext & Hlen).
      split; [lia|]. split; [intros _ _; lia|]. split; [intros _ Hne; congruence|].
      intros Hwf.
      assert (forall i, In i (map fst (timers w')) ->
                        i <> id /\ (i < nextTimer w)%nat) as Hall.
      { intros i Hi. apply in_map_iff in Hi. destruct Hi as ([j x] & Hj & Hx).
        cbn in Hj. subst j. apply Hsub in Hx. destruct (Hold i x Hx) as [Hne Hi].
        split; [exact Hne | now apply Hwf]. }
      split; [intros Hid; now destruct (Hall id Hid)|].
      intros i Hi. destruct (Hall i Hi). lia.
    + destruct Hcase as (Hsub & Hnext & Hlen & Hnew).
      split; [lia|]. split; [intros _ He; discriminate He|].
      split; [intros _ _; now exists this|].
      intros Hwf.
      assert (forall i, In i (map fst (timers w')) ->
                        i <> id /\ (i < S (nextTimer w))%nat) as Hall.
      { intros i Hi. apply in_map_iff in Hi. destruct Hi as ([j x] & Hj & Hx).
        cbn in Hj. subst j. destruct (Hsub _ Hx) as [Hx'|[= -> _]].
        - destruct (Hold i x Hx') as [Hne Hi].
          split; [exact Hne|]. specialize (Hwf i Hi). lia.
        - specialize (Hwf id Hpending). split; lia. }
      split; [intros Hid; now destruct (Hall id Hid)|].
      intros i Hi. destruct (Hall i Hi). lia.
  - apply find_timer_none in F. cbn [snd fst].
    split; [reflexivity|]. split; [lia|]. split; [tauto|]. split; [tauto|].
    intros Hwf. split; [exact F | exact Hwf].
Qed.

End SweepFacts.

(* ================================================================== *)
(** ** What [connect] leaves behind                                    *)
(* ================================================================== *)

Module ConnectFacts.
Import JS Session Manager Registry Samples Observe Lifecycle.
Import JSFacts ManagerFacts RegistryFacts LifecycleFacts SteadyFacts SoundFacts.
Import SweepFacts.

Ltac unfold_M :=
  unfold bind, act, get, try_catch, await, ret, throw, touch in *.

Ltac simp_heap := repeat (cbn in *; rewrite ?upd_same in * ).

Lemma isSessionConnected_cleared (this : ref) (w : world) (m : McpSessionManager) :
  heap w this = cleared m -> isSessionConnected this w = false.
Proof. intros H. unfold isSessionConnected. now rewrite H. Qed.

(** X8: the first [connect] of a session cancels the sweep timer that the
    constructor armed and arms no other: afterwards the session has no
    timer, whether the connection succeeded or not.  If that timer was the
    only one pending, no timer is pending afterwards, so no sweep runs
    however much time passes, and the session stays registered. *)
Theorem X8_connect_cancels_sweep_timer :
  forall (ver : version) (env : environment) (this : ref) (t : transportId)
         (w : world),
    isSessionConnected this w = false ->
    connectionPromise (heap w this) = None ->
    let w' := snd (connect ver env this t w) in
    cleanupTimer (heap w' this) = None
    /\ timers w' = match cleanupTimer (heap w this) with
                   | Some id => remove_timer id (timers w)
                   | None => timers w
                   end
    /\ (forall id, cleanupTimer (heap w this) = Some id ->
                   ~ In id (map fst (timers w')))
    /\ instances w' = instances w
    /\ (forall id, cleanupTimer (heap w this) = Some id ->
                   timers w = [(id, this)] ->
                   timers w' = []
                   /\ forall id' d,
                        fire_timer id' (tick d w') = ([], tick d w')).
Proof.
  intros ver env this t w Hc Hp w'. subst w'.
  rewrite connect_unconnected by assumption.
  pose proof (connect_fresh_effect env this t w) as H. cbv zeta in H.
  destruct H as (H & _ & _ & _ & Hti & (Hi & _) & _).
  destruct (cleanup_effect env this w) as (_ & _ & Hti' & _).
  cbv zeta in Hti'. rewrite Hti' in Hti.
  set (w' := snd (connect_fresh env this t w)) in *.
  assert (cleanupTimer (heap w' this) = None) as Hnone.
  { destruct (connect_result env (nextClient w) t);
      destruct H as (_ & -> & _); reflexivity. }
  split; [exact Hnone|]. split; [exact Hti|]. split; [|split; [exact Hi|]].
  - intros id Hid. rewrite Hti, Hid. apply remove_timer_gone.
  - intros id Hid Honly.
    assert (timers w' = []) as He.
    { rewrite Hti, Hid, Honly. cbn. now rewrite Nat.eqb_refl. }
    split; [exact He|]. intros id' d. unfold fire_timer, tick. cbn.
    now rewrite He.
Qed.

Lemma X8_connect_cancels_sweep_timer_witness :
  timers (snd (connect V2 broken 0%nat 7%nat
                 (snd (getInstance sid_a (initial_world 1000))))) = [].
Proof.
  assert (isSessionConnected 0%nat (snd (getInstance sid_a (initial_world 1000)))
          = false) as H1 by (vm_compute; reflexivity).
  assert (connectionPromise (heap (snd (getInstance sid_a (initial_world 1000))) 0%nat)
          = None) as H2 by (vm_compute; reflexivity).
  assert (cleanupTimer (heap (snd (getInstance sid_a (initial_world 1000))) 0%nat)
          = Some 0%nat) as H3 by (vm_compute; reflexivity).
  assert (timers (snd (getInstance sid_a (initial_world 1000))) = [(0%nat, 0%nat)])
    as H4 by (vm_compute; reflexivity).
  destruct (X8_connect_cancels_sweep_timer V2 broken 0%nat 7%nat
              (snd (getInstance sid_a (initial_world 1000))) H1 H2)
    as (_ & _ & _ & _ & H).
  exact (proj1 (H 0%nat H3 H4)).
Defined.

(** A session whose recorded attempt has failed. *)
Lemma connect_poisoned (ver : version) (env : environment) (this : ref)
    (t : transportId) (w : world) (p : promiseId) (err : error) :
  isSessionConnected this w = false ->
  connectionPromise (heap w this) = Some p ->
  promises w p = Rejected err ->
  connect ver env this t w = (Thrown err, w).
Proof.
  intros Hc Hp Hr. unfold connect, connect_cached, connect_shared, await_promise.
  unfold_M. rewrite Hc. cbn. rewrite Hp. cbn. now rewrite Hr.
Qed.

(** X9: a failed [connect] is never retried.  When the handshake of a
    session's first attempt fails, [connect] throws, and every later
    [connect] on that session throws the same error at once, without
    building a client or contacting the server and without changing
    anything, whatever transport it is given: also after [cleanup()],
    after any time has passed, and on the object that [getInstance] hands
    out for the session's id. *)
Theorem X9_failed_connect_is_never_retried :
  forall (ver : version) (env : environment) (this : ref) (t : transportId)
         (w : world) (e : error),
    isSessionConnected this w = false ->
    connectionPromise (heap w this) = None ->
    connect_result env (nextClient w) t = Some e ->
    let err := Error (msg_connect_failed (sessionId (heap w this)) e) in
    let w1 := snd (connect ver env this t w) in
    fst (connect ver env this t w) = Thrown err
    /\ isSessionConnected this w1 = false
    /\ (forall env2 t2, connect ver env2 this t2 w1 = (Thrown err, w1))
    /\ (forall env2 env3 t2,
          let w2 := snd (cleanup env3 this w1) in
          connect ver env2 this t2 w2 = (Thrown err, w2))
    /\ (forall env2 t2 d,
          connect ver env2 this t2 (tick d w1) = (Thrown err, tick d w1))
    /\ (forall env2 t2 sid,
          Map_get sid (instances w) = Some this ->
          let w2 := snd (getInstance sid w1) in
          fst (getInstance sid w1) = this
          /\ connect ver env2 this t2 w2 = (Thrown err, w2)).
Proof.
  intros ver env this t w e Hc Hp He err w1. subst w1.
  rewrite connect_unconnected by assumption.
  pose proof (connect_fresh_effect env this t w) as H. cbv zeta in H.
  rewrite He in H. fold err in H.
  destruct H as ((Hfst & Hh & Hpr) & _ & _ & _ & _ & (Hi & _) & _).
  set (w1 := snd (connect_fresh env this t w)) in *.
  set (p := nextPromise w) in *.
  assert (isSessionConnected this w1 = false) as Hc1.
  { unfold isSessionConnected. now rewrite Hh. }
  assert (connectionPromise (heap w1 this) = Some p) as Hp1 by now rewrite Hh.
  split; [exact Hfst|]. split; [exact Hc1|].
  split; [|split; [|split]].
  - intros env2 t2. now apply (connect_poisoned ver env2 this t2 w1 p).
  - intros env2 env3 t2 w2.
    destruct (cleanup_effect env3 this w1)
      as (Hh2 & _ & _ & _ & _ & _ & Hpr2 & _).
    fold w2 in Hh2, Hpr2.
    apply (connect_poisoned ver env2 this t2 w2 p).
    + now apply (isSessionConnected_cleared this w2 (heap w1 this)).
    + now rewrite Hh2.
    + now rewrite Hpr2.
  - intros env2 t2 d. now apply (connect_poisoned ver env2 this t2 _ p).
  - intros env2 t2 sid Hget w2.
    destruct (getInstance_effect sid w1) as (_ & _ & _ & _ & Hg & _ & _ & Hpr2 & _).
    cbv zeta in Hg, Hpr2. fold w2 in Hg, Hpr2. rewrite Hi, Hget in Hg.
    destruct Hg as (Hr & Hh2 & _). split; [exact Hr|].
    rewrite Hr in Hh2.
    apply (connect_poisoned ver env2 this t2 w2 p).
    + unfold isSessionConnected. rewrite Hh2, Hh. reflexivity.
    + now rewrite Hh2.
    + now rewrite Hpr2.
Qed.

Lemma X9_failed_connect_is_never_retried_witness :
  fst (connect V2 healthy 0%nat 8%nat
         (snd (connect V2 broken 0%nat 7%nat
                 (snd (getInstance sid_a (initial_world 1000))))))
  = Thrown (Error (msg_connect_failed sid_a (Error (lit "ECONNREFUSED")))).
Proof.
  assert (isSessionConnected 0%nat (snd (getInstance sid_a (initial_world 1000)))
          = false) as H1 by (vm_compute; reflexivity).
  assert (connectionPromise (heap (snd (getInstance sid_a (initial_world 1000))) 0%nat)
          = None) as H2 by (vm_compute; reflexivity).
  assert (connect_result broken
            (nextClient (snd (getInstance sid_a (initial_world 1000)))) 7%nat
          = Some (Error (lit "ECONNREFUSED"))) as H3 by reflexivity.
  assert (sessionId (heap (snd (getInstance sid_a (initial_world 1000))) 0%nat)
          = sid_a) as H4 by (vm_compute; reflexivity).
  destruct (X9_failed_connect_is_never_retried V2 broken 0%nat 7%nat
              (snd (getInstance sid_a (initial_world 1000)))
              (Error (lit "ECONNREFUSED")) H1 H2 H3)
    as (_ & _ & H & _).
  rewrite (H healthy 8%nat). cbn [fst]. now rewrite H4.
Defined.

(** [connect] on a session that is connected, and whose probe succeeds
    where there is one. *)
Lemma connect_connected (ver : version) (env : environment) (this : ref)
    (t : transportId) (w : world) (c : clientId) :
  isConnected (heap w this) = true ->
  client (heap w this) = Some c ->
  (ver = V2 -> transport (heap w this) <> None /\ listTools_result env c = None) ->
  connect ver env this t w
  = (Returned (Some c),
     modify this (set_lastUsed (clock w))
       match ver with V1 => w | V2 => emit (ListTools c) w end).
Proof.
  intros Hi Hc Hv. unfold connect, connect_cached, validateConnection,
    isSessionConnected. unfold_M. rewrite Hi, Hc. cbn.
  destruct ver.
  - unfold modify. cbn. rewrite upd_same. cbn. now rewrite Hc.
  - destruct (Hv eq_refl) as [Ht Hl]. rewrite Hc.
    destruct (transport (heap w this)); [|congruence]. rewrite Hl.
    unfold modify, emit. cbn. rewrite upd_same. cbn. now rewrite Hc.
Qed.

(** X10: [connect] on a connected session reuses the connection.  After a
    [connect] that succeeded, a second [connect], made any time later,
    returns the same client,
    builds no client, starts no handshake, closes nothing and ignores the
    transport it is given; it only marks the session as used and, in
    [part_000], probes the client once with [listTools()]. *)
Theorem X10_connect_reuses_live_connection :
  forall (ver : version) (env env2 : environment) (this : ref)
         (t t2 : transportId) (d : Z) (w : world),
    isSessionConnected this w = false ->
    connectionPromise (heap w this) = None ->
    connect_result env (nextClient w) t = None ->
    listTools_result env2 (nextClient w) = None ->
    let c := nextClient w in
    let r1 := connect ver env this t w in
    let w1 := snd r1 in
    let r2 := connect ver env2 this t2 (tick d w1) in
    let w2 := snd r2 in
    fst r1 = Returned (Some c)
    /\ fst r2 = Returned (Some c)
    /\ trace w2 = match ver with
                  | V1 => trace w1
                  | V2 => ListTools c :: trace w1
                  end
    /\ nextClient w2 = nextClient w1
    /\ transport (heap w2 this) = Some t
    /\ onerror w2 = onerror w1
    /\ lastUsed (heap w2 this) = clock w + d
    /\ isSessionConnected this w2 = true.
Proof.
  intros ver env env2 this t t2 d w Hc Hp He Hl c r1 w1 r2 w2.
  subst r1 w1 r2 w2. rewrite connect_unconnected by assumption.
  pose proof (connect_fresh_effect env this t w) as H. cbv zeta in H.
  fold c in H, He, Hl. rewrite He in H.
  destruct H as ((Hfst & Hh & _) & _ & _ & _ & _ & (_ & Hclk & _) & _).
  set (w1 := snd (connect_fresh env this t w)) in *.
  rewrite (connect_connected ver env2 this t2 (tick d w1) c).
  - cbn [fst snd]. split; [exact Hfst|]. split; [reflexivity|].
    unfold isSessionConnected, modify, tick.
    destruct ver; cbn; rewrite upd_same, Hh, Hclk; cbn; repeat split.
  - unfold tick. cbn. now rewrite Hh.
  - unfold tick. cbn. now rewrite Hh.
  - intros _. unfold tick. cbn. rewrite Hh. cbn. split; [discriminate | exact Hl].
Qed.

Lemma X10_connect_reuses_live_connection_witness :
  fst (connect V2 healthy 0%nat 8%nat (tick 1 (world_connected V2)))
  = Returned (Some 0%nat).
Proof.
  assert (isSessionConnected 0%nat (snd (getInstance sid_a (initial_world 1000)))
          = false) as H1 by (vm_compute; reflexivity).
  assert (connectionPromise (heap (snd (getInstance sid_a (initial_world 1000))) 0%nat)
          = None) as H2 by (vm_compute; reflexivity).
  assert (nextClient (snd (getInstance sid_a (initial_world 1000))) = 0%nat) as H3
    by (vm_compute; reflexivity).
  destruct (X10_connect_reuses_live_connection V2 healthy healthy 0%nat 7%nat 8%nat
              1 (snd (getInstance sid_a (initial_world 1000))) H1 H2
              eq_refl eq_refl)
    as (_ & H & _).
  unfold world_connected. rewrite H. now rewrite H3.
Defined.

(** [connect] of [part_000] on a connected session whose probe fails, when
    no attempt is recorded: the [catch] clause runs and the session is
    connected afresh. *)
Lemma connect_probe_failed (env : environment) (this : ref) (t : transportId)
    (w : world) :
  probe_fails env this w ->
  connectionPromise (heap w this) = None ->
  connect V2 env this t w
  = connect_fresh env this t
      (Async.validation_failed this
         match client (heap w this), transport (heap w this) with
         | Some c, Some _ => emit (ListTools c) w
         | _, _ => w
         end).
Proof.
  intros [Hc Hf] Hp. unfold connect, connect_cached, connect_shared,
    validateConnection, Async.validation_failed. unfold_M. rewrite Hc.
  unfold isSessionConnected in Hc. apply andb_prop in Hc. destruct Hc as [_ Hcl].
  destruct (client (heap w this)) as [c|] eqn:Ec; [|discriminate].
  destruct (transport (heap w this)) as [tr|] eqn:Et.
  - destruct Hf as [[=]|(c' & e & [= <-] & Hl)]. rewrite Hl.
    unfold modify, emit. cbn. rewrite !upd_same. cbn. now rewrite Hp.
  - unfold modify, emit. cbn. rewrite !upd_same. cbn. now rewrite Hp.
Qed.

Lemma filter_is_close_cleanup_events (env : environment) (this : ref)
    (m : McpSessionManager) :
  filter is_close (cleanup_events env this m)
  = match transport m with Some t => [TransportClose t] | None => [] end.
Proof.
  unfold cleanup_events.
  destruct (transport m) as [t|]; [destruct (close_result env t)|];
    destruct (cleanupTimer m); reflexivity.
Qed.

(** The events of a fresh attempt: one client is built, one handshake is
    started, and the transport the session held is closed. *)
Lemma connect_fresh_events (env : environment) (this : ref) (t : transportId)
    (w : world) :
  exists evs,
    trace (snd (connect_fresh env this t w)) = evs ++ trace w
    /\ filter is_NewClient evs = [NewClient (nextClient w)]
    /\ filter is_close evs
       = match transport (heap w this) with
         | Some t0 => [TransportClose t0]
         | None => []
         end.
Proof.
  pose proof (connect_fresh_effect env this t w) as H. cbv zeta in H.
  destruct H as (_ & _ & _ & Htr & _).
  pose proof (doConnect_effect env this t w) as Hd. cbv zeta in Hd.
  destruct (cleanup_effect env this w) as (_ & _ & _ & Hctr & _).
  cbv zeta in Hctr. rewrite Htr.
  destruct (connect_result env (nextClient w) t) as [e|];
    destruct Hd as ((_ & _ & Hdtr) & _); rewrite Hdtr, Hctr;
    eexists; (split; [rewrite app_assoc; reflexivity|]);
    rewrite !filter_app, cleanup_events_no_NewClient,
      filter_is_close_cleanup_events; split; reflexivity.
Qed.

(** X11: [connect] of [part_000] on a connected session whose probe fails
    reconnects within the same call: it closes the transport the session
    held, builds exactly one client and starts its handshake over the
    transport it is given; it returns the new client if that handshake
    succeeds and throws otherwise, leaving the session without client and
    transport. *)
Theorem X11_connect_reconnects_on_failed_probe :
  forall (env : environment) (this : ref) (t : transportId) (w : world),
    probe_fails env this w ->
    connectionPromise (heap w this) = None ->
    let r := connect V2 env this t w in
    let w' := snd r in
    let c2 := nextClient w in
    (exists evs,
        trace w' = evs ++ trace w
        /\ filter is_NewClient evs = [NewClient c2]
        /\ filter is_close evs
           = match transport (heap w this) with
             | Some t0 => [TransportClose t0]
             | None => []
             end)
    /\ match connect_result env c2 t with
       | None =>
           fst r = Returned (Some c2)
           /\ client (heap w' this) = Some c2
           /\ transport (heap w' this) = Some t
           /\ isConnected (heap w' this) = true
           /\ lastUsed (heap w' this) = clock w
       | Some e =>
           fst r = Thrown (Error (msg_connect_failed (sessionId (heap w this)) e))
           /\ client (heap w' this) = None
           /\ transport (heap w' this) = None
           /\ isConnected (heap w' this) = false
           /\ lastUsed (heap w' this) = lastUsed (heap w this)
       end.
Proof.
  intros env this t w Hpf Hp r w' c2. subst r w'.
  rewrite connect_probe_failed by assumption.
  set (w0 := match client (heap w this), transport (heap w this) with
             | Some c, Some _ => emit (ListTools c) w
             | _, _ => w
             end).
  set (w1 := Async.validation_failed this w0).
  assert (heap w0 = heap w /\ nextClient w0 = nextClient w /\ clock w0 = clock w
          /\ exists pre, trace w0 = pre ++ trace w
                         /\ filter is_NewClient pre = []
                         /\ filter is_close pre = []) as (Hh0 & Hn0 & Hc0 & pre & Ht0 & Hpre).
  { unfold w0. destruct (client (heap w this)) as [c|];
      [destruct (transport (heap w this))|];
      repeat split; first [now exists [ListTools c] | now exists []]. }
  assert (nextClient w1 = nextClient w /\ clock w1 = clock w
          /\ transport (heap w1 this) = transport (heap w this)
          /\ sessionId (heap w1 this) = sessionId (heap w this)
          /\ lastUsed (heap w1 this) = lastUsed (heap w this)
          /\ trace w1
             = ConsoleLog (msg_reconnecting (sessionId (heap w this))) :: trace w0)
    as (Hn1 & Hc1 & Htr1 & Hs1 & Hl1 & Ht1).
  { unfold w1, Async.validation_failed, modify, emit. cbn.
    rewrite !upd_same. cbn. rewrite Hh0. repeat split; assumption. }
  clearbody w1. clearbody w0.
  destruct (connect_fresh_events env this t w1) as (evs & Hev & Hnew & Hcl).
  split.
  - exists (evs ++ ConsoleLog (msg_reconnecting (sessionId (heap w this))) :: pre).
    rewrite Hev, Ht1, Ht0, <- app_assoc. cbn [app].
    split; [reflexivity|].
    rewrite !filter_app. cbn [filter is_NewClient is_close].
    destruct Hpre as [-> ->]. rewrite Hnew, Hcl, Hn1, Htr1, !app_nil_r.
    split; reflexivity.
  - pose proof (connect_fresh_effect env this t w1) as H. cbv zeta in H.
    rewrite Hn1 in H. fold c2 in H.
    destruct H as (H & _).
    destruct (connect_result env c2 t) as [e|];
      destruct H as (-> & -> & _); cbn; rewrite ?Hs1, ?Hc1, ?Hl1; repeat split.
Qed.

Lemma X11_connect_reconnects_on_failed_probe_witness :
  fst (connect V2 broken 0%nat 8%nat (world_connected V2))
  = Thrown (Error (msg_connect_failed sid_a (Error (lit "ECONNREFUSED")))).
Proof.
  assert (probe_fails broken 0%nat (world_connected V2)) as Hp.
  { split; [vm_compute; reflexivity|]. right.
    exists 0%nat, (Error (lit "Not connected")). split; vm_compute; reflexivity. }
  assert (connectionPromise (heap (world_connected V2) 0%nat) = None) as H2
    by (vm_compute; reflexivity).
  assert (sessionId (heap (world_connected V2) 0%nat) = sid_a) as H3
    by (vm_compute; reflexivity).
  destruct (X11_connect_reconnects_on_failed_probe broken 0%nat 8%nat
              (world_connected V2) Hp H2) as (_ & H).
  assert (connect_result broken (nextClient (world_connected V2)) 8%nat
          = Some (Error (lit "ECONNREFUSED"))) as He by reflexivity.
  rewrite He in H. destruct H as (H & _). now rewrite H, H3.
Defined.

Lemma connect_fresh_onerror (env : environment) (this : ref) (t : transportId)
    (w : world) :
  onerror (snd (connect_fresh env this t w)) = upd t (Some this) (onerror w).
Proof.
  pose proof (doConnect_effect env this t w) as H. cbv zeta in H.
  destruct H as (_ & _ & _ & _ & _ & _ & Hoe).
  unfold connect_fresh, call_doConnect, new_promise, connect_finish, await_promise,
    modify, emit. unfold_M.
  destruct (doConnect env this t w) as [rd w2]. cbn [fst snd] in *.
  destruct rd; cbn; rewrite ?upd_same; cbn; rewrite ?upd_same; cbn;
    try assumption.
  destruct (client (heap w2 this)); cbn; assumption.
Qed.

(** X12: an error of the transport a session is connected over
    disconnects that session and no other: [isSessionConnected()] becomes
    false and [getClientSync()] returns [null].  The handler closes
    nothing.  In [McpSessionManager.ts] the session keeps its client and
    its transport, and the next [connect] closes that transport before it
    builds a new client; in [part_000] the handler drops both, and the next
    [connect] builds a new client without closing the transport that
    failed. *)
Theorem X12_transport_error_disconnects :
  forall (ver : version) (env : environment) (this : ref) (t : transportId)
         (w : world) (e : error),
    isSessionConnected this w = false ->
    connectionPromise (heap w this) = None ->
    connect_result env (nextClient w) t = None ->
    let c := nextClient w in
    let w1 := snd (connect ver env this t w) in
    let w2 := transport_onerror ver t e w1 in
    isSessionConnected this w1 = true
    /\ isSessionConnected this w2 = false
    /\ fst (getClientSync this w2) = Returned None
    /\ (forall r, r <> this -> heap w2 r = heap w1 r)
    /\ trace w2
       = ConsoleError (msg_transport_error (sessionId (heap w this))) (Some e)
         :: trace w1
    /\ match ver with
       | V1 => client (heap w2 this) = Some c /\ transport (heap w2 this) = Some t
       | V2 => client (heap w2 this) = None /\ transport (heap w2 this) = None
       end
    /\ forall (env2 : environment) (t2 : transportId),
         exists evs,
           trace (snd (connect ver env2 this t2 w2)) = evs ++ trace w2
           /\ filter is_NewClient evs = [NewClient (S c)]
           /\ filter is_close evs
              = match ver with
                | V1 => [TransportClose t]
                | V2 => []
                end.
Proof.
  intros ver env this t w e Hc Hp He c w1 w2. subst w1 w2.
  rewrite connect_unconnected by assumption.
  pose proof (connect_fresh_effect env this t w) as H. cbv zeta in H.
  fold c in H, He. rewrite He in H.
  destruct H as ((_ & Hh & _) & _ & _ & _ & _ & _ & Hnc & _).
  pose proof (connect_fresh_onerror env this t w) as Hoe.
  set (w1 := snd (connect_fresh env this t w)) in *. clearbody w1.
  assert (onerror w1 t = Some this) as Hon by (rewrite Hoe; apply upd_same).
  set (w2 := transport_onerror ver t e w1).
  assert (heap w2 this
          = match ver with
            | V1 => set_isConnected false (heap w1 this)
            | V2 => set_transport None
                      (set_client None (set_isConnected false (heap w1 this)))
            end
          /\ (forall r, r <> this -> heap w2 r = heap w1 r)
          /\ trace w2
             = ConsoleError (msg_transport_error (sessionId (heap w1 this))) (Some e)
               :: trace w1
          /\ nextClient w2 = nextClient w1) as (Hh2 & Ho2 & Ht2 & Hn2).
  { unfold w2, transport_onerror. rewrite Hon. unfold modify, emit.
    destruct ver; cbn; rewrite ?upd_same; cbn; rewrite ?upd_same;
      repeat split; try reflexivity;
      intros r Hr; now rewrite ?upd_other by assumption. }
  clearbody w2.
  assert (isSessionConnected this w2 = false) as Hdis.
  { unfold isSessionConnected. rewrite Hh2. destruct ver; reflexivity. }
  split; [unfold isSessionConnected; now rewrite Hh|].
  split; [exact Hdis|].
  split; [unfold getClientSync, bind, get; now rewrite Hdis|].
  split; [exact Ho2|].
  split; [rewrite Ht2, Hh; reflexivity|].
  split; [rewrite Hh2, Hh; destruct ver; split; reflexivity|].
  intros env2 t2. rewrite connect_unconnected.
  - destruct (connect_fresh_events env2 this t2 w2) as (evs & Hev & Hnew & Hcl).
    exists evs. split; [exact Hev|]. rewrite Hnew, Hcl, Hn2, Hnc, Hh2, Hh.
    destruct ver; split; reflexivity.
  - exact Hdis.
  - rewrite Hh2, Hh. destruct ver; reflexivity.
Qed.

Lemma X12_transport_error_disconnects_witness :
  isSessionConnected 0%nat
    (transport_onerror V2 7%nat (Error (lit "EPIPE")) (world_connected V2))
  = false.
Proof.
  assert (isSessionConnected 0%nat (snd (getInstance sid_a (initial_world 1000)))
          = false) as H1 by (vm_compute; reflexivity).
  assert (connectionPromise (heap (snd (getInstance sid_a (initial_world 1000))) 0%nat)
          = None) as H2 by (vm_compute; reflexivity).
  exact (proj1 (proj2 (X12_transport_error_disconnects V2 healthy 0%nat 7%nat
                         (snd (getInstance sid_a (initial_world 1000)))
                         (Error (lit "EPIPE")) H1 H2 eq_refl))).
Defined.

Ltac marks this :=
  unfold marks_on_return; unfold modify, emit; cbn; rewrite ?upd_same; cbn;
  (split; [reflexivity|]); (split; [|reflexivity]);
  let r' := fresh "r" in
  let Hr := fresh "Hr" in
  intros r' Hr; rewrite ?upd_other by assumption; cbn;
  rewrite ?upd_other by assumption; reflexivity.

Lemma connect_cached_marks (ver : version) (env : environment) (this : ref)
    (w : world) :
  marks_on_return this w (connect_cached ver env this w).
Proof.
  unfold connect_cached, validateConnection. unfold_M.
  destruct (isSessionConnected this w); [|marks this].
  destruct ver; [marks this|].
  destruct (client (heap w this)) as [c|];
    [destruct (transport (heap w this));
     [destruct (listTools_result env c)|]|]; marks this.
Qed.

Lemma connect_shared_marks (this : ref) (w : world) :
  marks_on_return this w (connect_shared this w).
Proof.
  unfold connect_shared, connect_recheck, await_promise. unfold_M.
  destruct (connectionPromise (heap w this)) as [p|]; [|marks this].
  destruct (promises w p); [marks this| |marks this].
  destruct (isSessionConnected this w); marks this.
Qed.

Lemma connect_fresh_marks (env : environment) (this : ref) (t : transportId)
    (w : world) :
  let r := connect_fresh env this t w in
  (forall r', r' <> this -> lastUsed (heap (snd r) r') = lastUsed (heap w r'))
  /\ match fst r with
     | Returned _ => lastUsed (heap (snd r) this) = clock w
     | _ => lastUsed (heap (snd r) this) = lastUsed (heap w this)
     end.
Proof.
  pose proof (connect_fresh_effect env this t w) as H. cbv zeta in H.
  destruct H as (H & Ho & _). cbv zeta.
  split; [intros r' Hr; now rewrite Ho|].
  destruct (connect_result env (nextClient w) t);
    destruct H as (-> & -> & _); reflexivity.
Qed.

Lemma connect_marks (ver : version) (env : environment) (this : ref)
    (t : transportId) (w : world) :
  let r := connect ver env this t w in
  (forall r', r' <> this -> lastUsed (heap (snd r) r') = lastUsed (heap w r'))
  /\ match fst r with
     | Returned _ => lastUsed (heap (snd r) this) = clock w
     | _ => lastUsed (heap (snd r) this) = lastUsed (heap w this)
     end.
Proof.
  cbv zeta. remember (connect ver env this t w) as R eqn:ER.
  unfold connect, bind, ret in ER.
  destruct (connect_cached_marks ver env this w) as (C1 & O1 & L1).
  destruct (connect_cached ver env this w) as [[[v|]|e|] w1]; cbn [fst snd] in *;
    try (subst R; cbn [fst snd]; split; assumption).
  destruct (connect_shared_marks this w1) as (C2 & O2 & L2).
  destruct (connect_shared this w1) as [[[v'|]|e'|] w2]; cbn [fst snd] in *.
  - subst R. cbn [fst snd].
    split; [intros r' Hr; now rewrite O2, O1 | congruence].
  - destruct (connect_fresh_marks env this t w2) as (O3 & L3). subst R.
    split; [intros r' Hr; now rewrite O3, O2, O1|].
    destruct (fst (connect_fresh env this t w2)); congruence.
  - subst R. cbn [fst snd].
    split; [intros r' Hr; now rewrite O2, O1 | congruence].
  - subst R. cbn [fst snd].
    split; [intros r' Hr; now rewrite O2, O1 | congruence].
Qed.

(** X13: [lastUsed] records successful use only.  [connect] sets it to the
    current time when it returns a client and leaves it alone when it
    throws; [getClient] and [getClientSync] set it when they return a
    client and leave it alone when they return [null]; none of them touches
    another session.  [cleanup], the sweep, [cleanupAllSessions] and a
    transport error never change the [lastUsed] of any session. *)
Theorem X13_lastUsed_records_successful_use :
  forall (ver : version) (env : environment) (this : ref) (t : transportId)
         (e : error) (w : world),
    (let r := connect ver env this t w in
     (forall r', r' <> this -> lastUsed (heap (snd r) r') = lastUsed (heap w r'))
     /\ match fst r with
        | Returned _ => lastUsed (heap (snd r) this) = clock w
        | _ => lastUsed (heap (snd r) this) = lastUsed (heap w this)
        end)
    /\ (let r := getClient env this w in
        (forall r', r' <> this -> lastUsed (heap (snd r) r') = lastUsed (heap w r'))
        /\ match fst r with
           | Returned (Some _) => lastUsed (heap (snd r) this) = clock w
           | _ => lastUsed (heap (snd r) this) = lastUsed (heap w this)
           end)
    /\ (let r := getClientSync this w in
        (forall r', r' <> this -> lastUsed (heap (snd r) r') = lastUsed (heap w r'))
        /\ match fst r with
           | Returned (Some _) => lastUsed (heap (snd r) this) = clock w
           | _ => lastUsed (heap (snd r) this) = lastUsed (heap w this)
           end)
    /\ (forall r', lastUsed (heap (snd (cleanup env this w)) r') = lastUsed (heap w r'))
    /\ (forall r', lastUsed (heap (snd (sweep env this w)) r') = lastUsed (heap w r'))
    /\ (forall r', lastUsed (heap (snd (cleanupAllSessions env w)) r')
                   = lastUsed (heap w r'))
    /\ (forall r', lastUsed (heap (transport_onerror ver t e w) r')
                   = lastUsed (heap w r')).
Proof.
  intros ver env this t e w.
  split; [apply connect_marks|]. split; [|split].
  - cbv zeta. rewrite getClient_eq. unfold getClient_cases, after_failed_probe.
    destruct (isSessionConnected this w) eqn:Hc; [|now split].
    unfold isSessionConnected in Hc. apply andb_prop in Hc. destruct Hc as [_ Hc].
    destruct (client (heap w this)) as [c|]; [|discriminate].
    destruct (transport (heap w this));
      [destruct (listTools_result env c)|];
      unfold modify, emit; cbn; rewrite ?upd_same; cbn;
      (split; [|reflexivity]); intros r' Hr;
      now rewrite ?upd_other by assumption.
  - cbv zeta. unfold getClientSync. unfold_M.
    destruct (isSessionConnected this w) eqn:Hc; [|now split].
    unfold isSessionConnected in Hc. apply andb_prop in Hc. destruct Hc as [_ Hc].
    unfold modify. cbn. rewrite !upd_same. cbn.
    destruct (client (heap w this)) as [c|]; [|discriminate].
    split; [|reflexivity]. intros r' Hr. now rewrite upd_other.
  - split; [apply cleanup_quiet|]. split; [apply sweep_quiet|].
    split; [apply cleanupAllSessions_quiet | apply transport_onerror_quiet].
Qed.

End ConnectFacts.

(* ================================================================== *)
(** ** The shape of session ids                                        *)
(* ================================================================== *)

Module IdFacts.
Import JS SessionId.
Import JSFacts SessionIdFacts.

Lemma to_int32_range (z : Z) : - 2 ^ 31 <= to_int32 z < 2 ^ 31.
Proof.
  unfold to_int32.
  pose proof (Z.mod_pos_bound (z + 2 ^ 31) (2 ^ 32) ltac:(lia)). lia.
Qed.

Lemma hash_step_range (hash char : Z) :
  - 2 ^ 31 <= hash_step hash char < 2 ^ 31.
Proof. unfold hash_step, js_and. apply to_int32_range. Qed.

Lemma fold_left_cons {A B} (f : A -> B -> A) (b : B) (l : list B) (a : A) :
  fold_left f (b :: l) a = fold_left f l (f a b).
Proof. reflexivity. Qed.

Lemma fold_hash_step_range (s : jsstring) :
  forall acc,
    - 2 ^ 31 <= acc < 2 ^ 31 ->
    - 2 ^ 31 <= fold_left hash_step s acc < 2 ^ 31.
Proof.
  induction s as [|c s IH]; intros acc Hacc; [exact Hacc|].
  rewrite fold_left_cons. apply IH, hash_step_range.
Qed.

Lemma hash_string_range (s : jsstring) :
  - 2 ^ 31 <= hash_string s < 2 ^ 31.
Proof. unfold hash_string. apply fold_hash_step_range. lia. Qed.

Lemma digits_le_length (radix : Z) (fuel : nat) :
  1 < radix ->
  forall (k : nat) (n : Z),
    0 <= n < radix ^ Z.of_nat (S k) ->
    (1 <= List.length (digits_le (S fuel) radix n) <= S k)%nat.
Proof.
  intros Hr. induction fuel as [|fuel IH]; intros k n Hn.
  - cbn. destruct (n / radix =? 0); cbn; lia.
  - change (digits_le (S (S fuel)) radix n)
      with (n mod radix ::
            (if n / radix =? 0 then [] else digits_le (S fuel) radix (n / radix))).
    destruct (Z.eqb_spec (n / radix) 0) as [E|E]; cbn [List.length]; [lia|].
    destruct k as [|k].
    + exfalso. apply E. apply Z.div_small. cbn in Hn. lia.
    + assert (0 <= n / radix < radix ^ Z.of_nat (S k)) as Hq.
      { split; [apply Z.div_pos; lia|].
        apply Z.div_lt_upper_bound; [lia|].
        rewrite <- Z.pow_succ_r by lia. rewrite <- Nat2Z.inj_succ. lia. }
      specialize (IH k (n / radix) Hq). lia.
Qed.

Lemma digit_char_base36 (d : Z) : 0 <= d < 36 -> is_base36 (digit_char d).
Proof. unfold is_base36, digit_char. destruct (Z.ltb_spec d 10); lia. Qed.

Lemma nat_digits_base36 (n : Z) : Forall is_base36 (nat_digits 36 n).
Proof.
  unfold nat_digits. apply Forall_forall. intros c Hc.
  apply in_map_iff in Hc. destruct Hc as (d & <- & Hd).
  apply in_rev in Hd.
  pose proof (digits_le_range 36 (S (Z.to_nat (Z.log2 n))) ltac:(lia) n) as H.
  rewrite Forall_forall in H. apply digit_char_base36, H, Hd.
Qed.

Lemma nat_digits_length (n : Z) (k : nat) :
  0 <= n < 36 ^ Z.of_nat (S k) ->
  (1 <= List.length (nat_digits 36 n) <= S k)%nat.
Proof.
  intros Hn. unfold nat_digits. rewrite length_map, length_rev.
  apply digits_le_length; [lia | exact Hn].
Qed.

(** The hash part of an id: [Math.abs(hash).toString(36)]. *)
Lemma hash_part (s : jsstring) :
  let h := toString 36 (Int (Z.abs (hash_string s))) in
  (1 <= List.length h <= 6)%nat /\ Forall is_base36 h.
Proof.
  cbv zeta. pose proof (hash_string_range s) as Hr.
  unfold toString. destruct (Z.ltb_spec (Z.abs (hash_string s)) 0); [lia|].
  split; [|apply nat_digits_base36].
  apply nat_digits_length. change (36 ^ Z.of_nat 6) with 2176782336.
  change (2 ^ 31) with 2147483648 in Hr. lia.
Qed.

(** A safe integer that is not negative, in base 36. *)
Lemma safe_integer_part (t : Z) :
  0 <= t -> is_safe_integer t = true ->
  (1 <= List.length (toString 36 (Int t)) <= 11)%nat
  /\ Forall is_base36 (toString 36 (Int t)).
Proof.
  intros Ht Hs. unfold is_safe_integer in Hs. apply Z.leb_le in Hs.
  unfold toString. destruct (Z.ltb_spec t 0); [lia|].
  split; [|apply nat_digits_base36].
  apply nat_digits_length. change (36 ^ Z.of_nat 11) with 131621703842267136.
  change (2 ^ 53 - 1) with 9007199254740991 in Hs. lia.
Qed.

Lemma set_prop_twice (k : jsstring) (v v' : jsval) (o : jsobject) :
  set_prop k v (set_prop k v' o) = set_prop k v o.
Proof.
  induction o as [|[k0 v0] o IH]; cbn.
  - now rewrite jsstring_eqb_refl.
  - destruct (jsstring_eqb k k0) eqn:E; cbn; rewrite E; [reflexivity|].
    now rewrite IH.
Qed.

Lemma createNewSession_timestamp (now : Z) (cfg : jsobject) :
  V2.effective_timestamp now (set_prop (lit "timestamp") (JNum (Int now)) cfg)
  = JNum (Int now).
Proof.
  pose proof (timestamp_of_with_timestamp (Int now) cfg) as H.
  unfold with_timestamp, timestamp_key in H.
  unfold V2.effective_timestamp. rewrite H. cbn [truthy].
  now destruct (negb (now =? 0)).
Qed.

(** X14: the shape of a session id.  The hash that [generateSessionId]
    computes is a signed 32-bit integer, so the id of
    [McpSessionManager.ts] is [mcp_session_] followed by one to six digits
    or lower-case letters.  The id of [part_000] is that, an underscore and
    what [toString(36)] gives for the timestamp that is used; it is not
    computed when that throws.  When the timestamp that is used is a safe
    integer that is not negative, as every reading of the clock since 1970
    is, the last part consists of one to eleven digits or lower-case
    letters. *)
Theorem X14_session_id_shape :
  forall (now : Z) (cfg : jsobject),
    (forall s, - 2 ^ 31 <= hash_string s < 2 ^ 31)
    /\ (exists h,
          V1.generateSessionId cfg = lit "mcp_session_" ++ h
          /\ (1 <= List.length h <= 6)%nat
          /\ Forall is_base36 h
          /\ (List.length (V1.generateSessionId cfg) <= 18)%nat)
    /\ match call_toString 36 (V2.effective_timestamp now cfg) with
       | Normal suffix =>
           exists h,
             V2.generateSessionId now cfg
             = Normal (lit "mcp_session_" ++ h ++ lit "_" ++ suffix)
             /\ (1 <= List.length h <= 6)%nat
             /\ Forall is_base36 h
       | TypeError => V2.generateSessionId now cfg = TypeError
       end
    /\ (forall t,
          V2.effective_timestamp now cfg = JNum (Int t) ->
          0 <= t -> is_safe_integer t = true ->
          exists h,
            V2.generateSessionId now cfg
            = Normal (lit "mcp_session_" ++ h ++ lit "_" ++ toString 36 (Int t))
            /\ (1 <= List.length h <= 6)%nat
            /\ Forall is_base36 h
            /\ (1 <= List.length (toString 36 (Int t)) <= 11)%nat
            /\ Forall is_base36 (toString 36 (Int t))).
Proof.
  intros now cfg. split; [apply hash_string_range|]. split; [|split].
  - destruct (hash_part (JSON_stringify cfg)) as [Hl Hf].
    eexists. split; [reflexivity|]. split; [exact Hl|]. split; [exact Hf|].
    unfold V1.generateSessionId. rewrite length_app.
    change (List.length (lit "mcp_session_")) with 12%nat. lia.
  - pose proof (generateSessionId_cases now cfg) as H.
    destruct (call_toString 36 (V2.effective_timestamp now cfg)) as [suffix|];
      [|exact H].
    destruct H as (inserted & _ & H).
    destruct (hash_part (JSON_stringify cfg ++ lit "_" ++ inserted)) as [Hl Hf].
    eexists. split; [exact H|]. split; [exact Hl | exact Hf].
  - intros t Et Ht Hs. rewrite (generateSessionId_integer now t cfg Et).
    destruct (hash_part (JSON_stringify cfg ++ lit "_" ++ toString 10 (Int t)))
      as [Hl Hf].
    destruct (safe_integer_part t Ht Hs) as [Hl' Hf'].
    eexists. split; [reflexivity|]. repeat split; assumption || lia.
Qed.

(** X15: [createNewSession] stamps the id with the current time, whatever
    timestamp the configuration carries: the id ends with an underscore
    and the current time in base 36, a timestamp already present in the
    configuration is overwritten, and two ids made at different times
    differ, for every reading of the clock. *)
Theorem X15_createNewSession_stamps_current_time :
  forall (now : Z) (cfg : jsobject),
    (exists h,
        V2.createNewSession now cfg
        = Normal (lit "mcp_session_" ++ h ++ lit "_" ++ toString 36 (Int now)))
    /\ (forall v, V2.createNewSession now (set_prop (lit "timestamp") v cfg)
                  = V2.createNewSession now cfg)
    /\ (forall now' cfg',
          V2.createNewSession now cfg = V2.createNewSession now' cfg' ->
          now = now').
Proof.
  intros now cfg. split; [|split].
  - unfold V2.createNewSession.
    rewrite (generateSessionId_integer now now)
      by apply createNewSession_timestamp.
    eexists. reflexivity.
  - intros v. unfold V2.createNewSession. now rewrite set_prop_twice.
  - intros now' cfg' H. unfold V2.createNewSession in H.
    apply (generateSessionId_timestamp now now' now now') in H;
      [exact H | |]; apply createNewSession_timestamp.
Qed.

End IdFacts.

(* ================================================================== *)
(** ** Calls of [cleanup] that overlap with other calls                *)
(* ================================================================== *)

Module OverlapFacts.
Import JS Session Manager Registry Samples Observe Async AsyncObserve.
Import JSFacts ManagerFacts RegistryFacts.

Ltac unfold_M :=
  unfold bind, act, get, try_catch, await, ret, throw, touch in *.

Lemma cleanup_begin_open (this : ref) (t : transportId) (w : world) :
  transport (heap w this) = Some t ->
  let r := cleanup_begin this w in
  fst r = Some t
  /\ transport (heap (snd r) this) = Some t
  /\ cleanupTimer (heap (snd r) this) = None
  /\ client (heap (snd r) this) = client (heap w this)
  /\ isConnected (heap (snd r) this) = isConnected (heap w this)
  /\ nextPromise (snd r) = nextPromise w
  /\ exists evs, trace (snd r) = TransportClose t :: evs ++ trace w
                 /\ filter is_close evs = [].
Proof.
  intros Ht. unfold cleanup_begin, clear_cleanupTimer, modify, emit. cbn.
  destruct (cleanupTimer (heap w this)) as [id|] eqn:Hid; cbn;
    rewrite ?upd_same; cbn; rewrite Ht; cbn; rewrite ?upd_same; cbn;
    rewrite ?Hid; (split; [reflexivity|]); (split; [assumption|]);
    (split; [reflexivity|]); (split; [reflexivity|]); (split; [reflexivity|]);
    (split; [reflexivity|]).
  - now exists [ClearTimeout id; CleanupCalled this].
  - now exists [CleanupCalled this].
Qed.

(** X16: two calls of [cleanup()] on a connected session, the second made
    before the [close()] of the first has settled, both call [close()] on
    the transport; when both closes have settled, however they settle, the
    session is cleared. *)
Theorem X16_overlapping_cleanups_close_twice :
  forall (ver : version) (this : ref) (t : transportId) (w : world),
    transport (heap w this) = Some t ->
    exists s,
      run ver this [CallCleanup; CallCleanup] (start w) = Some s
      /\ cleanups s = [t; t]
      /\ (exists evs,
            trace (world_of s) = evs ++ trace w
            /\ filter is_close evs = [TransportClose t; TransportClose t])
      /\ forall r1 r2,
           exists s',
             run ver this [CleanupCloseSettles r1; CleanupCloseSettles r2] s
             = Some s'
             /\ cleanups s' = []
             /\ is_cleared (heap (world_of s') this)
             /\ exists evs,
                  trace (world_of s') = evs ++ trace (world_of s)
                  /\ filter is_close evs = [].
Proof.
  intros ver this t w Ht.
  destruct (cleanup_begin_open this t w Ht)
    as (F1 & T1 & _ & _ & _ & _ & evs1 & Tr1 & C1).
  cbv zeta in F1, T1, Tr1.
  destruct (cleanup_begin this w) as [c1 w1] eqn:E1. cbn [fst snd] in *. subst c1.
  destruct (cleanup_begin_open this t w1 T1)
    as (F2 & T2 & _ & _ & _ & _ & evs2 & Tr2 & C2).
  cbv zeta in F2, T2, Tr2.
  destruct (cleanup_begin this w1) as [c2 w2] eqn:E2. cbn [fst snd] in *. subst c2.
  cbn [run step start world_of]. rewrite E1. cbn [world_of with_cleanups with_world].
  rewrite E2. cbn [cleanups with_cleanups with_world app].
  eexists. split; [reflexivity|]. cbn.
  split; [reflexivity|]. split.
  - exists (TransportClose t :: evs2 ++ TransportClose t :: evs1).
    rewrite Tr2, Tr1. split.
    + cbn [app]. now rewrite <- app_assoc.
    + cbn [filter is_close]. rewrite filter_app. cbn [filter is_close].
      now rewrite C1, C2.
  - intros r1 r2. eexists. split; [reflexivity|]. cbn [cleanups world_of].
    split; [reflexivity|]. split; [apply cleanup_resume_cleared|].
    unfold cleanup_resume, cleanup_finish, modify, emit. unfold_M.
    destruct r1, r2; cbn; eexists; (split; [|shelve]);
      match goal with
      | |- ?a :: ?b :: ?c :: ?d :: ?l = _ => change (a :: b :: c :: d :: l) with ([a; b; c; d] ++ l)
      | |- ?a :: ?b :: ?c :: ?l = _ => change (a :: b :: c :: l) with ([a; b; c] ++ l)
      | |- ?a :: ?b :: ?l = _ => change (a :: b :: l) with ([a; b] ++ l)
      end; reflexivity.
    Unshelve. all: reflexivity.
Qed.

Lemma X16_overlapping_cleanups_close_twice_witness :
  exists s,
    run V2 0%nat [CallCleanup; CallCleanup] (start (world_connected V2)) = Some s
    /\ cleanups s = [7%nat; 7%nat].
Proof.
  assert (transport (heap (world_connected V2) 0%nat) = Some 7%nat) as H
    by (vm_compute; reflexivity).
  destruct (X16_overlapping_cleanups_close_twice V2 0%nat 7%nat
              (world_connected V2) H) as (s & Hs & Hc & _).
  exists s. split; assumption.
Defined.

Lemma cleanup_begin_idle (this : ref) (w : world) :
  transport (heap w this) = None ->
  let r := cleanup_begin this w in
  fst r = None
  /\ heap (snd r) this = cleared (heap w this)
  /\ promises (snd r) = promises w /\ nextPromise (snd r) = nextPromise w
  /\ nextClient (snd r) = nextClient w
  /\ exists evs, trace (snd r) = evs ++ trace w
                 /\ filter is_close evs = []
                 /\ filter is_NewClient evs = []
                 /\ filter is_ClientConnect evs = [].
Proof.
  intros Ht. unfold cleanup_begin, clear_cleanupTimer, cleanup_finish, modify, emit.
  cbn. remember (heap w this) as m eqn:Em.
  destruct m as [c tr ic cp lu sid ti]. cbn in Ht. subst tr.
  destruct ti as [id|]; cbn; rewrite ?upd_same; cbn; rewrite <- ?Em; cbn;
    rewrite ?upd_same; cbn; repeat (split; [reflexivity|]).
  - now exists [ConsoleLog (msg_cleaned_up sid); ClearTimeout id; CleanupCalled this].
  - now exists [ConsoleLog (msg_cleaned_up sid); CleanupCalled this].
Qed.

(** X17: a [cleanup()] that runs while the handshake of [connect] is
    pending.  The handshake succeeds and the session is flagged as
    connected over the new transport, but the client that [cleanup] dropped
    is not restored: the call of [connect] throws [Failed to establish MCP
    connection], [isSessionConnected()] is false although [isConnected] is
    set, and nothing has been closed. *)
Theorem X17_cleanup_during_handshake_loses_client :
  forall (ver : version) (this : ref) (t : transportId) (w0 : world),
    unconnected this w0 ->
    let p := nextPromise w0 in
    let c := nextClient w0 in
    exists s,
      run ver this
        [Call 0 t; Continue p; CallCleanup; HandshakeSettles p None; Resume 0]
        (start w0) = Some s
      /\ settled_with s 0
           (Thrown (Error (lit "Failed to establish MCP connection")))
      /\ isConnected (heap (world_of s) this) = true
      /\ client (heap (world_of s) this) = None
      /\ transport (heap (world_of s) this) = Some t
      /\ connectionPromise (heap (world_of s) this) = None
      /\ isSessionConnected this (world_of s) = false
      /\ exists evs,
           trace (world_of s) = evs ++ trace w0
           /\ filter is_NewClient evs = [NewClient c]
           /\ filter is_ClientConnect evs = [ClientConnect c t]
           /\ filter is_close evs = [].
Proof.
  intros ver this t w0 (Hc & Ht & Hi & Hp) p c.
  assert (isSessionConnected this w0 = false) as Hs
      by (unfold isSessionConnected; now rewrite Hi).
  destruct (cleanup_begin_idle this w0 Ht)
    as (F1 & H1 & P1 & NP1 & NC1 & evs1 & T1 & C1 & N1 & K1).
  cbv zeta in F1, H1, P1, NP1, NC1, T1.
  cbn [run]. unfold step at 1. cbn [start calls world_of]. rewrite Hs.
  unfold connect_from_88. cbn [world_of start]. rewrite Hp.
  unfold connect_from_96. cbn [world_of start].
  destruct (cleanup_begin this w0) as [c1 w1]. cbn [fst snd] in *. subst c1.
  rewrite NP1. fold p.
  unfold step at 1. cbn [runs with_call with_run with_world world_of].
  rewrite upd_same.
  unfold doConnect_handshake, new_Client, install_onerror, settle_promise, modify, emit.
  unfold_M. cbn. rewrite ?upd_same. cbn. rewrite ?upd_same.
  match goal with |- context [cleanup_begin this ?W] => set (w2 := W) end.
  assert (heap w2 this
          = set_client (Some c) (set_connectionPromise (Some p) (cleared (heap w0 this)))
          /\ promises w2 p = Pending
          /\ trace w2 = [ClientConnect c t; NewClient c] ++ evs1 ++ trace w0)
    as (H2 & P2 & T2).
  { unfold w2. cbn. rewrite !upd_same, H1, NC1, T1. repeat split. }
  assert (transport (heap w2 this) = None) as Ht2 by now rewrite H2.
  destruct (cleanup_begin_idle this w2 Ht2)
    as (F3 & H3 & P3 & NP3 & NC3 & evs3 & T3 & C3 & N3 & K3).
  cbv zeta in F3, H3, P3, NP3, NC3, T3. clearbody w2.
  destruct (cleanup_begin this w2) as [c3 w3]. cbn [fst snd] in *. subst c3.
  cbn. rewrite ?upd_same. cbn. rewrite ?upd_same.
  eexists. split; [reflexivity|].
  unfold settled_with, settle_call, connect_finish, settle_promise, modify, emit.
  unfold_M. cbn. rewrite ?upd_same. cbn. rewrite ?upd_same. cbn.
  rewrite H3, H2. cbn. rewrite ?upd_same. cbn.
  split; [now exists t|]. repeat (split; [reflexivity|]).
  split; [unfold isSessionConnected; cbn; now rewrite upd_same|].
  exists (ConsoleLog (msg_connected (sessionId (heap w0 this)))
          :: evs3 ++ [ClientConnect c t; NewClient c] ++ evs1).
  rewrite T3, T2.
  split; [cbn [app]; now rewrite <- !app_assoc|].
  cbn [filter is_NewClient is_ClientConnect is_close].
  rewrite !filter_app. cbn [filter is_NewClient is_ClientConnect is_close app].
  rewrite C1, N1, K1, C3, N3, K3. repeat split.
Qed.

Lemma X17_cleanup_during_handshake_loses_client_witness :
  exists s,
    run V2 0%nat
      [Call 0 7%nat; Continue (nextPromise fresh_session); CallCleanup;
       HandshakeSettles (nextPromise fresh_session) None; Resume 0]
      (start fresh_session) = Some s
    /\ settled_with s 0
         (Thrown (Error (lit "Failed to establish MCP connection"))).
Proof.
  assert (unconnected 0%nat fresh_session) as H.
  { repeat split; vm_compute; reflexivity. }
  destruct (X17_cleanup_during_handshake_loses_client V2 0%nat 7%nat
              fresh_session H) as (s & Hs & Hr & _).
  exists s. split; assumption.
Defined.

(** X19: a probe that fails late undoes a fresh connection.  In
    [part_000], caller 0 calls [connect] on a connected session and waits
    for the probe; the transport fails; caller 1 calls [connect], which
    connects the session afresh and returns the new client; then the probe
    of caller 0 fails.  Caller 0 takes the session for disconnected, drops
    the new client and starts another attempt, whose [cleanup] closes the
    transport of the client that caller 1 has just been given. *)
Theorem X19_late_probe_failure_undoes_fresh_connection :
  forall (this : ref) (c : clientId) (t t0 t1 : transportId) (e e' : error)
         (w : world),
    isConnected (heap w this) = true ->
    client (heap w this) = Some c ->
    transport (heap w this) = Some t ->
    connectionPromise (heap w this) = None ->
    onerror w t = Some this ->
    let p := nextPromise w in
    let c1 := nextClient w in
    exists s,
      run V2 this
        [Call 0 t0; TransportError t e; Call 1 t1; Continue p;
         HandshakeSettles p None; Resume 1; ProbeSettles 0 (Some e')]
        (start w) = Some s
      /\ settled_with s 1 (Returned (Some c1))
      /\ calls s 0 = Some {| cc_transport := t0; cc_pc := AwaitOwn (S p) |}
      /\ client (heap (world_of s) this) = None
      /\ isSessionConnected this (world_of s) = false
      /\ transport (heap (world_of s) this) = Some t1
      /\ exists evs,
           trace (world_of s) = TransportClose t1 :: evs
           /\ In (ClientConnect c1 t1) evs.
Proof.
  intros this c t t0 t1 e e' w Hi Hc Ht Hp Ho p c1.
  assert (isSessionConnected this w = true) as Hs
      by (unfold isSessionConnected; now rewrite Hi, Hc).
  cbn [run]. unfold step at 1. cbn [start calls world_of]. rewrite Hs, Hc, Ht.
  unfold step at 1. cbn [world_of with_call with_world start].
  unfold transport_onerror. cbn [onerror emit with_trace]. rewrite Ho.
  match goal with
  | |- context [step V2 this (Call 1 t1) (with_world ?W _)] => set (w1 := W)
  end.
  assert (client (heap w1 this) = None /\ transport (heap w1 this) = None
          /\ isConnected (heap w1 this) = false
          /\ connectionPromise (heap w1 this) = None
          /\ nextPromise w1 = nextPromise w /\ nextClient w1 = nextClient w)
    as (Hc1 & Ht1 & Hi1 & Hp1 & Hnp1 & Hnc1).
  { unfold w1, modify, emit. cbn. rewrite !upd_same. cbn. now rewrite Hp. }
  clearbody w1.
  assert (isSessionConnected this w1 = false) as Hs1
      by (unfold isSessionConnected; now rewrite Hi1).
  unfold step at 1. cbn [calls with_call with_world world_of start].
  change (upd 0%nat (Some {| cc_transport := t0; cc_pc := AwaitValidate (Some c) |})
            (fun _ : nat => None) 1%nat) with (@None connect_call).
  cbv beta iota. rewrite Hs1.
  unfold connect_from_88. cbn [world_of with_world with_call]. rewrite Hp1.
  unfold connect_from_96. cbn [world_of with_world with_call].
  destruct (cleanup_begin_idle this w1 Ht1)
    as (F2 & H2 & P2 & NP2 & NC2 & evs2 & T2 & _).
  cbv zeta in F2, H2, P2, NP2, NC2, T2.
  destruct (cleanup_begin this w1) as [c2 w2]. cbn [fst snd] in *. subst c2.
  rewrite NP2, Hnp1. fold p.
  unfold step at 1. cbn [runs with_call with_run with_world world_of start].
  rewrite upd_same.
  unfold doConnect_handshake, new_Client, install_onerror, settle_promise, modify,
    emit. unfold_M. cbn. rewrite ?upd_same. cbn. rewrite ?upd_same. cbn.
  rewrite ?upd_same. cbn.
  unfold connect_finish, settle_call, modify, emit. unfold_M.
  cbn. rewrite ?upd_same. cbn. rewrite ?upd_same. cbn.
  match goal with
  | |- context [validation_failed this ?W] => set (w3 := W)
  end.
  assert (connectionPromise (heap w3 this) = None
          /\ transport (heap w3 this) = Some t1
          /\ nextPromise w3 = S p
          /\ trace w3
             = [ConsoleLog (msg_connected (sessionId (heap w2 this)));
                ClientConnect c1 t1; NewClient c1] ++ trace w2)
    as (Hp3 & Ht3 & Hnp3 & Htr3).
  { unfold w3, settle_promise, modify. cbn. rewrite !upd_same. cbn.
    rewrite NC2, Hnc1. repeat split. }
  clearbody w3.
  set (w4 := validation_failed this w3).
  assert (connectionPromise (heap w4 this) = None
          /\ transport (heap w4 this) = Some t1
          /\ client (heap w4 this) = None
          /\ isConnected (heap w4 this) = false
          /\ nextPromise w4 = S p
          /\ trace w4
             = ConsoleLog (msg_reconnecting (sessionId (heap w3 this))) :: trace w3)
    as (Hp4 & Ht4 & Hc4 & Hi4 & Hnp4 & Htr4).
  { unfold w4, validation_failed, modify, emit. cbn. rewrite !upd_same. cbn.
    repeat split; assumption. }
  clearbody w4.
  unfold connect_from_88. cbn [world_of with_world with_call]. rewrite Hp4.
  unfold connect_from_96. cbn [world_of with_world with_call].
  destruct (cleanup_begin_open this t1 w4 Ht4)
    as (F5 & T5 & _ & C5 & I5 & NP5 & evs5 & Tr5 & _).
  cbv zeta in F5, T5, C5, I5, NP5, Tr5.
  destruct (cleanup_begin this w4) as [c5 w5]. cbn [fst snd] in *. subst c5.
  rewrite NP5, Hnp4.
  eexists. split; [reflexivity|].
  unfold settled_with, isSessionConnected, settle_promise, modify. cbn.
  rewrite ?upd_same. cbn. rewrite NC2, Hnc1, C5, I5, Hc4, Hi4, T5. fold c1.
  split; [now exists t1|]. repeat (split; [reflexivity|]).
  rewrite Tr5, Htr4, Htr3. eexists. split; [reflexivity|].
  apply in_or_app. right. right. apply in_or_app. left. right. now left.
Qed.

Lemma X19_late_probe_failure_undoes_fresh_connection_witness :
  exists s,
    run V2 0%nat
      [Call 0 8%nat; TransportError 7%nat (Error (lit "EPIPE")); Call 1 9%nat;
       Continue (nextPromise (world_connected V2));
       HandshakeSettles (nextPromise (world_connected V2)) None; Resume 1;
       ProbeSettles 0 (Some (Error (lit "Not connected")))]
      (start (world_connected V2)) = Some s
    /\ settled_with s 1 (Returned (Some (nextClient (world_connected V2))))
    /\ client (heap (world_of s) 0%nat) = None.
Proof.
  assert (isConnected (heap (world_connected V2) 0%nat) = true) as H1
    by (vm_compute; reflexivity).
  assert (client (heap (world_connected V2) 0%nat) = Some 0%nat) as H2
    by (vm_compute; reflexivity).
  assert (transport (heap (world_connected V2) 0%nat) = Some 7%nat) as H3
    by (vm_compute; reflexivity).
  assert (connectionPromise (heap (world_connected V2) 0%nat) = None) as H4
    by (vm_compute; reflexivity).
  assert (onerror (world_connected V2) 7%nat = Some 0%nat) as H5
    by (vm_compute; reflexivity).
  destruct (X19_late_probe_failure_undoes_fresh_connection 0%nat 0%nat 7%nat
              8%nat 9%nat (Error (lit "EPIPE")) (Error (lit "Not connected"))
              (world_connected V2) H1 H2 H3 H4 H5)
    as (s & Hs & Hr & _ & Hc & _).
  exists s. split; [exact Hs|]. split; assumption.
Defined.


End OverlapFacts.

(* ================================================================== *)
(** ** What the sweep does to the sessions                             *)
(* ================================================================== *)

Module ExpiryFacts.
Import JS Session Manager Registry Samples Observe Lifecycle.
Import JSFacts ManagerFacts RegistryFacts LifecycleFacts SteadyFacts SoundFacts.
Import SweepFacts.

Ltac unfold_M :=
  unfold bind, act, get, try_catch, await, ret, throw, touch in *.

Lemma sweep_one_step (acc : list pending_cleanup * world) (sid : jsstring) :
  let r := sweep_one acc sid in
  (forall r0, transport (heap (snd r) r0) = transport (heap (snd acc) r0))
  /\ (forall r0, is_cleared (heap (snd acc) r0) -> is_cleared (heap (snd r) r0))
  /\ (forall p, In p (fst r) ->
        In p (fst acc)
        \/ (pc_sessionId p = sid
            /\ Map_get sid (instances (snd acc)) = Some (pc_instance p)))
  /\ incl (fst acc) (fst r)
  /\ (forall inst,
        Map_get sid (instances (snd acc)) = Some inst ->
        match transport (heap (snd acc) inst) with
        | Some t =>
            In {| pc_sessionId := sid; pc_instance := inst; pc_transport := t |}
               (fst r)
            /\ In (TransportClose t) (trace (snd r))
        | None => is_cleared (heap (snd r) inst)
        end).
Proof.
  destruct acc as [pending w]. cbv zeta. cbn [fst snd]. unfold sweep_one.
  destruct (Map_get sid (instances w)) as [inst|] eqn:E.
  - pose proof (cleanup_begin_transport inst) as Htr.
    pose proof (fun r0 => is_cleared_cleanup_begin inst r0 w) as Hcl.
    pose proof (cleanup_begin_cases inst w) as Hcase.
    destruct (cleanup_begin inst w) as [tr w1] eqn:Eb. cbn [fst snd] in *.
    split; [intros r0; specialize (Htr r0 w); now rewrite Eb in Htr|].
    split; [exact Hcl|]. split; [|split].
    + intros p Hp. destruct tr as [t|]; [|now left].
      apply in_app_or in Hp. destruct Hp as [Hp|[<-|[]]]; [now left|].
      right. now split.
    + intros p Hp. destruct tr; [apply in_or_app|]; auto.
    + intros inst' [= <-].
      destruct (transport (heap w inst)) as [t|]; destruct Hcase as [-> H].
      * split; [apply in_or_app; right; now left|]. now right; right.
      * exact H.
  - cbn [fst snd]. split; [reflexivity|]. split; [auto|]. split; [auto|].
    split; [apply incl_refl | discriminate].
Qed.

Lemma fold_sweep_one_step (sids : list jsstring) :
  NoDup sids ->
  forall acc : list pending_cleanup * world,
    let r := fold_left sweep_one sids acc in
    (forall r0, transport (heap (snd r) r0) = transport (heap (snd acc) r0))
    /\ (forall r0, is_cleared (heap (snd acc) r0) -> is_cleared (heap (snd r) r0))
    /\ (forall p, In p (fst r) ->
          In p (fst acc) \/ swept_from sids (instances (snd acc)) p)
    /\ incl (fst acc) (fst r)
    /\ (forall sid inst,
          In sid sids ->
          Map_get sid (instances (snd acc)) = Some inst ->
          match transport (heap (snd acc) inst) with
          | Some t =>
              In {| pc_sessionId := sid; pc_instance := inst; pc_transport := t |}
                 (fst r)
              /\ In (TransportClose t) (trace (snd r))
          | None => is_cleared (heap (snd r) inst)
          end).
Proof.
  induction 1 as [|sid0 sids Hnotin Hnd IH]; intros acc; cbv zeta.
  - cbn. split; [reflexivity|]. split; [auto|]. split; [auto|].
    split; [apply incl_refl | intros sid inst []].
  - cbn [fold_left].
    destruct (sweep_one_step acc sid0) as (T1 & C1 & P1 & I1 & S1).
    destruct (sweep_one_effect acc sid0) as (Hi1 & _). cbv zeta in *.
    destruct (IH (sweep_one acc sid0)) as (T2 & C2 & P2 & I2 & S2).
    cbv zeta in *.
    destruct (fold_sweep_one_effect sids (sweep_one acc sid0))
      as (_ & _ & _ & evs & Htr). cbv zeta in Htr.
    set (acc1 := sweep_one acc sid0) in *.
    set (r := fold_left sweep_one sids acc1) in *.
    split; [intros r0; now rewrite T2, T1|]. split; [auto|].
    split; [|split; [intros p Hp; auto|]].
    + intros p Hp. destruct (P2 p Hp) as [Hp1|[Hin Hget]].
      * destruct (P1 p Hp1) as [Hp0|[Hs Hg]]; [now left|].
        right. split; [left; now symmetry | now rewrite Hs].
      * right. split; [now right|]. rewrite Hi1 in Hget.
        destruct (list_eq_dec Z.eq_dec (pc_sessionId p) sid0) as [E|E].
        -- rewrite E, Map_get_delete_same in Hget. discriminate.
        -- now rewrite Map_get_delete_other in Hget.
    + intros sid inst [<-|Hin] Hget.
      * specialize (S1 inst Hget).
        destruct (transport (heap (snd acc) inst)) as [t|].
        -- destruct S1 as [Hp Hc]. split; [now apply I2|].
           rewrite Htr. now apply in_trace_extend.
        -- now apply C2.
      * assert (sid <> sid0) as Hne by (intros ->; contradiction).
        specialize (S2 sid inst Hin).
        rewrite Hi1, Map_get_delete_other, T1 in S2 by assumption.
        now apply S2.
Qed.

Lemma cleanup_resume_other (this r : ref) (res : option error) (w : world) :
  r <> this -> heap (snd (cleanup_resume this res w)) r = heap w r.
Proof.
  intros Hr. unfold cleanup_resume, cleanup_finish, modify, emit. unfold_M.
  destruct res; cbn; now rewrite ?upd_other by assumption.
Qed.

Lemma settle_cleanup_snd (env : environment) (p : pending_cleanup) (w : world) :
  snd (settle_cleanup env p w)
  = snd (cleanup_resume (pc_instance p) (close_result env (pc_transport p)) w).
Proof.
  unfold settle_cleanup, try_catch.
  pose proof (cleanup_resume_returns (pc_instance p)
                (close_result env (pc_transport p)) w) as Hr.
  destruct (cleanup_resume _ _ w) as [r w1]. cbn [fst snd] in *. now subst r.
Qed.

Lemma settle_all (env : environment) (ps : list pending_cleanup) :
  forall w,
    let r := run_each (map (settle_cleanup env) ps) w in
    (forall r0, is_cleared (heap w r0) -> is_cleared (heap (snd r) r0))
    /\ (forall p, In p ps -> is_cleared (heap (snd r) (pc_instance p)))
    /\ (forall r0, (forall p, In p ps -> pc_instance p <> r0) ->
                   heap (snd r) r0 = heap w r0)
    /\ exists evs, trace (snd r) = evs ++ trace w.
Proof.
  induction ps as [|p ps IH]; intros w; cbv zeta.
  - cbn. split; [auto|]. split; [intros p []|]. split; [auto | now exists []].
  - cbn [map run_each].
    pose proof (settle_cleanup_snd env p w) as Hs.
    destruct (settle_cleanup env p w) as [o w1]. cbn [snd] in Hs. subst w1.
    set (w1 := snd (cleanup_resume (pc_instance p)
                      (close_result env (pc_transport p)) w)).
    destruct (IH w1) as (C & P & O & evs & Htr). cbv zeta in *.
    destruct (run_each (map (settle_cleanup env) ps) w1) as [rs w2].
    cbn [snd] in *.
    split; [|split; [|split]].
    + intros r0 H. apply C. now apply is_cleared_cleanup_resume.
    + intros q [<-|Hq]; [|now apply P].
      apply C. apply cleanup_resume_cleared.
    + intros r0 H. rewrite O by (intros q Hq; apply H; now right).
      apply cleanup_resume_other. intros ->. now apply (H p); [left|].
    + destruct (cleanup_resume_trace (pc_instance p)
                  (close_result env (pc_transport p)) w) as (evs1 & Htr1).
      exists (evs ++ evs1). fold w1 in Htr1. now rewrite Htr, Htr1, app_assoc.
Qed.

(** X18: what the sweep does to the sessions.  Every expired session is
    cleaned up: once the closes have settled, however they settle, it holds
    no client and no transport and is not connected, [close()] has been
    called on the transport it held, and its id is not registered any
    more.  A session that has not expired keeps its client, its transport,
    its connected flag and its [lastUsed]. *)
Theorem X18_sweep_closes_expired_sessions_only :
  forall (env : environment) (this : ref) (w : world),
    distinct_keys (instances w) ->
    let w' := snd (sweep env this w) in
    (forall sid inst,
        In (sid, inst) (instances w) ->
        clock w - lastUsed (heap w inst) > 30 * 60 * 1000 ->
        is_cleared (heap w' inst)
        /\ (forall t, transport (heap w inst) = Some t ->
                      In (TransportClose t) (trace w'))
        /\ Map_get sid (instances w') = None)
    /\ (forall r,
          clock w - lastUsed (heap w r) <= 30 * 60 * 1000 ->
          client (heap w' r) = client (heap w r)
          /\ transport (heap w' r) = transport (heap w r)
          /\ isConnected (heap w' r) = isConnected (heap w r)
          /\ lastUsed (heap w' r) = lastUsed (heap w r)).
Proof.
  intros env this w Hdk w'.
  set (sids := map fst (filter (is_expired (clock w) w) (instances w))).
  assert (NoDup sids) as Hnd by now apply expired_sids_NoDup.
  destruct (fold_sweep_one_step sids Hnd ([], w)) as (_ & _ & P & _ & S).
  cbv zeta in P, S. cbn [fst snd] in P, S.
  pose proof (sweep_instances this w Hdk) as Hinst.
  assert (forall sid inst,
             In (sid, inst) (instances w) ->
             In sid sids -> clock w - lastUsed (heap w inst) > SESSION_TIMEOUT)
    as Hexp.
  { intros sid inst Hin Hs. apply in_map_iff in Hs.
    destruct Hs as ([sid' r'] & Hs & Hf). cbn in Hs. subst sid'.
    apply filter_In in Hf. destruct Hf as [Hin' Hx].
    pose proof (Map_get_in sid inst (instances w) Hdk Hin) as G1.
    pose proof (Map_get_in sid r' (instances w) Hdk Hin') as G2.
    assert (r' = inst) as -> by congruence.
    unfold is_expired in Hx. cbn [snd] in Hx. apply Z.gtb_lt in Hx. lia. }
  pose proof (fun r H => sweep_keeps_unexpired this r w Hdk H) as Hkeep.
  cbv zeta in Hkeep.
  subst w'. unfold sweep.
  unfold checkAndCleanupExpiredSessions in *. fold sids in Hinst, Hkeep |- *.
  destruct (fold_left sweep_one sids ([], w)) as [pending w1] eqn:Ef.
  cbn [fst snd] in *.
  set (w2 := if 0 <? Z.of_nat (List.length (instances w1))
             then startCleanupTimer this w1 else w1) in *.
  assert ((forall r0, is_cleared (heap w1 r0) -> is_cleared (heap w2 r0))
          /\ (forall e, In e (trace w1) -> In e (trace w2))) as [Hc2 Ht2].
  { unfold w2. destruct (0 <? _); [|now split]. split.
    - intros r0 (A & B & C). unfold startCleanupTimer, modify, emit. cbn.
      destruct (Nat.eq_dec r0 this) as [->|Hr].
      + rewrite upd_same. cbn. now repeat split.
      + rewrite upd_other by assumption. now repeat split.
    - intros e He. unfold startCleanupTimer, modify, emit. cbn. now right. }
  destruct (settle_all env pending w2) as (C3 & P3 & O3 & evs3 & Htr3).
  pose proof (run_each_effect (map (settle_cleanup env) pending)) as Hi3.
  specialize (Hi3 ltac:(apply Forall_forall; intros k Hk; apply in_map_iff in Hk;
                        destruct Hk as (p & <- & _); intros w0;
                        apply settle_cleanup_effect) w2).
  destruct Hi3 as [_ Hi3]. cbv zeta in *.
  set (w3 := snd (run_each (map (settle_cleanup env) pending) w2)) in *.
  change (30 * 60 * 1000) with SESSION_TIMEOUT.
  split.
  - intros sid inst Hin Hx.
    assert (In sid sids) as Hs.
    { apply in_map_iff. exists (sid, inst). split; [reflexivity|].
      apply filter_In. split; [exact Hin|]. unfold is_expired. cbn [snd].
      apply Z.gtb_lt. lia. }
    specialize (S sid inst Hs (Map_get_in sid inst (instances w) Hdk Hin)).
    split; [|split].
    + destruct (transport (heap w inst)) as [t|].
      * destruct S as [Hp _]. apply (P3 _ Hp).
      * now apply C3, Hc2.
    + intros t Ht. rewrite Ht in S. destruct S as [_ Hc].
      rewrite Htr3. now apply in_trace_extend, Ht2.
    + rewrite Hi3, Hinst.
      destruct (Map_get sid (filter _ (instances w))) as [x|] eqn:G; [|reflexivity].
      exfalso. apply Map_get_some_in, filter_In in G. destruct G as [Hin' Hx'].
      pose proof (Map_get_in sid inst (instances w) Hdk Hin) as G1.
      pose proof (Map_get_in sid x (instances w) Hdk Hin') as G2.
      assert (x = inst) as -> by congruence.
      unfold is_expired in Hx'. cbn [snd] in Hx'. apply negb_true_iff in Hx'.
      destruct (Z.gtb_spec (clock w - lastUsed (heap w inst)) SESSION_TIMEOUT);
        [discriminate | lia].
  - intros r Hfresh.
    assert (heap w3 r = heap w2 r) as E.
    { apply O3. intros p Hp Heq. destruct (P p Hp) as [[]|[Hs Hg]].
      apply Map_get_some_in in Hg. rewrite Heq in Hg.
      specialize (Hexp _ _ Hg Hs). unfold SESSION_TIMEOUT in *. lia. }
    rewrite E. destruct (Hkeep r Hfresh) as (A & B & C & _ & D & _).
    now repeat split.
Qed.

Lemma X18_sweep_closes_expired_sessions_only_witness :
  distinct_keys (instances world_three_sessions)
  /\ isSessionConnected 0%nat world_three_sessions = true
  /\ transport (heap world_three_sessions 0%nat) = Some 7%nat
  /\ is_cleared (heap (snd (sweep broken 2%nat world_three_sessions)) 0%nat)
  /\ In (TransportClose 7%nat) (trace (snd (sweep broken 2%nat world_three_sessions)))
  /\ Map_get sid_a (instances (snd (sweep broken 2%nat world_three_sessions))) = None
  /\ client (heap (snd (sweep broken 2%nat world_three_sessions)) 1%nat) = Some 1%nat
  /\ transport (heap (snd (sweep broken 2%nat world_three_sessions)) 1%nat)
     = Some 8%nat.
Proof.
  assert (instances world_three_sessions
          = [(sid_a, 0%nat); (sid_b, 1%nat); (sid_c, 2%nat)]) as Hi
    by (vm_compute; reflexivity).
  assert (distinct_keys (instances world_three_sessions)) as H.
  { rewrite Hi. unfold distinct_keys. cbn [map fst].
    constructor; [|constructor; [|constructor; [tauto | constructor]]].
    - intros [E|[E|[]]]; discriminate E.
    - intros [E|[]]; discriminate E. }
  assert (isSessionConnected 0%nat world_three_sessions = true) as Hc
    by (vm_compute; reflexivity).
  assert (transport (heap world_three_sessions 0%nat) = Some 7%nat) as Ht
    by (vm_compute; reflexivity).
  assert (In (sid_a, 0%nat) (instances world_three_sessions)) as Hin
    by (rewrite Hi; now left).
  assert (clock world_three_sessions - lastUsed (heap world_three_sessions 0%nat)
          = 1900000) as Hage by (vm_compute; reflexivity).
  assert (clock world_three_sessions - lastUsed (heap world_three_sessions 0%nat)
          > 30 * 60 * 1000) as Hgt by (rewrite Hage; reflexivity).
  assert (clock world_three_sessions - lastUsed (heap world_three_sessions 1%nat)
          = 400000) as Hage1 by (vm_compute; reflexivity).
  assert (clock world_three_sessions - lastUsed (heap world_three_sessions 1%nat)
          <= 30 * 60 * 1000) as Hle by (rewrite Hage1; discriminate).
  assert (client (heap world_three_sessions 1%nat) = Some 1%nat) as Hc1
    by (vm_compute; reflexivity).
  assert (transport (heap world_three_sessions 1%nat) = Some 8%nat) as Ht1
    by (vm_compute; reflexivity).
  destruct (X18_sweep_closes_expired_sessions_only broken 2%nat
              world_three_sessions H) as [Hx Hk].
  destruct (Hx sid_a 0%nat Hin Hgt) as (Hcl & Hclose & Hgone).
  destruct (Hk 1%nat Hle) as (K1 & K2 & _).
  split; [exact H|]. split; [exact Hc|]. split; [exact Ht|].
  split; [exact Hcl|]. split; [exact (Hclose 7%nat Ht)|]. split; [exact Hgone|].
  split; [now rewrite K1 | now rewrite K2].
Defined.

End ExpiryFacts.
